(** * Shelfie: the local library store and the library state of the App

    A shallow embedding of [types.ts], [services/db.ts],
    [services/movieService.ts], [components/ManualEntryModal.tsx] and the
    state handlers of [App.tsx], with the properties of the library that
    the specification states about them.

    Conventions of the embedding.
    - A JavaScript [number] that the application generates itself (ids,
      timestamps, seeds, star ratings, page counts) is an integer and is a
      [Z] here.  A number that only comes from a catalogue (an average
      vote) is kept as it is written, see [number].
    - A string is a sequence of bytes (the UTF-8 form of the text).
    - An optional property ([p?: T]) is an [option]; a property that is
      present with the value [undefined] and an absent property are both
      [None], as the code only ever reads them.
    - [crypto.randomUUID()], [Math.random()] and [Date.now()] are inputs.
    - A state updater handed to [setMovies] runs during the call or at
      the next render, as React decides: see [Timing]. *)

From Stdlib Require Import ZArith NArith Lia Bool Ascii String List Sorted.
From Stdlib Require Import Decimal DecimalFacts DecimalNat DecimalN.
From stdpp Require Import base option list gmap strings.

Local Open Scope string_scope.
Local Open Scope list_scope.
Local Open Scope Z_scope.

(** ** types.ts *)

Inductive MovieStatus := watchlist | watched | dropped.
Inductive MediaType := movie | tv | book.

#[global] Instance MovieStatus_eq_dec : EqDecision MovieStatus.
Proof. solve_decision. Defined.
#[global] Instance MediaType_eq_dec : EqDecision MediaType.
Proof. solve_decision. Defined.

(** A number as JSON writes it: sign, integer part, the digits of the
    fraction ([Nil] when there is none) and the exponent. *)
Record number := Number {
  num_neg : bool;
  num_int : N;
  num_frac : uint;
  num_exp : option Z
}.

Definition number_of_Z (z : Z) : number :=
  Number (z <? 0) (Z.abs_N z) Nil None.

(** The integer a number denotes, when it is written as a plain integer. *)
Definition Z_of_number (n : number) : option Z :=
  match num_frac n, num_exp n with
  | Nil, None => Some (if num_neg n then - Z.of_N (num_int n) else Z.of_N (num_int n))
  | _, _ => None
  end.

(** [T | null] *)
Inductive nullable (A : Type) := Null | NotNull (a : A).
Arguments Null {A}.
Arguments NotNull {A} a.

Module WatchProvider.
Record t := mk {
  providerId : Z;
  providerName : string;
  logoPath : string
}.
End WatchProvider.

Module WatchProvidersData.
Record t := mk {
  link : string;
  flatrate : list WatchProvider.t;
  rent : list WatchProvider.t;
  buy : list WatchProvider.t
}.
End WatchProvidersData.

Module Episode.
Record t := mk {
  id : Z;
  name : string;
  episode_number : Z;
  air_date : option string;
  overview : string;
  still_path : option (nullable string);
  isWatched : bool;
  vote_average : option number
}.
End Episode.

Module Season.
Record t := mk {
  id : Z;
  name : string;
  season_number : Z;
  poster_path : option (nullable string);
  episode_count : Z;
  air_date : option string;
  episodes : option (list Episode.t)
}.
End Season.

Module Movie.
Record t := mk {
  id : string;
  tmdbId : option Z;
  openLibraryId : option string;
  title : string;
  year : string;
  genre : list string;
  description : string;
  director : string;
  status : MovieStatus;
  rating : Z;
  userReview : option string;
  posterPath : option (nullable string);
  posterSeed : Z;
  addedAt : Z;
  mediaType : MediaType;
  tmdbRating : option number;
  pageCount : option Z;
  plannedDate : option string;
  watchProviders : option WatchProvidersData.t;
  seasons : option (list Season.t)
}.
End Movie.

(** [Partial<Movie>]: every property may be left out ([None]); an optional
    property that is given may be given as [undefined] ([Some None]). *)
Module Partial.
Record t := mk {
  id : option string;
  tmdbId : option (option Z);
  openLibraryId : option (option string);
  title : option string;
  year : option string;
  genre : option (list string);
  description : option string;
  director : option string;
  status : option MovieStatus;
  rating : option Z;
  userReview : option (option string);
  posterPath : option (option (nullable string));
  posterSeed : option Z;
  addedAt : option Z;
  mediaType : option MediaType;
  tmdbRating : option (option number);
  pageCount : option (option Z);
  plannedDate : option (option string);
  watchProviders : option (option WatchProvidersData.t);
  seasons : option (option (list Season.t))
}.

(** [{}] *)
Definition empty : t :=
  mk None None None None None None None None None None
     None None None None None None None None None None.

(** [{ status: s }] *)
Definition of_status (s : MovieStatus) : t :=
  mk None None None None None None None None (Some s) None
     None None None None None None None None None None.

(** [updates.plannedDate = d] *)
Definition set_plannedDate (d : option string) (u : t) : t :=
  mk (id u) (tmdbId u) (openLibraryId u) (title u) (year u) (genre u)
     (description u) (director u) (status u) (rating u) (userReview u)
     (posterPath u) (posterSeed u) (addedAt u) (mediaType u)
     (tmdbRating u) (pageCount u) (Some d) (watchProviders u) (seasons u).
End Partial.

Module SearchResult.
(** [id: string | number]: a string for Open Library, a number for TMDB. *)
Inductive id_t := IdNum (n : Z) | IdStr (s : string).

Record t := mk {
  id : id_t;
  title : string;
  year : string;
  genre : list string;
  description : string;
  director : string;
  posterPath : nullable string;
  mediaType : MediaType;
  voteAverage : number;
  pageCount : option Z
}.
End SearchResult.

#[global] Instance uint_eq_dec : EqDecision uint := Decimal.uint_eq_dec.
#[global] Instance number_eq_dec : EqDecision number.
Proof. solve_decision. Defined.
#[global] Instance nullable_eq_dec `{EqDecision A} : EqDecision (nullable A).
Proof. solve_decision. Defined.
#[global] Instance WatchProvider_eq_dec : EqDecision WatchProvider.t.
Proof. solve_decision. Defined.
#[global] Instance WatchProvidersData_eq_dec : EqDecision WatchProvidersData.t.
Proof. solve_decision. Defined.
#[global] Instance Episode_eq_dec : EqDecision Episode.t.
Proof. solve_decision. Defined.
#[global] Instance Season_eq_dec : EqDecision Season.t.
Proof. solve_decision. Defined.
#[global] Instance Movie_eq_dec : EqDecision Movie.t.
Proof. solve_decision. Defined.
#[global] Instance SearchId_eq_dec : EqDecision SearchResult.id_t.
Proof. solve_decision. Defined.

(** ** JavaScript values and JSON text

    The values that JSON can write, which are also the values the object
    store and the legacy storage hold.  An object keeps its properties in
    the order in which they were written; reading a property takes the last
    one of that name, as JavaScript does for a name written twice. *)

#[warnings="-register-all"]
Inductive json :=
  | JNull
  | JBool (b : bool)
  | JNum (n : number)
  | JStr (s : string)
  | JArr (items : list json)
  | JObj (props : list (string * json)).

Module JSON.
Local Open Scope char_scope.

(** [o[k]]; [None] is [undefined]. *)
Fixpoint get_prop (k : string) (props : list (string * json)) : option json :=
  match props with
  | [] => None
  | (k', v) :: rest =>
      match get_prop k rest with
      | Some w => Some w
      | None => if String.eqb k k' then Some v else None
      end
  end.

Definition get (k : string) (v : json) : option json :=
  match v with
  | JObj props => get_prop k props
  | _ => None
  end.

Definition has_prop (k : string) (props : list (string * json)) : bool :=
  existsb (fun p => String.eqb k (fst p)) props.

(** [{ ...o, k: v }]: the property keeps its place when [o] has it, and
    comes last otherwise. *)
Definition set_prop (k : string) (v : json) (props : list (string * json))
    : list (string * json) :=
  if has_prop k props then
    map (fun p => if String.eqb k (fst p) then (fst p, v) else p) props
  else props ++ [(k, v)].

(** The number is a zero: no digit of it is another digit than [0]. *)
Definition is_zero (n : number) : bool :=
  N.eqb (num_int n) 0 && bool_decide (nzhead (num_frac n) = Nil).

(** Truthiness; the argument [None] is [undefined]. *)
Definition truthy (o : option json) : bool :=
  match o with
  | None | Some JNull => false
  | Some (JBool b) => b
  | Some (JNum n) => negb (is_zero n)
  | Some (JStr s) => negb (String.eqb s "")
  | Some (JArr _) | Some (JObj _) => true
  end.

(** *** Writing: [JSON.stringify(value, null, 2)] *)

Fixpoint digits (d : uint) : list ascii :=
  match d with
  | Nil => []
  | D0 d => "0" :: digits d
  | D1 d => "1" :: digits d
  | D2 d => "2" :: digits d
  | D3 d => "3" :: digits d
  | D4 d => "4" :: digits d
  | D5 d => "5" :: digits d
  | D6 d => "6" :: digits d
  | D7 d => "7" :: digits d
  | D8 d => "8" :: digits d
  | D9 d => "9" :: digits d
  end.

Definition print_frac (f : uint) : list ascii :=
  match f with
  | Nil => []
  | _ => "." :: digits f
  end.

Definition print_exp (e : option Z) : list ascii :=
  match e with
  | None => []
  | Some z => "e" :: (if (z <? 0)%Z then "-" else "+") :: digits (N.to_uint (Z.abs_N z))
  end.

Definition print_number (n : number) : list ascii :=
  (if num_neg n then ["-"] else [])
  ++ digits (N.to_uint (num_int n))
  ++ print_frac (num_frac n)
  ++ print_exp (num_exp n).

Definition hex_digit (n : N) : ascii :=
  if (n <? 10)%N then ascii_of_N (48 + n) else ascii_of_N (87 + n).

(** A character inside a string literal. *)
Definition escape_char (c : ascii) : list ascii :=
  match c with
  | "034" => ["\"; "034"]
  | "\" => ["\"; "\"]
  | "008" => ["\"; "b"]
  | "012" => ["\"; "f"]
  | "010" => ["\"; "n"]
  | "013" => ["\"; "r"]
  | "009" => ["\"; "t"]
  | _ =>
      let n := N_of_ascii c in
      if (n <? 32)%N then
        ["\"; "u"; "0"; "0"; hex_digit (n / 16); hex_digit (n mod 16)]
      else [c]
  end.

Definition quote (s : string) : list ascii :=
  "034" :: flat_map escape_char (list_ascii_of_string s) ++ ["034"].

(** A line break and the indentation of the nesting depth. *)
Definition newline (depth : nat) : list ascii :=
  "010" :: repeat " " (2 * depth).

(** The items of an array or object, one per line, between the brackets. *)
Definition print_seq {A : Type} (item : A -> list ascii) (depth : nat)
    (l : list A) : list ascii :=
  match l with
  | [] => []
  | x :: l' =>
      newline (S depth) ++ item x
      ++ flat_map (fun y => "," :: newline (S depth) ++ item y) l'
      ++ newline depth
  end.

Fixpoint print (depth : nat) (v : json) : list ascii :=
  match v with
  | JNull => ["n"; "u"; "l"; "l"]
  | JBool true => ["t"; "r"; "u"; "e"]
  | JBool false => ["f"; "a"; "l"; "s"; "e"]
  | JNum n => print_number n
  | JStr s => quote s
  | JArr items =>
      "[" :: print_seq (print (S depth)) depth items ++ ["]"]
  | JObj props =>
      "{" :: print_seq
               (fun p => quote (fst p) ++ ":" :: " " :: print (S depth) (snd p))
               depth props
          ++ ["}"]
  end.

Definition stringify (v : json) : string :=
  string_of_list_ascii (print 0 v).

(** *** Reading: [JSON.parse(text)]; [None] is a [SyntaxError] *)

Definition is_ws (c : ascii) : bool :=
  match c with
  | " " | "009" | "010" | "013" => true
  | _ => false
  end.

Fixpoint skip_ws (s : list ascii) : list ascii :=
  match s with
  | c :: s' => if is_ws c then skip_ws s' else s
  | [] => []
  end.

Definition digit_of (c : ascii) : option (uint -> uint) :=
  match c with
  | "0" => Some D0
  | "1" => Some D1
  | "2" => Some D2
  | "3" => Some D3
  | "4" => Some D4
  | "5" => Some D5
  | "6" => Some D6
  | "7" => Some D7
  | "8" => Some D8
  | "9" => Some D9
  | _ => None
  end.

(** The longest run of digits at the head of the text. *)
Fixpoint parse_digits (s : list ascii) : uint * list ascii :=
  match s with
  | c :: s' =>
      match digit_of c with
      | Some D => let '(d, r) := parse_digits s' in (D d, r)
      | None => (Nil, s)
      end
  | [] => (Nil, [])
  end.

(** The integer part: digits, with no zero in front of another digit. *)
Definition parse_int_part (s : list ascii) : option (N * list ascii) :=
  match parse_digits s with
  | (Nil, _) => None
  | (D0 Nil, r) => Some (0%N, r)
  | (D0 _, _) => None
  | (d, r) => Some (N.of_uint d, r)
  end.

Definition parse_frac (s : list ascii) : option (uint * list ascii) :=
  match s with
  | "." :: s' =>
      match parse_digits s' with
      | (Nil, _) => None
      | (d, r) => Some (d, r)
      end
  | _ => Some (Nil, s)
  end.

Definition parse_exp_digits (negative : bool) (s : list ascii)
    : option (option Z * list ascii) :=
  match parse_digits s with
  | (Nil, _) => None
  | (d, r) =>
      let e := Z.of_N (N.of_uint d) in
      Some (Some (if negative then (- e)%Z else e), r)
  end.

Definition parse_exp (s : list ascii) : option (option Z * list ascii) :=
  match s with
  | "e" :: s' | "E" :: s' =>
      match s' with
      | "+" :: t => parse_exp_digits false t
      | "-" :: t => parse_exp_digits true t
      | _ => parse_exp_digits false s'
      end
  | _ => Some (None, s)
  end.

Definition parse_number (s : list ascii) : option (number * list ascii) :=
  let '(neg, s1) :=
    match s with
    | "-" :: t => (true, t)
    | _ => (false, s)
    end in
  '(i, s2) ← parse_int_part s1;
  '(f, s3) ← parse_frac s2;
  '(e, s4) ← parse_exp s3;
  Some (Number neg i f e, s4).

Definition hex_value (c : ascii) : option N :=
  let n := N_of_ascii c in
  if (48 <=? n)%N && (n <=? 57)%N then Some (n - 48)%N
  else if (97 <=? n)%N && (n <=? 102)%N then Some (n - 87)%N
  else if (65 <=? n)%N && (n <=? 70)%N then Some (n - 55)%N
  else None.

Definition hex4 (c1 c2 c3 c4 : ascii) : option N :=
  h1 ← hex_value c1; h2 ← hex_value c2; h3 ← hex_value c3; h4 ← hex_value c4;
  Some (h1 * 4096 + h2 * 256 + h3 * 16 + h4)%N.

(** The bytes (UTF-8) of a code point. *)
Definition utf8 (cp : N) : list ascii :=
  if (cp <? 128)%N then [ascii_of_N cp]
  else if (cp <? 2048)%N then
    [ascii_of_N (192 + cp / 64); ascii_of_N (128 + cp mod 64)]
  else if (cp <? 65536)%N then
    [ascii_of_N (224 + cp / 4096); ascii_of_N (128 + (cp / 64) mod 64);
     ascii_of_N (128 + cp mod 64)]
  else
    [ascii_of_N (240 + cp / 262144); ascii_of_N (128 + (cp / 4096) mod 64);
     ascii_of_N (128 + (cp / 64) mod 64); ascii_of_N (128 + cp mod 64)].

Definition is_high_surrogate (u : N) : bool := (55296 <=? u)%N && (u <=? 56319)%N.
Definition is_low_surrogate (u : N) : bool := (56320 <=? u)%N && (u <=? 57343)%N.

Definition cons_chars (cs : list ascii) (r : option (list ascii * list ascii))
    : option (list ascii * list ascii) :=
  '(l, rest) ← r; Some (cs ++ l, rest).

(** The characters of a string literal, after its opening quote, and
    the text after its closing quote. *)
Fixpoint parse_chars (s : list ascii) : option (list ascii * list ascii) :=
  match s with
  | [] => None
  | "034" :: r => Some ([], r)
  | "\" :: r =>
      match r with
      | "034" :: r' => cons_chars ["034"] (parse_chars r')
      | "\" :: r' => cons_chars ["\"] (parse_chars r')
      | "/" :: r' => cons_chars ["/"] (parse_chars r')
      | "b" :: r' => cons_chars ["008"] (parse_chars r')
      | "f" :: r' => cons_chars ["012"] (parse_chars r')
      | "n" :: r' => cons_chars ["010"] (parse_chars r')
      | "r" :: r' => cons_chars ["013"] (parse_chars r')
      | "t" :: r' => cons_chars ["009"] (parse_chars r')
      | "u" :: c1 :: c2 :: c3 :: c4 :: r' =>
          match hex4 c1 c2 c3 c4 with
          | None => None
          | Some u =>
              if is_high_surrogate u then
                match r' with
                | "\" :: "u" :: e1 :: e2 :: e3 :: e4 :: r'' =>
                    match hex4 e1 e2 e3 e4 with
                    | Some lo =>
                        if is_low_surrogate lo then
                          cons_chars
                            (utf8 (65536 + (u - 55296) * 1024 + (lo - 56320))%N)
                            (parse_chars r'')
                        else cons_chars (utf8 u) (parse_chars r')
                    | None => cons_chars (utf8 u) (parse_chars r')
                    end
                | _ => cons_chars (utf8 u) (parse_chars r')
                end
              else cons_chars (utf8 u) (parse_chars r')
          end
      | _ => None
      end
  | c :: r =>
      if (N_of_ascii c <? 32)%N then None
      else cons_chars [c] (parse_chars r)
  end.

Definition starts_number (c : ascii) : bool :=
  Ascii.eqb c "-" || bool_decide (is_Some (digit_of c)).

(** A value, then the text that follows it.  [fuel] bounds the number of
    nested calls. *)
Fixpoint parse_value (fuel : nat) (s : list ascii) : option (json * list ascii) :=
  match fuel with
  | O => None
  | S fuel' =>
      match skip_ws s with
      | "n" :: "u" :: "l" :: "l" :: r => Some (JNull, r)
      | "t" :: "r" :: "u" :: "e" :: r => Some (JBool true, r)
      | "f" :: "a" :: "l" :: "s" :: "e" :: r => Some (JBool false, r)
      | "034" :: r =>
          '(cs, r') ← parse_chars r;
          Some (JStr (string_of_list_ascii cs), r')
      | "[" :: r =>
          match skip_ws r with
          | c :: r' =>
              if Ascii.eqb c "]" then Some (JArr [], r')
              else '(items, r'') ← parse_elements fuel' r; Some (JArr items, r'')
          | [] => None
          end
      | "{" :: r =>
          match skip_ws r with
          | c :: r' =>
              if Ascii.eqb c "}" then Some (JObj [], r')
              else '(props, r'') ← parse_members fuel' r; Some (JObj props, r'')
          | [] => None
          end
      | c :: r =>
          if starts_number c then
            '(n, r') ← parse_number (c :: r); Some (JNum n, r')
          else None
      | [] => None
      end
  end
with parse_elements (fuel : nat) (s : list ascii) : option (list json * list ascii) :=
  match fuel with
  | O => None
  | S fuel' =>
      '(v, r1) ← parse_value fuel' s;
      match skip_ws r1 with
      | "," :: r2 => '(vs, r3) ← parse_elements fuel' r2; Some (v :: vs, r3)
      | "]" :: r2 => Some ([v], r2)
      | _ => None
      end
  end
with parse_members (fuel : nat) (s : list ascii)
    : option (list (string * json) * list ascii) :=
  match fuel with
  | O => None
  | S fuel' =>
      match skip_ws s with
      | "034" :: r =>
          '(k, r1) ← parse_chars r;
          match skip_ws r1 with
          | ":" :: r2 =>
              '(v, r3) ← parse_value fuel' r2;
              match skip_ws r3 with
              | "," :: r4 =>
                  '(ms, r5) ← parse_members fuel' r4;
                  Some ((string_of_list_ascii k, v) :: ms, r5)
              | "}" :: r4 => Some ([(string_of_list_ascii k, v)], r4)
              | _ => None
              end
          | _ => None
          end
      | _ => None
      end
  end.

Definition parse (text : string) : option json :=
  let s := list_ascii_of_string text in
  '(v, r) ← parse_value (2 * length s + 2) s;
  match skip_ws r with
  | [] => Some v
  | _ :: _ => None
  end.

(** The number of nested calls that reading a value back takes at most. *)
Fixpoint cost (v : json) : nat :=
  match v with
  | JArr items => S (list_sum (map (fun x => S (cost x)) items))
  | JObj props => S (list_sum (map (fun p => S (cost (snd p))) props))
  | _ => 1
  end.

(** What [stringify] writes after a value: nothing, a comma, or a line
    break. *)
Inductive follows : list ascii -> Prop :=
  | follows_end : follows []
  | follows_comma r : follows ("," :: r)
  | follows_newline r : follows ("010" :: r).

(** The value is read back from its text, whatever follows, given fuel
    for its nested calls. *)
Definition reads_back (v : json) : Prop :=
  forall depth fuel rest,
    (cost v <= fuel)%nat -> follows rest ->
    parse_value fuel (print depth v ++ rest) = Some (v, rest).

(** [Array.isArray] *)
Definition isArray (v : json) : bool :=
  match v with JArr _ => true | _ => false end.
End JSON.

(** ** The records of types.ts as JavaScript values

    The object a record is (its properties in the order of the interface,
    without those that are [undefined]), and the record an object is read
    as when the code uses it at the type [Movie]. *)

Module View.
(** A property, when it has a value. *)
Definition fields (l : list (string * option json)) : list (string * json) :=
  omap (fun p => pair (fst p) <$> snd p) l.

(** Reading a required and an optional property. *)
Definition req {A : Type} (k : string) (read : json -> option A)
    (o : list (string * json)) : option A :=
  JSON.get_prop k o ≫= read.

Definition opt_read {A : Type} (read : json -> option A) (p : option json)
    : option (option A) :=
  match p with
  | None => Some None
  | Some v => Some <$> read v
  end.

Definition opt {A : Type} (k : string) (read : json -> option A)
    (o : list (string * json)) : option (option A) :=
  opt_read read (JSON.get_prop k o).

(** The value given to a name in a list of properties with distinct
    names. *)
Fixpoint field_of (k : string) (l : list (string * option json)) : option json :=
  match l with
  | [] => None
  | (k', v) :: rest => if String.eqb k k' then v else field_of k rest
  end.

Definition of_Z (z : Z) : json := JNum (number_of_Z z).
Definition as_Z (v : json) : option Z :=
  match v with JNum n => Z_of_number n | _ => None end.

Definition as_number (v : json) : option number :=
  match v with JNum n => Some n | _ => None end.

Definition as_string (v : json) : option string :=
  match v with JStr s => Some s | _ => None end.

Definition as_bool (v : json) : option bool :=
  match v with JBool b => Some b | _ => None end.

Definition of_nullable (x : nullable string) : json :=
  match x with Null => JNull | NotNull s => JStr s end.
Definition as_nullable (v : json) : option (nullable string) :=
  match v with
  | JNull => Some Null
  | JStr s => Some (NotNull s)
  | _ => None
  end.

Definition of_list {A : Type} (write : A -> json) (l : list A) : json :=
  JArr (map write l).
Definition as_list {A : Type} (read : json -> option A) (v : json) : option (list A) :=
  match v with JArr items => mapM read items | _ => None end.

Definition of_status (s : MovieStatus) : json :=
  JStr match s with
       | watchlist => "watchlist"
       | watched => "watched"
       | dropped => "dropped"
       end.
Definition as_status (v : json) : option MovieStatus :=
  match v with
  | JStr s =>
      if String.eqb s "watchlist" then Some watchlist
      else if String.eqb s "watched" then Some watched
      else if String.eqb s "dropped" then Some dropped
      else None
  | _ => None
  end.

Definition of_mediaType (t : MediaType) : json :=
  JStr match t with movie => "movie" | tv => "tv" | book => "book" end.
Definition as_mediaType (v : json) : option MediaType :=
  match v with
  | JStr s =>
      if String.eqb s "movie" then Some movie
      else if String.eqb s "tv" then Some tv
      else if String.eqb s "book" then Some book
      else None
  | _ => None
  end.

Definition of_provider (p : WatchProvider.t) : json :=
  JObj (fields
    [("providerId", Some (of_Z (WatchProvider.providerId p)));
     ("providerName", Some (JStr (WatchProvider.providerName p)));
     ("logoPath", Some (JStr (WatchProvider.logoPath p)))]).
Definition as_provider (v : json) : option WatchProvider.t :=
  match v with
  | JObj o =>
      providerId ← req "providerId" as_Z o;
      providerName ← req "providerName" as_string o;
      logoPath ← req "logoPath" as_string o;
      Some (WatchProvider.mk providerId providerName logoPath)
  | _ => None
  end.

Definition of_providers (d : WatchProvidersData.t) : json :=
  JObj (fields
    [("link", Some (JStr (WatchProvidersData.link d)));
     ("flatrate", Some (of_list of_provider (WatchProvidersData.flatrate d)));
     ("rent", Some (of_list of_provider (WatchProvidersData.rent d)));
     ("buy", Some (of_list of_provider (WatchProvidersData.buy d)))]).
Definition as_providers (v : json) : option WatchProvidersData.t :=
  match v with
  | JObj o =>
      link ← req "link" as_string o;
      flatrate ← req "flatrate" (as_list as_provider) o;
      rent ← req "rent" (as_list as_provider) o;
      buy ← req "buy" (as_list as_provider) o;
      Some (WatchProvidersData.mk link flatrate rent buy)
  | _ => None
  end.

Definition of_episode (e : Episode.t) : json :=
  JObj (fields
    [("id", Some (of_Z (Episode.id e)));
     ("name", Some (JStr (Episode.name e)));
     ("episode_number", Some (of_Z (Episode.episode_number e)));
     ("air_date", JStr <$> Episode.air_date e);
     ("overview", Some (JStr (Episode.overview e)));
     ("still_path", of_nullable <$> Episode.still_path e);
     ("isWatched", Some (JBool (Episode.isWatched e)));
     ("vote_average", JNum <$> Episode.vote_average e)]).
Definition as_episode (v : json) : option Episode.t :=
  match v with
  | JObj o =>
      id ← req "id" as_Z o;
      name ← req "name" as_string o;
      episode_number ← req "episode_number" as_Z o;
      air_date ← opt "air_date" as_string o;
      overview ← req "overview" as_string o;
      still_path ← opt "still_path" as_nullable o;
      isWatched ← req "isWatched" as_bool o;
      vote_average ← opt "vote_average" as_number o;
      Some (Episode.mk id name episode_number air_date overview still_path
              isWatched vote_average)
  | _ => None
  end.

Definition of_season (s : Season.t) : json :=
  JObj (fields
    [("id", Some (of_Z (Season.id s)));
     ("name", Some (JStr (Season.name s)));
     ("season_number", Some (of_Z (Season.season_number s)));
     ("poster_path", of_nullable <$> Season.poster_path s);
     ("episode_count", Some (of_Z (Season.episode_count s)));
     ("air_date", JStr <$> Season.air_date s);
     ("episodes", of_list of_episode <$> Season.episodes s)]).
Definition as_season (v : json) : option Season.t :=
  match v with
  | JObj o =>
      id ← req "id" as_Z o;
      name ← req "name" as_string o;
      season_number ← req "season_number" as_Z o;
      poster_path ← opt "poster_path" as_nullable o;
      episode_count ← req "episode_count" as_Z o;
      air_date ← opt "air_date" as_string o;
      episodes ← opt "episodes" (as_list as_episode) o;
      Some (Season.mk id name season_number poster_path episode_count
              air_date episodes)
  | _ => None
  end.

Definition movie_fields (m : Movie.t) : list (string * option json) :=
  [("id", Some (JStr (Movie.id m)));
   ("tmdbId", of_Z <$> Movie.tmdbId m);
   ("openLibraryId", JStr <$> Movie.openLibraryId m);
   ("title", Some (JStr (Movie.title m)));
   ("year", Some (JStr (Movie.year m)));
   ("genre", Some (of_list JStr (Movie.genre m)));
   ("description", Some (JStr (Movie.description m)));
   ("director", Some (JStr (Movie.director m)));
   ("status", Some (of_status (Movie.status m)));
   ("rating", Some (of_Z (Movie.rating m)));
   ("userReview", JStr <$> Movie.userReview m);
   ("posterPath", of_nullable <$> Movie.posterPath m);
   ("posterSeed", Some (of_Z (Movie.posterSeed m)));
   ("addedAt", Some (of_Z (Movie.addedAt m)));
   ("mediaType", Some (of_mediaType (Movie.mediaType m)));
   ("tmdbRating", JNum <$> Movie.tmdbRating m);
   ("pageCount", of_Z <$> Movie.pageCount m);
   ("plannedDate", JStr <$> Movie.plannedDate m);
   ("watchProviders", of_providers <$> Movie.watchProviders m);
   ("seasons", of_list of_season <$> Movie.seasons m)].

(** The object that the record is. *)
Definition of_movie (m : Movie.t) : json := JObj (fields (movie_fields m)).

(** The record that the object is read as. *)
Definition as_movie (v : json) : option Movie.t :=
  match v with
  | JObj o =>
      id ← req "id" as_string o;
      tmdbId ← opt "tmdbId" as_Z o;
      openLibraryId ← opt "openLibraryId" as_string o;
      title ← req "title" as_string o;
      year ← req "year" as_string o;
      genre ← req "genre" (as_list as_string) o;
      description ← req "description" as_string o;
      director ← req "director" as_string o;
      status ← req "status" as_status o;
      rating ← req "rating" as_Z o;
      userReview ← opt "userReview" as_string o;
      posterPath ← opt "posterPath" as_nullable o;
      posterSeed ← req "posterSeed" as_Z o;
      addedAt ← req "addedAt" as_Z o;
      mediaType ← req "mediaType" as_mediaType o;
      tmdbRating ← opt "tmdbRating" as_number o;
      pageCount ← opt "pageCount" as_Z o;
      plannedDate ← opt "plannedDate" as_string o;
      watchProviders ← opt "watchProviders" as_providers o;
      seasons ← opt "seasons" (as_list as_season) o;
      Some (Movie.mk id tmdbId openLibraryId title year genre description
              director status rating userReview posterPath posterSeed addedAt
              mediaType tmdbRating pageCount plannedDate watchProviders seasons)
  | _ => None
  end.

(** [Movie[]] *)
Definition of_movies (l : list Movie.t) : json := of_list of_movie l.
Definition as_movies (items : list json) : option (list Movie.t) := mapM as_movie items.
End View.

Arguments View.of_movie : simpl never.
Arguments View.as_movie : simpl never.

(** ** The browser: IndexedDB, localStorage, the console

    Asynchronous calls are awaited one after the other in the sources, so a
    call is a function from the state of the browser to its outcome and the
    state it leaves.  An exception keeps the state reached when it is
    thrown: the writes of a transaction that is not aborted are committed. *)

Inductive Error :=
  | StorageUnavailable  (** [openDB] is rejected *)
  | PersistRejected     (** [persistStorage] is rejected *)
  | SyntaxError         (** [JSON.parse] *)
  | TypeError           (** a property of [null] is read *)
  | DataError           (** [put] of a value without a valid key *)
  | NotAnArray.         (** ["Invalid file format: Not an array"] *)

Inductive Outcome (A : Type) :=
  | Return (a : A)
  | Throw (e : Error).
Arguments Return {A} a.
Arguments Throw {A} e.

(** A computation over a state [S]. *)
Definition St (S A : Type) : Type := S -> Outcome A * S.

#[global] Instance St_ret {S} : MRet (St S) := fun A a s => (Return a, s).
#[global] Instance St_bind {S} : MBind (St S) := fun A B f m s =>
  match m s with
  | (Return a, s') => f a s'
  | (Throw e, s') => (Throw e, s')
  end.

Definition throw {S A} (e : Error) : St S A := fun s => (Throw e, s).
Definition gets {S A} (f : S -> A) : St S A := fun s => (Return (f s), s).
Definition modify {S} (f : S -> S) : St S unit := fun s => (Return tt, f s).

(** [try { body } catch (e) { handler(e) }] *)
Definition try_catch {S A} (body : St S A) (handler : Error -> St S A) : St S A :=
  fun s =>
    match body s with
    | (Return a, s') => (Return a, s')
    | (Throw e, s') => handler e s'
    end.

(** [try { body } finally { final }] *)
Definition try_finally {S A} (body : St S A) (final : St S unit) : St S A :=
  fun s =>
    match body s with
    | (r, s') =>
        match final s' with
        | (Return _, s'') => (r, s'')
        | (Throw e, s'') => (Throw e, s'')
        end
    end.

(** [for (const x of l) { body(x) }] *)
Fixpoint for_of {S A} (l : list A) (body : A -> St S unit) : St S unit :=
  match l with
  | [] => mret tt
  | x :: l' => body x ≫= fun _ => for_of l' body
  end.

(** A key of the object store: a number or a string.  (A key that is a
    fraction, a date, a buffer or an array is not modelled; a number is a
    key when it is an integer that a double holds exactly.) *)
Inductive Key := KNum (z : Z) | KStr (s : string).

#[global] Instance Key_eq_dec : EqDecision Key.
Proof. solve_decision. Defined.
#[global] Instance Key_countable : Countable Key.
Proof.
  refine (inj_countable'
            (fun k => match k with KNum z => inl z | KStr s => inr s end)
            (fun x => match x with inl z => KNum z | inr s => KStr s end) _).
  by intros [].
Defined.

(** What the code asks of the storage, in the order of the requests. *)
Inductive Event :=
  | EvOpenDB
  | EvPersist
  | EvGetItem (k : string)
  | EvRemoveItem (k : string)
  | EvGetAll
  | EvPut (k : Key)
  | EvDelete (k : Key)
  | EvClear.

Inductive LogLevel := Log | LogError.

Record World := mkWorld {
  (** the environment: can the database be opened; is the request for
      persistent storage answered or rejected *)
  indexedDB_available : bool;
  persist_answers : bool;
  (** [let dbPromise]: not set, or the promise of the handle, resolved
      ([true]) or rejected ([false]) *)
  dbPromise : option bool;
  (** the object store ['movies'] of the database ['shelfie-db'] *)
  store : gmap Key json;
  localStorage : gmap string string;
  console : list (LogLevel * string);
  events : list Event
}.

Definition set_dbPromise (p : option bool) (w : World) : World :=
  mkWorld (indexedDB_available w) (persist_answers w) p (store w)
    (localStorage w) (console w) (events w).
Definition set_store (f : gmap Key json -> gmap Key json) (w : World) : World :=
  mkWorld (indexedDB_available w) (persist_answers w) (dbPromise w) (f (store w))
    (localStorage w) (console w) (events w).
Definition set_localStorage (f : gmap string string -> gmap string string)
    (w : World) : World :=
  mkWorld (indexedDB_available w) (persist_answers w) (dbPromise w) (store w)
    (f (localStorage w)) (console w) (events w).
Definition log (level : LogLevel) (msg : string) (w : World) : World :=
  mkWorld (indexedDB_available w) (persist_answers w) (dbPromise w) (store w)
    (localStorage w) (console w ++ [(level, msg)]) (events w).
Definition record (e : Event) (w : World) : World :=
  mkWorld (indexedDB_available w) (persist_answers w) (dbPromise w) (store w)
    (localStorage w) (console w) (events w ++ [e]).

(** ** services/db.ts *)

Module db.
Definition M := St World.

(** [initDB]: the database is opened at the first call; every call awaits
    the same promise. *)
Definition initDB : M unit := fun w =>
  let w' :=
    match dbPromise w with
    | None => set_dbPromise (Some (indexedDB_available w)) (record EvOpenDB w)
    | Some _ => w
    end in
  match dbPromise w' with
  | Some true => (Return tt, w')
  | _ => (Throw StorageUnavailable, w')
  end.

(** The database is open, or can be opened. *)
Definition available (w : World) : Prop :=
  match dbPromise w with
  | Some ok => ok = true
  | None => indexedDB_available w = true
  end.

(** Modelled from the spec: [persistStorage] is called by [initStorage]
    and is not among the sources.  The specification has nothing between
    the initialisation of the store and the migration, so the call leaves
    the store and the legacy storage as they are; whether it is answered
    or rejected is given by the environment. *)
Definition persistStorage : M unit := fun w =>
  let w' := record EvPersist w in
  if persist_answers w then (Return tt, w') else (Throw PersistRejected, w').

(** The key of a value, at the key path ['id'] of the store. *)
Definition key_of (value : json) : option Key :=
  match JSON.get "id" value with
  | Some (JStr s) => Some (KStr s)
  | Some (JNum n) =>
      z ← Z_of_number n;
      if (Z.abs z <=? 9007199254740992)%Z then Some (KNum z) else None
  | _ => None
  end.

(** [store.put(value)] *)
Definition put (value : json) : M unit :=
  match key_of value with
  | Some k =>
      modify (fun w => set_store (insert k value) (record (EvPut k) w))
  | None => throw DataError
  end.

(** [store.clear()] *)
Definition clear : M unit :=
  modify (fun w => set_store (fun _ => ∅) (record EvClear w)).

Definition LOCAL_STORAGE_KEY : string := "shelfie_library_v1".

(** The name of the [i]-th own property of an array or a string. *)
Definition index_name (i : nat) : string :=
  string_of_list_ascii (JSON.digits (Nat.to_uint i)).

(** [{ ...movie }] *)
Definition spread (v : json) : list (string * json) :=
  match v with
  | JObj props => props
  | JArr items => imap (fun i x => (index_name i, x)) items
  | JStr s =>
      imap (fun i c => (index_name i, JStr (String c EmptyString)))
        (list_ascii_of_string s)
  | _ => []
  end.

(** [movie.mediaType || 'movie'] *)
Definition mediaType_or_movie (movie_item : json) : json :=
  match JSON.get "mediaType" movie_item with
  | Some t => if JSON.truthy (Some t) then t else JStr "movie"
  | None => JStr "movie"
  end.

(** [{ ...movie, mediaType: movie.mediaType || 'movie' }]; reading the
    property of [null] throws. *)
Definition normalized_object (movie_item : json) : json :=
  JObj (JSON.set_prop "mediaType" (mediaType_or_movie movie_item) (spread movie_item)).

Definition normalized (movie_item : json) : M json :=
  match movie_item with
  | JNull => throw TypeError
  | _ => mret (normalized_object movie_item)
  end.

Definition migrateFromLocalStorage : M unit :=
  legacyData ← gets (fun w => localStorage w !! LOCAL_STORAGE_KEY);
  _ ← modify (record (EvGetItem LOCAL_STORAGE_KEY));
  match legacyData with
  | Some text =>
      if String.eqb text "" then mret tt
      else
        try_catch
          (match JSON.parse text with
           | None => throw SyntaxError
           | Some (JArr movies) =>
               if (0 <? length movies)%nat then
                 _ ← initDB;
                 _ ← for_of movies (fun item => normalized item ≫= put);
                 _ ← modify (fun w =>
                        set_localStorage (delete LOCAL_STORAGE_KEY)
                          (record (EvRemoveItem LOCAL_STORAGE_KEY) w));
                 modify (log Log ("Migrated " +:+ index_name (length movies)
                                  +:+ " items to IndexedDB"))
               else mret tt
           | Some _ => mret tt
           end)
          (fun e => modify (log LogError "Migration failed"))
  | None => mret tt
  end.

(** [getAllMovies]: the values of the store (their order is that of the
    keys in the browser and is left open here). *)
Definition getAllMovies : M (list json) :=
  _ ← initDB;
  _ ← modify (record EvGetAll);
  gets (fun w => (map_to_list (store w)).*2).

Definition saveMovie (m : Movie.t) : M unit :=
  _ ← initDB;
  put (View.of_movie m).

Definition deleteMovie (id : string) : M unit :=
  _ ← initDB;
  modify (fun w => set_store (delete (KStr id)) (record (EvDelete (KStr id)) w)).

Definition bulkSaveMovies (movies : list json) : M unit :=
  _ ← initDB;
  _ ← clear;
  for_of movies put.
End db.

(** ** services/movieService.ts: persistence, export and import *)

Module movieService.
Definition initStorage : db.M unit :=
  _ ← db.initDB;
  _ ← db.persistStorage;
  db.migrateFromLocalStorage.

Definition getLibrary : db.M (list json) := db.getAllMovies.
Definition saveMovie (m : Movie.t) : db.M unit := db.saveMovie m.
Definition deleteMovie (id : string) : db.M unit := db.deleteMovie id.
Definition overwriteLibrary (movies : list json) : db.M unit := db.bulkSaveMovies movies.

(** [exportData]: the text of the file that is handed to the browser for
    download. *)
Definition exportData (movies : list Movie.t) : string :=
  JSON.stringify (View.of_movies movies).

(** [importData]: the promise is resolved with the array read from the
    text of the file, or rejected. *)
Definition importData (file_text : string) : Outcome (list json) :=
  match JSON.parse file_text with
  | None => Throw SyntaxError
  | Some (JArr items) => Return items
  | Some _ => Throw NotAnArray
  end.
End movieService.

(** ** JavaScript helpers used by the handlers *)

(** Truthiness of an optional number ([undefined], [0] are falsy) and of an
    optional string ([undefined], [""] are falsy). *)
Definition truthy_num (o : option Z) : bool :=
  match o with Some n => negb (n =? 0) | None => false end.

Definition truthy_str (o : option string) : bool :=
  match o with Some s => negb (String.eqb s "") | None => false end.

(** [Array.prototype.findIndex]; [None] stands for [-1]. *)
Fixpoint findIndex {A : Type} (p : A -> bool) (l : list A) : option nat :=
  match l with
  | [] => None
  | x :: l' => if p x then Some 0%nat else S <$> findIndex p l'
  end.

(** [Array.prototype.sort(compareFn)]: a stable sort; an element goes in
    front of the first one it does not compare greater than. *)
Fixpoint sort_insert {A : Type} (compareFn : A -> A -> Z) (x : A) (l : list A) : list A :=
  match l with
  | [] => [x]
  | y :: l' => if compareFn x y <=? 0 then x :: y :: l' else y :: sort_insert compareFn x l'
  end.

Fixpoint sort {A : Type} (compareFn : A -> A -> Z) (l : list A) : list A :=
  match l with
  | [] => []
  | x :: l' => sort_insert compareFn x (sort compareFn l')
  end.

(** [String.prototype.localeCompare]: the collation of the locale of the
    browser, which the code does not choose; it is an input of what is
    derived with it. *)
Definition Collation : Type := string -> string -> Z.

(** [{ ...m, ...updates }] *)
Definition assign (m : Movie.t) (updates : Partial.t) : Movie.t :=
  {| Movie.id := default (Movie.id m) (Partial.id updates);
     Movie.tmdbId := default (Movie.tmdbId m) (Partial.tmdbId updates);
     Movie.openLibraryId := default (Movie.openLibraryId m) (Partial.openLibraryId updates);
     Movie.title := default (Movie.title m) (Partial.title updates);
     Movie.year := default (Movie.year m) (Partial.year updates);
     Movie.genre := default (Movie.genre m) (Partial.genre updates);
     Movie.description := default (Movie.description m) (Partial.description updates);
     Movie.director := default (Movie.director m) (Partial.director updates);
     Movie.status := default (Movie.status m) (Partial.status updates);
     Movie.rating := default (Movie.rating m) (Partial.rating updates);
     Movie.userReview := default (Movie.userReview m) (Partial.userReview updates);
     Movie.posterPath := default (Movie.posterPath m) (Partial.posterPath updates);
     Movie.posterSeed := default (Movie.posterSeed m) (Partial.posterSeed updates);
     Movie.addedAt := default (Movie.addedAt m) (Partial.addedAt updates);
     Movie.mediaType := default (Movie.mediaType m) (Partial.mediaType updates);
     Movie.tmdbRating := default (Movie.tmdbRating m) (Partial.tmdbRating updates);
     Movie.pageCount := default (Movie.pageCount m) (Partial.pageCount updates);
     Movie.plannedDate := default (Movie.plannedDate m) (Partial.plannedDate updates);
     Movie.watchProviders := default (Movie.watchProviders m) (Partial.watchProviders updates);
     Movie.seasons := default (Movie.seasons m) (Partial.seasons updates) |}.

(** ** components/ManualEntryModal.tsx *)

Module ManualEntryModal.
Record formData := mkForm {
  title : string;
  year : string;
  director : string;
  description : string;
  genre : string;
  mediaType : MediaType
}.

Definition is_space (c : ascii) : bool :=
  match c with
  | " "%char | "009"%char | "010"%char | "011"%char | "012"%char | "013"%char => true
  | _ => false
  end.

Fixpoint trim_start (s : list ascii) : list ascii :=
  match s with
  | c :: s' => if is_space c then trim_start s' else s
  | [] => []
  end.

(** [String.prototype.trim] (on the ASCII white space) *)
Definition trim (s : list ascii) : list ascii :=
  rev (trim_start (rev (trim_start s))).

(** [String.prototype.split(',')] *)
Fixpoint split_comma (s : list ascii) : list (list ascii) :=
  match s with
  | [] => [[]]
  | c :: s' =>
      if Ascii.eqb c ","%char then [] :: split_comma s'
      else match split_comma s' with
           | w :: ws => (c :: w) :: ws
           | [] => [[c]]
           end
  end.

(** [formData.genre.split(',').map(g => g.trim()).filter(Boolean)] *)
Definition genres (s : string) : list string :=
  string_of_list_ascii <$>
    List.filter (fun g => negb (bool_decide (g = [])))
      (trim <$> split_comma (list_ascii_of_string s)).

(** The search result that [handleSubmit] hands to [onAdd]; [now] is the
    value of [Date.now()]. *)
Definition handleSubmit (f : formData) (now : Z) : SearchResult.t :=
  {| SearchResult.id := SearchResult.IdNum now;
     SearchResult.title := title f;
     SearchResult.year := year f;
     SearchResult.director :=
       if String.eqb (director f) "" then
         match mediaType f with book => "Unknown Author" | _ => "Unknown" end
       else director f;
     SearchResult.description :=
       if String.eqb (description f) "" then "No description provided."
       else description f;
     SearchResult.genre := genres (genre f);
     SearchResult.posterPath := Null;
     SearchResult.mediaType := mediaType f;
     SearchResult.voteAverage := number_of_Z 0;
     SearchResult.pageCount := None |}.
End ManualEntryModal.

(** ** App.tsx: the state updaters of the handlers *)

Inductive ViewState := LIBRARY | WATCHLIST | SEARCH | STATS | DETAILS | PLANNER.

(** What [handleAddMovie] draws from its environment: [crypto.randomUUID()],
    [Math.floor(Math.random() * 1000)] and [Date.now()]. *)
Record Fresh := mkFresh {
  randomUUID : string;
  random1000 : Z;
  now : Z
}.

(** The candidate record [newMovie] of [handleAddMovie]. *)
Definition newMovie (result : SearchResult.t) (targetStatus : MovieStatus)
    (env : Fresh) : Movie.t :=
  {| Movie.id := randomUUID env;
     Movie.tmdbId :=
       match SearchResult.id result with
       | SearchResult.IdNum n => Some n
       | SearchResult.IdStr _ => None
       end;
     Movie.openLibraryId :=
       match SearchResult.id result with
       | SearchResult.IdStr s => Some s
       | SearchResult.IdNum _ => None
       end;
     Movie.title := SearchResult.title result;
     Movie.year := SearchResult.year result;
     Movie.genre := SearchResult.genre result;
     Movie.description := SearchResult.description result;
     Movie.director := SearchResult.director result;
     Movie.status := targetStatus;
     Movie.rating := 0;
     Movie.userReview := None;
     Movie.posterPath := Some (SearchResult.posterPath result);
     Movie.posterSeed := random1000 env;
     Movie.addedAt := now env;
     Movie.mediaType := SearchResult.mediaType result;
     Movie.tmdbRating := Some (SearchResult.voteAverage result);
     Movie.pageCount := SearchResult.pageCount result;
     Movie.plannedDate := None;
     Movie.watchProviders := None;
     Movie.seasons := None |}.

(** The test of [findIndex] in [handleAddMovie]:
    [(m.tmdbId && m.tmdbId === newMovie.tmdbId) ||
     (m.openLibraryId && m.openLibraryId === newMovie.openLibraryId)] *)
Definition isDuplicate (candidate m : Movie.t) : bool :=
  (truthy_num (Movie.tmdbId m)
     && bool_decide (Movie.tmdbId m = Movie.tmdbId candidate))
  || (truthy_str (Movie.openLibraryId m)
     && bool_decide (Movie.openLibraryId m = Movie.openLibraryId candidate)).

(** The updater that [handleAddMovie] hands to [setMovies]: the new
    collection, and the record left in [movieToSave]. *)
Definition addMovie (candidate : Movie.t) (targetStatus : MovieStatus)
    (prev : list Movie.t) : list Movie.t * option Movie.t :=
  match findIndex (isDuplicate candidate) prev with
  | Some existingIndex =>
      let updated :=
        alter (fun m => assign m (Partial.of_status targetStatus)) existingIndex prev in
      (updated, updated !! existingIndex)
  | None => (candidate :: prev, Some candidate)
  end.

(** The updater of [updateMovieDetails]: [prev.map(...)], with the variable
    [updatedMovie] threaded through the calls of the callback. *)
Fixpoint updateDetails (id : string) (updates : Partial.t) (prev : list Movie.t)
    (updatedMovie : option Movie.t) : list Movie.t * option Movie.t :=
  match prev with
  | [] => ([], updatedMovie)
  | m :: rest =>
      if bool_decide (Movie.id m = id) then
        let m' := assign m updates in
        let '(l, u) := updateDetails id updates rest (Some m') in (m' :: l, u)
      else
        let '(l, u) := updateDetails id updates rest updatedMovie in (m :: l, u)
  end.

(** The arguments with which [handleQuickStatusUpdate] calls
    [updateMovieDetails]. *)
Definition quickStatus (m : Movie.t) : MovieStatus :=
  if bool_decide (Movie.status m = watchlist) then watched else watchlist.

Definition quickUpdates (m : Movie.t) : Partial.t :=
  let newStatus := quickStatus m in
  let updates := Partial.of_status newStatus in
  if bool_decide (newStatus = watched) then Partial.set_plannedDate None updates
  else updates.

(** The comparison function of [getTop]. *)
Definition upNextCompare (localeCompare : Collation) (a b : Movie.t) : Z :=
  if truthy_str (Movie.plannedDate a) && truthy_str (Movie.plannedDate b) then
    localeCompare (default "" (Movie.plannedDate a)) (default "" (Movie.plannedDate b))
  else if truthy_str (Movie.plannedDate a) && negb (truthy_str (Movie.plannedDate b)) then -1
  else if negb (truthy_str (Movie.plannedDate a)) && truthy_str (Movie.plannedDate b) then 1
  else Movie.addedAt a - Movie.addedAt b.

(** [getTop(types)] over [watchlist]; [None] is [undefined]. *)
Definition getTop (localeCompare : Collation) (watchlist_items : list Movie.t)
    (types : list MediaType) : option Movie.t :=
  let items := List.filter (fun m => bool_decide (Movie.mediaType m ∈ types)) watchlist_items in
  head (sort (upNextCompare localeCompare) items).

Record UpNext := mkUpNext {
  visual : option Movie.t;
  book_pick : option Movie.t
}.

(** [upNext]; the outer [None] is [null]. *)
Definition upNext (localeCompare : Collation) (movies : list Movie.t) (view : ViewState)
    : option UpNext :=
  match view with
  | LIBRARY | WATCHLIST =>
      let watchlist_items :=
        List.filter (fun m => bool_decide (Movie.status m = watchlist)) movies in
      Some {| visual := getTop localeCompare watchlist_items [movie; tv];
              book_pick := getTop localeCompare watchlist_items [book] |}
  | _ => None
  end.

(** *** Sequences of additions from search results *)

(** One call [handleAddMovie(result, targetStatus)], with what it draws
    from its environment. *)
Record AddCall := mkCall {
  call_result : SearchResult.t;
  call_status : MovieStatus;
  call_env : Fresh
}.

(** The collection after the call. *)
Definition addFromSearch (movies : list Movie.t) (c : AddCall) : list Movie.t :=
  fst (addMovie (newMovie (call_result c) (call_status c) (call_env c))
         (call_status c) movies).

(** The record carries the external reference [ref]: the TMDB id for a
    number, the Open Library id for a string. *)
Definition hasRef (ref : SearchResult.id_t) (m : Movie.t) : bool :=
  match ref with
  | SearchResult.IdNum n => bool_decide (Movie.tmdbId m = Some n)
  | SearchResult.IdStr s => bool_decide (Movie.openLibraryId m = Some s)
  end.

(** The reference is one that the duplicate test can see: a number other
    than [0], a string other than the empty one. *)
Definition truthyRef (ref : SearchResult.id_t) : Prop :=
  match ref with
  | SearchResult.IdNum n => n <> 0
  | SearchResult.IdStr s => s <> ""
  end.

(** *** The order of the next-up pick, as the specification words it *)

(** Dates written YYYY-MM-DD. *)
Module IsoDate.
Definition digit (c : ascii) : option Z :=
  let n := Z.of_N (N_of_ascii c) in
  if (48 <=? n) && (n <=? 57) then Some (n - 48) else None.

Definition hyphen (c : ascii) : option unit :=
  if Ascii.eqb c "-"%char then Some tt else None.

(** Year, month and day of a date written with four, two and two digits. *)
Definition parse (s : string) : option (Z * Z * Z) :=
  match list_ascii_of_string s with
  | [cy1; cy2; cy3; cy4; h1; cm1; cm2; h2; cd1; cd2] =>
      y1 ← digit cy1; y2 ← digit cy2; y3 ← digit cy3; y4 ← digit cy4;
      _ ← hyphen h1; m1 ← digit cm1; m2 ← digit cm2;
      _ ← hyphen h2; dd1 ← digit cd1; dd2 ← digit cd2;
      Some (1000 * y1 + 100 * y2 + 10 * y3 + y4, 10 * m1 + m2, 10 * dd1 + dd2)
  | _ => None
  end.

(** The first day is the second one or an earlier one. *)
Definition le (a b : Z * Z * Z) : Prop :=
  let '(y1, m1, day1) := a in
  let '(y2, m2, day2) := b in
  y1 < y2 \/ (y1 = y2 /\ (m1 < m2 \/ (m1 = m2 /\ day1 <= day2))).
End IsoDate.

(** What is used of the collation of the browser: of two dates written
    YYYY-MM-DD it puts the earlier one first.  (The digits collate by their
    value in every locale, and the two hyphens are at the same places.) *)
Definition collatesDates (localeCompare : Collation) : Prop :=
  forall s1 s2 t1 t2,
    IsoDate.parse s1 = Some t1 -> IsoDate.parse s2 = Some t2 ->
    (localeCompare s1 s2 <= 0 <-> IsoDate.le t1 t2).

(** The record has a planned date (a non-empty one). *)
Definition planned (m : Movie.t) : bool := truthy_str (Movie.plannedDate m).

(** The day for which the record is planned, when its planned date is
    written YYYY-MM-DD. *)
Definition plannedDay (m : Movie.t) : option (Z * Z * Z) :=
  IsoDate.parse (default "" (Movie.plannedDate m)).

(** The planned date of the record, when it has one, is written
    YYYY-MM-DD. *)
Definition isoPlanned (m : Movie.t) : Prop :=
  planned m = true -> is_Some (plannedDay m).

(** [a] is not outranked by [b]:
    (a) when both have a planned date, the day of [a] is not the later
        one;
    (b) a record with a planned date outranks one without;
    (c) without planned dates, [a] was not added after [b]. *)
Definition nextUpOrder (a b : Movie.t) : Prop :=
  match planned a, planned b with
  | true, true =>
      match plannedDay a, plannedDay b with
      | Some day_a, Some day_b => IsoDate.le day_a day_b
      | _, _ => False
      end
  | true, false => True
  | false, true => False
  | false, false => Movie.addedAt a <= Movie.addedAt b
  end.

(** The to-consume records of a media-category group. *)
Definition candidates (movies : list Movie.t) (types : list MediaType) : list Movie.t :=
  List.filter
    (fun m => bool_decide (Movie.status m = watchlist)
              && bool_decide (Movie.mediaType m ∈ types))
    movies.

(** [pick] is the next-up pick among [cands]: absent when there is no
    candidate, else a candidate that no candidate outranks. *)
Definition isNextUp (cands : list Movie.t) (pick : option Movie.t) : Prop :=
  match pick with
  | None => cands = []
  | Some m => m ∈ cands /\ forall x, x ∈ cands -> nextUpOrder m x
  end.

(** *** External references of a record *)

(** The record holds no external reference. *)
Definition noRef (m : Movie.t) : Prop :=
  Movie.tmdbId m = None /\ Movie.openLibraryId m = None.

(** The record holds a reference of each kind. *)
Definition holdsBoth (m : Movie.t) : Prop :=
  is_Some (Movie.tmdbId m) /\ is_Some (Movie.openLibraryId m).

(** [{ ...m, status: s }], property by property. *)
Definition withStatus (m : Movie.t) (s : MovieStatus) : Movie.t :=
  {| Movie.id := Movie.id m;
     Movie.tmdbId := Movie.tmdbId m;
     Movie.openLibraryId := Movie.openLibraryId m;
     Movie.title := Movie.title m;
     Movie.year := Movie.year m;
     Movie.genre := Movie.genre m;
     Movie.description := Movie.description m;
     Movie.director := Movie.director m;
     Movie.status := s;
     Movie.rating := Movie.rating m;
     Movie.userReview := Movie.userReview m;
     Movie.posterPath := Movie.posterPath m;
     Movie.posterSeed := Movie.posterSeed m;
     Movie.addedAt := Movie.addedAt m;
     Movie.mediaType := Movie.mediaType m;
     Movie.tmdbRating := Movie.tmdbRating m;
     Movie.pageCount := Movie.pageCount m;
     Movie.plannedDate := Movie.plannedDate m;
     Movie.watchProviders := Movie.watchProviders m;
     Movie.seasons := Movie.seasons m |}.

(** The record with another status and planned date, and nothing else
    changed. *)
Definition withStatusAndPlan (m : Movie.t) (s : MovieStatus) (d : option string)
    : Movie.t :=
  {| Movie.id := Movie.id m;
     Movie.tmdbId := Movie.tmdbId m;
     Movie.openLibraryId := Movie.openLibraryId m;
     Movie.title := Movie.title m;
     Movie.year := Movie.year m;
     Movie.genre := Movie.genre m;
     Movie.description := Movie.description m;
     Movie.director := Movie.director m;
     Movie.status := s;
     Movie.rating := Movie.rating m;
     Movie.userReview := Movie.userReview m;
     Movie.posterPath := Movie.posterPath m;
     Movie.posterSeed := Movie.posterSeed m;
     Movie.addedAt := Movie.addedAt m;
     Movie.mediaType := Movie.mediaType m;
     Movie.tmdbRating := Movie.tmdbRating m;
     Movie.pageCount := Movie.pageCount m;
     Movie.plannedDate := d;
     Movie.watchProviders := Movie.watchProviders m;
     Movie.seasons := Movie.seasons m |}.

(** ** App.tsx: the data derived from the collection *)

(** [genreSet.add(g)]: a [Set] keeps its values in the order in which they
    were first added. *)
Definition set_add (set : list string) (g : string) : list string :=
  if bool_decide (g ∈ set) then set else set ++ [g].

(** The comparison of [Array.prototype.sort()] without a comparison
    function, on strings: the order of their code units.  (The order of the
    bytes here; it is the order of the code units except between a character
    beyond U+FFFF and one from U+E000 to U+FFFF.) *)
Definition defaultCompare (a b : string) : Z :=
  match String.compare a b with
  | Lt => -1
  | Eq => 0
  | Gt => 1
  end.

(** The items whose genres [availableGenres] collects. *)
Definition relevantItems (movies : list Movie.t) (view : ViewState) : list Movie.t :=
  match view with
  | WATCHLIST => List.filter (fun m => bool_decide (Movie.status m = watchlist)) movies
  | _ => movies
  end.

Definition availableGenres (movies : list Movie.t) (view : ViewState) : list string :=
  match view with
  | SEARCH | STATS | DETAILS | PLANNER => []
  | LIBRARY | WATCHLIST =>
      let genreSet :=
        foldl (fun set item => foldl set_add set (Movie.genre item)) []
          (relevantItems movies view) in
      "All" :: sort defaultCompare genreSet
  end.

(** The comparison function of [displayedMovies]. *)
Definition byAddedAtDesc (a b : Movie.t) : Z := Movie.addedAt b - Movie.addedAt a.

(** What a call of the function of [displayedMovies] leaves: the array it
    returns, and the array [movies] of the state.  [Array.prototype.sort]
    sorts the array it is called on, and [filtered] is the array [movies]
    itself as long as no [filter] has made another array. *)
Record Displayed := mkDisplayed {
  displayed : list Movie.t;
  movies_after : list Movie.t
}.

(** [displayedMovies], for the filters of the view: [None] is ['all'] for
    [statusFilter] and [mediaFilter].  The variable [filtered] is an array
    and the mark that it is the array [movies]. *)
Definition displayedMovies (movies : list Movie.t) (view : ViewState)
    (statusFilter : option MovieStatus) (mediaFilter : option MediaType)
    (genreFilter : string) : Displayed :=
  let by_view : option (list Movie.t * bool) :=
    match view with
    | LIBRARY =>
        match statusFilter with
        | Some s =>
            Some (List.filter (fun m => bool_decide (Movie.status m = s)) movies, false)
        | None => Some (movies, true)
        end
    | WATCHLIST =>
        Some (List.filter (fun m => bool_decide (Movie.status m = watchlist)) movies, false)
    | _ => None
    end in
  match by_view with
  | None => mkDisplayed [] movies
  | Some (filtered, is_movies) =>
      let '(filtered, is_movies) :=
        match mediaFilter with
        | Some t =>
            (List.filter (fun m => bool_decide (Movie.mediaType m = t)) filtered, false)
        | None => (filtered, is_movies)
        end in
      let '(filtered, is_movies) :=
        if String.eqb genreFilter "All" then (filtered, is_movies)
        else (List.filter (fun m => bool_decide (genreFilter ∈ Movie.genre m)) filtered,
              false) in
      let sorted := sort byAddedAtDesc filtered in
      mkDisplayed sorted (if is_movies then sorted else movies)
  end.

(** [visibleMovies]: [displayedMovies.slice(0, displayLimit)] in the two
    views of the library. *)
Definition visibleMovies (displayedMovies : list Movie.t) (displayLimit : nat)
    (view : ViewState) : list Movie.t :=
  match view with
  | LIBRARY | WATCHLIST => take displayLimit displayedMovies
  | _ => displayedMovies
  end.

(** The record passes the filters of the view. *)
Definition passesFilters (view : ViewState) (statusFilter : option MovieStatus)
    (mediaFilter : option MediaType) (genreFilter : string) (m : Movie.t) : bool :=
  match view with
  | LIBRARY =>
      match statusFilter with
      | Some s => bool_decide (Movie.status m = s)
      | None => true
      end
  | WATCHLIST => bool_decide (Movie.status m = watchlist)
  | _ => false
  end
  && match mediaFilter with
     | Some t => bool_decide (Movie.mediaType m = t)
     | None => true
     end
  && (String.eqb genreFilter "All" || bool_decide (genreFilter ∈ Movie.genre m)).

(** ** components/MovieDetails.tsx: the form and the episodes *)

Module MovieDetails.
(** The state of the form: [status], [rating], [review], [plannedDate]
    and [seasons]. *)
Record form := mkForm {
  status : MovieStatus;
  rating : Z;
  review : string;
  plannedDate : string;
  seasons : list Season.t
}.

(** The initial state, for the record [movie] of the page:
    [movie.status], [movie.rating || 0], [movie.userReview || ''],
    [movie.plannedDate || ''], [movie.seasons || []]. *)
Definition open (movie : Movie.t) : form :=
  {| status := Movie.status movie;
     rating := if Movie.rating movie =? 0 then 0 else Movie.rating movie;
     review := default "" (Movie.userReview movie);
     plannedDate := default "" (Movie.plannedDate movie);
     seasons := default [] (Movie.seasons movie) |}.

(** What the user does with the form. *)
Inductive event :=
  | ClickStatus (s : MovieStatus)   (** one of the three status buttons *)
  | SetRating (r : Z)               (** [onChange] of the stars *)
  | ChangeDate (value : string)     (** the date input *)
  | ChangeReview (value : string)   (** the text area *)
  | SetSeasons (l : list Season.t). (** [setSeasons] of the episode lists *)

(** The status buttons call [setStatus(s)] and, for another status than
    'watchlist', [setPlannedDate('')].  The date input is rendered when
    the status of the form is 'watchlist', and only then. *)
Definition step (e : event) (f : form) : form :=
  match e with
  | ClickStatus s =>
      {| status := s; rating := rating f; review := review f;
         plannedDate := if bool_decide (s = watchlist) then plannedDate f else "";
         seasons := seasons f |}
  | SetRating r =>
      {| status := status f; rating := r; review := review f;
         plannedDate := plannedDate f; seasons := seasons f |}
  | ChangeDate value =>
      if bool_decide (status f = watchlist) then
        {| status := status f; rating := rating f; review := review f;
           plannedDate := value; seasons := seasons f |}
      else f
  | ChangeReview value =>
      {| status := status f; rating := rating f; review := value;
         plannedDate := plannedDate f; seasons := seasons f |}
  | SetSeasons l =>
      {| status := status f; rating := rating f; review := review f;
         plannedDate := plannedDate f; seasons := l |}
  end.

(** The updates with which [handleSave] calls [onUpdate(movie.id, ...)]:
    [{ status, rating, userReview: review,
       plannedDate: plannedDate || undefined, seasons }]. *)
Definition handleSave (f : form) : Partial.t :=
  {| Partial.id := None;
     Partial.tmdbId := None;
     Partial.openLibraryId := None;
     Partial.title := None;
     Partial.year := None;
     Partial.genre := None;
     Partial.description := None;
     Partial.director := None;
     Partial.status := Some (status f);
     Partial.rating := Some (rating f);
     Partial.userReview := Some (Some (review f));
     Partial.posterPath := None;
     Partial.posterSeed := None;
     Partial.addedAt := None;
     Partial.mediaType := None;
     Partial.tmdbRating := None;
     Partial.pageCount := None;
     Partial.plannedDate :=
       Some (if String.eqb (plannedDate f) "" then None else Some (plannedDate f));
     Partial.watchProviders := None;
     Partial.seasons := Some (Some (seasons f)) |}.

(** [{ ...ep, isWatched: w }] *)
Definition with_isWatched (ep : Episode.t) (w : bool) : Episode.t :=
  {| Episode.id := Episode.id ep;
     Episode.name := Episode.name ep;
     Episode.episode_number := Episode.episode_number ep;
     Episode.air_date := Episode.air_date ep;
     Episode.overview := Episode.overview ep;
     Episode.still_path := Episode.still_path ep;
     Episode.isWatched := w;
     Episode.vote_average := Episode.vote_average ep |}.

(** [{ ...season, episodes }] *)
Definition with_episodes (season : Season.t) (episodes : list Episode.t) : Season.t :=
  {| Season.id := Season.id season;
     Season.name := Season.name season;
     Season.season_number := Season.season_number season;
     Season.poster_path := Season.poster_path season;
     Season.episode_count := Season.episode_count season;
     Season.air_date := Season.air_date season;
     Season.episodes := Some episodes |}.

(** [updatedSeasons] of [toggleEpisodeWatched(seasonNum, episodeId)] *)
Definition toggleEpisodeWatched (seasonNum episodeId : Z) (seasons : list Season.t)
    : list Season.t :=
  (fun season =>
     match Season.episodes season with
     | Some episodes =>
         if bool_decide (Season.season_number season = seasonNum) then
           with_episodes season
             ((fun ep =>
                 if bool_decide (Episode.id ep = episodeId)
                 then with_isWatched ep (negb (Episode.isWatched ep))
                 else ep) <$> episodes)
         else season
     | None => season
     end) <$> seasons.

(** [updatedSeasons] of [markSeasonWatched(seasonNum, isWatched)] *)
Definition markSeasonWatched (seasonNum : Z) (isWatched : bool) (seasons : list Season.t)
    : list Season.t :=
  (fun season =>
     match Season.episodes season with
     | Some episodes =>
         if bool_decide (Season.season_number season = seasonNum) then
           with_episodes season ((fun ep => with_isWatched ep isWatched) <$> episodes)
         else season
     | None => season
     end) <$> seasons.

(** [season.episodes?.filter(e => e.isWatched).length || 0] *)
Definition watchedCount (season : Season.t) : nat :=
  match Season.episodes season with
  | Some episodes => length (List.filter Episode.isWatched episodes)
  | None => 0
  end.

(** [season.episodes ? season.episodes.length : season.episode_count] *)
Definition totalCount (season : Season.t) : Z :=
  match Season.episodes season with
  | Some episodes => Z.of_nat (length episodes)
  | None => Season.episode_count season
  end.

(** [totalCount > 0 && watchedCount === totalCount] *)
Definition isFullyWatched (season : Season.t) : bool :=
  (0 <? totalCount season) && (Z.of_nat (watchedCount season) =? totalCount season).
End MovieDetails.

(** ** components/Planner.tsx: the dates *)

Module Planner.
(** The updates of [handleDateChange(id, date)]: [{ plannedDate: date }] *)
Definition handleDateChange (date : string) : Partial.t :=
  Partial.set_plannedDate (Some date) Partial.empty.

(** The updates of [removeDate(id)]: [{ plannedDate: undefined }] *)
Definition removeDate : Partial.t :=
  Partial.set_plannedDate None Partial.empty.
End Planner.

(** *** The planned date and the status *)

(** A record that is not on the watchlist has no planned date (no date
    that counts as one: [undefined] and [''] do not). *)
Definition planInvariant (m : Movie.t) : Prop :=
  Movie.status m <> watchlist -> truthy_str (Movie.plannedDate m) = false.

(** ** App.tsx: the handlers, with the state of the component and the
    browser *)

Record AppState := mkApp {
  movies : list Movie.t;
  isLoading : bool;
  isSettingsOpen : bool;
  alerts : list string;
  world : World
}.

Definition set_movies (f : list Movie.t -> list Movie.t) (a : AppState) : AppState :=
  mkApp (f (movies a)) (isLoading a) (isSettingsOpen a) (alerts a) (world a).
Definition set_isLoading (b : bool) (a : AppState) : AppState :=
  mkApp (movies a) b (isSettingsOpen a) (alerts a) (world a).
Definition set_isSettingsOpen (b : bool) (a : AppState) : AppState :=
  mkApp (movies a) (isLoading a) b (alerts a) (world a).
Definition alert (msg : string) (a : AppState) : AppState :=
  mkApp (movies a) (isLoading a) (isSettingsOpen a) (alerts a ++ [msg]) (world a).
Definition set_world (w : World) (a : AppState) : AppState :=
  mkApp (movies a) (isLoading a) (isSettingsOpen a) (alerts a) w.

(** A call of the service, on the browser of the component. *)
Definition service {A : Type} (m : db.M A) : St AppState A := fun a =>
  let '(r, w) := m (world a) in (r, set_world w a).

(** The state of a component that has just been mounted. *)
Definition mount (w : World) : AppState := mkApp [] true false [] w.

(** The effect [init] that loads the library.  The records of the store
    are used at the type [Movie]; an object that cannot be read at that
    type has no place in [movies] here. *)
Definition init : St AppState unit :=
  try_finally
    (try_catch
       (_ ← service movieService.initStorage;
        loaded ← service movieService.getLibrary;
        modify (set_movies (fun _ => omap View.as_movie loaded)))
       (fun e => service (modify (log LogError "Failed to load library"))))
    (modify (set_isLoading false)).

(** [setMovies(updater)]: when React runs the updater.  React runs it
    during the call when no update of the component is pending, and puts
    it in a queue and runs it at the next render otherwise; the handler
    does not decide which, so it is an input of the handlers.  A variable
    that the updater assigns is set when [setMovies] returns in the first
    case only; the collection is the one the updater returns in both, once
    the handler and the render that follows it are done. *)
Inductive Timing :=
  | Eager     (** the updater has run when [setMovies] returns *)
  | Queued.   (** the updater runs at the next render *)

Definition handleAddMovie (result : SearchResult.t) (targetStatus : MovieStatus)
    (env : Fresh) (timing : Timing) : St AppState unit :=
  let candidate := newMovie result targetStatus env in
  prev ← gets movies;
  let '(next, assigned) := addMovie candidate targetStatus prev in
  let movieToSave := match timing with Eager => assigned | Queued => None end in
  _ ← modify (set_movies (fun _ => next));
  match movieToSave with
  | Some m => service (movieService.saveMovie m)
  | None => mret tt
  end.

Definition updateMovieDetails (id : string) (updates : Partial.t) (timing : Timing)
    : St AppState unit :=
  prev ← gets movies;
  let '(next, assigned) := updateDetails id updates prev None in
  let updatedMovie := match timing with Eager => assigned | Queued => None end in
  _ ← modify (set_movies (fun _ => next));
  match updatedMovie with
  | Some m => service (movieService.saveMovie m)
  | None => mret tt
  end.

Definition handleQuickStatusUpdate (m : Movie.t) (timing : Timing) : St AppState unit :=
  updateMovieDetails (Movie.id m) (quickUpdates m) timing.

Definition deleteMovie (id : string) : St AppState unit :=
  _ ← modify (set_movies (List.filter (fun m => negb (bool_decide (Movie.id m = id)))));
  service (movieService.deleteMovie id).

(** The manual entry: [onAdd] of [ManualEntryModal] is
    [handleAddMovie(result, 'watched')]; [submitted] is the value of
    [Date.now()] in [handleSubmit]. *)
Definition handleManualAdd (f : ManualEntryModal.formData) (submitted : Z)
    (env : Fresh) (timing : Timing) : St AppState unit :=
  handleAddMovie (ManualEntryModal.handleSubmit f submitted) watched env timing.

(** [handleExport]: the text of the downloaded file. *)
Definition handleExport (a : AppState) : string :=
  movieService.exportData (movies a).

(** [handleFileChange], for the text of the chosen file and the answer to
    [confirm].  The imported array becomes the collection and the content of
    the store as it is; [movies] holds it at the type [Movie[]], as in
    [init]. *)
Definition handleFileChange (file_text : string) (confirmed : bool) : St AppState unit :=
  try_catch
    (match movieService.importData file_text with
     | Throw e => throw e
     | Return importedMovies =>
         if confirmed then
           _ ← modify (set_movies (fun _ => omap View.as_movie importedMovies));
           _ ← service (movieService.overwriteLibrary importedMovies);
           modify (set_isSettingsOpen false)
         else mret tt
     end)
    (fun e => modify (alert "Failed to import file.")).

(** *** The store and the collection *)

(** The entry of the store for a record: the record, under its id. *)
Definition entry (m : Movie.t) : Key * json := (KStr (Movie.id m), View.of_movie m).

(** The store holds the records of the collection, each under its id, and
    nothing else; the ids of the collection are distinct. *)
Definition inSync (a : AppState) : Prop :=
  NoDup (Movie.id <$> movies a)
  /\ store (world a) = list_to_map (entry <$> movies a).

(** The value has no key at the key path ['id'] whatever the kind of keys:
    it is not an object, or its ['id'] is missing, [null], a boolean or an
    object. *)
Definition keyless (value : json) : bool :=
  match JSON.get "id" value with
  | None | Some JNull | Some (JBool _) | Some (JObj _) => true
  | Some (JNum _) | Some (JStr _) | Some (JArr _) => false
  end.

(** The object that was put last under the key [k], among [items]. *)
Definition lastWithKey (k : Key) (items : list json) : option json :=
  last (List.filter (fun x => bool_decide (db.key_of x = Some k)) items).

(** ** Sample data *)

Module Sample.
(** A browser with an empty database and no legacy data. *)
Definition browser : World := mkWorld true true None ∅ ∅ [] [].

(** A browser in which the database cannot be opened. *)
Definition broken_browser : World := mkWorld false true None ∅ ∅ [] [].

(** The browser after a first successful [initDB]. *)
Definition ready : World := mkWorld true true (Some true) ∅ ∅ [] [EvOpenDB].

Definition matrix : SearchResult.t :=
  {| SearchResult.id := SearchResult.IdNum 603;
     SearchResult.title := "The Matrix";
     SearchResult.year := "1999";
     SearchResult.genre := ["Action"; "Sci-Fi"];
     SearchResult.description := "A hacker learns what the world is.";
     SearchResult.director := "";
     SearchResult.posterPath := NotNull "/matrix.jpg";
     SearchResult.mediaType := movie;
     SearchResult.voteAverage := Number false 8 (D2 Nil) None;
     SearchResult.pageCount := None |}.

Definition dune : SearchResult.t :=
  {| SearchResult.id := SearchResult.IdStr "/works/OL893415W";
     SearchResult.title := "Dune";
     SearchResult.year := "1965";
     SearchResult.genre := ["Science fiction"];
     SearchResult.description := "No description available from Open Library.";
     SearchResult.director := "Frank Herbert";
     SearchResult.posterPath := NotNull "https://covers.openlibrary.org/b/id/1-L.jpg";
     SearchResult.mediaType := book;
     SearchResult.voteAverage := number_of_Z 0;
     SearchResult.pageCount := Some 612 |}.

(** A search result whose numeric id is [0]. *)
Definition zero : SearchResult.t :=
  {| SearchResult.id := SearchResult.IdNum 0;
     SearchResult.title := "Untitled";
     SearchResult.year := "N/A";
     SearchResult.genre := [];
     SearchResult.description := "";
     SearchResult.director := "";
     SearchResult.posterPath := Null;
     SearchResult.mediaType := movie;
     SearchResult.voteAverage := number_of_Z 0;
     SearchResult.pageCount := None |}.

Definition env1 : Fresh := mkFresh "uuid-1" 417 1700000000000.
Definition env2 : Fresh := mkFresh "uuid-2" 52 1700000600000.
Definition env3 : Fresh := mkFresh "uuid-3" 903 1700001200000.

(** The Matrix on the watchlist, planned for a day. *)
Definition planned_matrix : Movie.t :=
  withStatusAndPlan (newMovie matrix watchlist env1) watchlist (Some "2024-06-01").

Definition form : ManualEntryModal.formData :=
  ManualEntryModal.mkForm "Home video" "2020" "" "" "Family, Travel ,," movie.

(** The records A, B, C and D of the next-up example. *)
Definition item (id : string) (t : MediaType) (d : option string) (added : Z) : Movie.t :=
  {| Movie.id := id; Movie.tmdbId := None; Movie.openLibraryId := None;
     Movie.title := id; Movie.year := "2024"; Movie.genre := [];
     Movie.description := ""; Movie.director := ""; Movie.status := watchlist;
     Movie.rating := 0; Movie.userReview := None; Movie.posterPath := None;
     Movie.posterSeed := 1; Movie.addedAt := added; Movie.mediaType := t;
     Movie.tmdbRating := None; Movie.pageCount := None; Movie.plannedDate := d;
     Movie.watchProviders := None; Movie.seasons := None |}.

(** A collation: the order of the character codes. *)
Definition collation : Collation := fun s1 s2 =>
  match String.compare s1 s2 with
  | Lt => -1
  | Eq => 0
  | Gt => 1
  end.

Definition A : Movie.t := item "A" movie (Some "2024-01-05") 10.
Definition B : Movie.t := item "B" tv (Some "2024-01-01") 20.
Definition C : Movie.t := item "C" movie None 100.
Definition D : Movie.t := item "D" movie None 50.

(** Two legacy objects, the first without a media type, as the former
    version of the application left them in the legacy storage. *)
Definition legacy_alien : json :=
  JObj [("id", JStr "m1"); ("title", JStr "Alien"); ("status", JStr "watched");
        ("rating", JNum (number_of_Z 8));
        ("tmdbRating", JNum (Number false 8 (D1 Nil) None))].

Definition legacy_dune : json :=
  JObj [("id", JStr "b1"); ("title", JStr "Dune"); ("mediaType", JStr "book")].

Definition legacy_items : list json := [legacy_alien; legacy_dune].

Definition legacy_payload : string := JSON.stringify (JArr legacy_items).

Definition legacy_browser : World :=
  set_localStorage (insert db.LOCAL_STORAGE_KEY legacy_payload) browser.

(** A small library. *)
Definition library : list Movie.t :=
  [planned_matrix; newMovie dune watched env2].
End Sample.

(** ** A library in the store *)

Module SampleApp.
(** A browser whose open database holds the small library. *)
Definition stocked : World :=
  mkWorld true true (Some true) (list_to_map (entry <$> Sample.library)) ∅ []
    [EvOpenDB].

(** The App with the small library loaded. *)
Definition app : AppState := mkApp Sample.library false false [] stocked.

(** A browser in which the database could not be opened. *)
Definition failed : World := mkWorld false true (Some false) ∅ ∅ [] [EvOpenDB].
End SampleApp.

(** * Records and the objects they are *)

Lemma field_of_not_in k (l : list (string * option json)) :
  k ∉ l.*1 -> View.field_of k l = None.
Proof.
  induction l as [|[k' v] l IH]; simpl; [done|].
  intros Hk. apply not_elem_of_cons in Hk as [Hne Hk].
  destruct (String.eqb_spec k k'); [done|]. by apply IH.
Qed.

(** Reading a property of an object written from properties with distinct
    names. *)
Lemma get_prop_fields k (l : list (string * option json)) :
  NoDup l.*1 -> JSON.get_prop k (View.fields l) = View.field_of k l.
Proof.
  induction l as [|[k' v] l IH]; simpl; [done|].
  intros Hnd. apply NoDup_cons in Hnd as [Hk' Hnd].
  specialize (IH Hnd). unfold View.fields in *. simpl.
  destruct (String.eqb_spec k k') as [->|Hne].
  - assert (Hnone := field_of_not_in _ _ Hk').
    destruct v as [j|]; simpl.
    + rewrite IH, Hnone. by rewrite String.eqb_refl.
    + by rewrite IH, Hnone.
  - destruct v as [j|]; simpl; [|done].
    rewrite IH. destruct (View.field_of k l); [done|].
    by destruct (String.eqb_spec k k').
Qed.

Lemma req_fields {A} k (read : json -> option A) l :
  NoDup l.*1 -> View.req k read (View.fields l) = View.field_of k l ≫= read.
Proof. intros. unfold View.req. by rewrite get_prop_fields. Qed.

Lemma opt_fields {A} k (read : json -> option A) l :
  NoDup l.*1 ->
  View.opt k read (View.fields l) = View.opt_read read (View.field_of k l).
Proof. intros. unfold View.opt. by rewrite get_prop_fields. Qed.

Lemma opt_read_fmap {A} (write : A -> json) (read : json -> option A) (x : option A) :
  (forall a, read (write a) = Some a) ->
  View.opt_read read (write <$> x) = Some x.
Proof. intros H. destruct x as [a|]; simpl; [|done]. by rewrite H. Qed.

Lemma Z_of_number_of_Z z : Z_of_number (number_of_Z z) = Some z.
Proof.
  unfold Z_of_number, number_of_Z. simpl. f_equal.
  rewrite N2Z.inj_abs_N. destruct (Z.ltb_spec z 0); lia.
Qed.

Lemma as_Z_of_Z z : View.as_Z (View.of_Z z) = Some z.
Proof. apply Z_of_number_of_Z. Qed.

Lemma as_nullable_of_nullable x : View.as_nullable (View.of_nullable x) = Some x.
Proof. by destruct x. Qed.

Lemma as_status_of_status s : View.as_status (View.of_status s) = Some s.
Proof. by destruct s. Qed.

Lemma as_mediaType_of_mediaType t : View.as_mediaType (View.of_mediaType t) = Some t.
Proof. by destruct t. Qed.

Lemma as_list_of_list {A} (write : A -> json) (read : json -> option A) l :
  (forall a, read (write a) = Some a) ->
  View.as_list read (View.of_list write l) = Some l.
Proof.
  intros H. unfold View.as_list, View.of_list.
  induction l as [|a l IH]; simpl; [done|].
  rewrite H. simpl. by rewrite IH.
Qed.

(** The proof pattern of the records: read the properties from the list
    they were written from, then undo each writer. *)
Ltac nodup_names := apply (bool_decide_unpack _); vm_compute; exact I.

Ltac read_fields :=
  rewrite ?req_fields, ?opt_fields by nodup_names;
  cbn [View.field_of String.eqb Ascii.eqb Bool.eqb];
  cbn [mbind option_bind View.as_string View.as_bool View.as_number].

Lemma as_provider_of_provider p : View.as_provider (View.of_provider p) = Some p.
Proof.
  destruct p. unfold View.as_provider, View.of_provider.
  read_fields.
  rewrite as_Z_of_Z. done.
Qed.

Lemma as_providers_of_providers d : View.as_providers (View.of_providers d) = Some d.
Proof.
  destruct d. unfold View.as_providers, View.of_providers. read_fields.
  rewrite !(as_list_of_list _ _ _ as_provider_of_provider). done.
Qed.

Lemma as_episode_of_episode e : View.as_episode (View.of_episode e) = Some e.
Proof.
  destruct e. unfold View.as_episode, View.of_episode. read_fields.
  rewrite !as_Z_of_Z.
  rewrite (opt_read_fmap JStr View.as_string) by done.
  rewrite (opt_read_fmap _ _ _ as_nullable_of_nullable).
  rewrite (opt_read_fmap JNum View.as_number) by done.
  done.
Qed.

Lemma as_season_of_season s : View.as_season (View.of_season s) = Some s.
Proof.
  destruct s. unfold View.as_season, View.of_season. read_fields.
  rewrite !as_Z_of_Z.
  rewrite (opt_read_fmap _ _ _ as_nullable_of_nullable).
  rewrite (opt_read_fmap JStr View.as_string) by done.
  rewrite (opt_read_fmap _ _ _ (fun l => as_list_of_list _ _ l as_episode_of_episode)).
  done.
Qed.

(** A record is read back from the object it is. *)
Lemma as_movie_of_movie m : View.as_movie (View.of_movie m) = Some m.
Proof.
  destruct m. unfold View.as_movie, View.of_movie, View.movie_fields.
  cbn [Movie.id Movie.tmdbId Movie.openLibraryId Movie.title Movie.year
       Movie.genre Movie.description Movie.director Movie.status Movie.rating
       Movie.userReview Movie.posterPath Movie.posterSeed Movie.addedAt
       Movie.mediaType Movie.tmdbRating Movie.pageCount Movie.plannedDate
       Movie.watchProviders Movie.seasons].
  read_fields.
  rewrite !as_Z_of_Z, as_status_of_status, as_mediaType_of_mediaType.
  rewrite (as_list_of_list JStr View.as_string) by done.
  rewrite !(opt_read_fmap _ _ _ as_Z_of_Z).
  rewrite !(opt_read_fmap JStr View.as_string) by done.
  rewrite (opt_read_fmap _ _ _ as_nullable_of_nullable).
  rewrite (opt_read_fmap JNum View.as_number) by done.
  rewrite (opt_read_fmap _ _ _ as_providers_of_providers).
  rewrite (opt_read_fmap _ _ _ (fun l => as_list_of_list _ _ l as_season_of_season)).
  done.
Qed.

Lemma omap_as_movie_of_movies l :
  omap View.as_movie (map View.of_movie l) = l.
Proof.
  induction l as [|m l IH]; [done|].
  cbn [map omap list_omap]. by rewrite as_movie_of_movie, IH.
Qed.

Lemma key_of_movie m : db.key_of (View.of_movie m) = Some (KStr (Movie.id m)).
Proof.
  unfold db.key_of, View.of_movie, JSON.get.
  rewrite get_prop_fields by nodup_names. done.
Qed.

(** * JSON text: what [stringify] writes, [parse] reads back *)

Section json_roundtrip.
Local Open Scope char_scope.
Import JSON.

(** An induction principle that reaches the values inside arrays and
    objects. *)
Lemma json_nested_ind (P : json -> Prop) :
  P JNull ->
  (forall b, P (JBool b)) ->
  (forall n, P (JNum n)) ->
  (forall s, P (JStr s)) ->
  (forall items, Forall P items -> P (JArr items)) ->
  (forall props, Forall (fun p => P (snd p)) props -> P (JObj props)) ->
  forall v, P v.
Proof.
  intros Hnull Hbool Hnum Hstr Harr Hobj.
  fix IH 1. intros [| b | n | s | items | props].
  - exact Hnull.
  - apply Hbool.
  - apply Hnum.
  - apply Hstr.
  - apply Harr. induction items as [|x items IHitems]; constructor.
    + apply IH.
    + exact IHitems.
  - apply Hobj. induction props as [|[k x] props IHprops]; constructor.
    + apply IH.
    + exact IHprops.
Qed.

(** ** Numbers *)

Lemma follows_not_digit rest :
  follows rest ->
  match rest with [] => True | c :: _ => digit_of c = None end.
Proof. by intros []. Qed.

Lemma parse_digits_digits d rest :
  match rest with [] => True | c :: _ => digit_of c = None end ->
  parse_digits (digits d ++ rest) = (d, rest).
Proof.
  intros Hrest. induction d as [|d IH|d IH|d IH|d IH|d IH|d IH|d IH|d IH|d IH|d IH];
    simpl; rewrite ?IH; try done.
  destruct rest as [|c r]; simpl; [done|]. by rewrite Hrest.
Qed.

Lemma to_uint_unorm n : unorm (N.to_uint n) = N.to_uint n.
Proof.
  rewrite <- (DecimalN.Unsigned.to_of (N.to_uint n)).
  by rewrite DecimalN.Unsigned.of_to.
Qed.

Lemma to_uint_not_Nil n : N.to_uint n <> Nil.
Proof. rewrite <- to_uint_unorm. apply unorm_nonnil. Qed.

Lemma to_uint_D0 n d : N.to_uint n = D0 d -> d = Nil /\ n = 0%N.
Proof.
  intros Hn. pose proof (to_uint_unorm n) as Hu. rewrite Hn in Hu.
  rewrite unorm_D0 in Hu. unfold unorm in Hu.
  destruct (nzhead d) eqn:Hd; try (by destruct (nzhead_nonzero d d); congruence).
  injection Hu as <-. split; [done|].
  rewrite <- (DecimalN.Unsigned.of_to n), Hn. done.
Qed.

Lemma parse_int_part_print n rest :
  match rest with [] => True | c :: _ => digit_of c = None end ->
  parse_int_part (digits (N.to_uint n) ++ rest) = Some (n, rest).
Proof.
  intros Hrest. unfold parse_int_part. rewrite (parse_digits_digits _ _ Hrest).
  pose proof (to_uint_not_Nil n) as Hnil.
  pose proof (DecimalN.Unsigned.of_to n) as Hof.
  destruct (N.to_uint n) as [|d|d|d|d|d|d|d|d|d|d] eqn:Hn; try done;
    try (by rewrite Hof).
  destruct (to_uint_D0 _ _ Hn) as [-> ->]. done.
Qed.

Lemma print_exp_head e : print_exp e = [] \/ exists t, print_exp e = "e" :: t.
Proof. destruct e; [right; by eexists|by left]. Qed.

Lemma parse_frac_print f e rest :
  follows rest ->
  parse_frac (print_frac f ++ print_exp e ++ rest) = Some (f, print_exp e ++ rest).
Proof.
  intros Hrest.
  assert (Hnd : match print_exp e ++ rest with
                | [] => True
                | c :: _ => digit_of c = None
                end).
  { destruct (print_exp_head e) as [->|[t ->]]; [|done]. by apply follows_not_digit. }
  assert (Hnodot : parse_frac (print_exp e ++ rest) = Some (Nil, print_exp e ++ rest)).
  { destruct (print_exp_head e) as [->|[t ->]]; [|done]. by destruct Hrest. }
  destruct f as [|d|d|d|d|d|d|d|d|d|d]; [exact Hnodot|..];
    unfold print_frac; cbn [app]; unfold parse_frac; cbv beta iota;
    by rewrite (parse_digits_digits _ _ Hnd).
Qed.

Lemma parse_exp_print e rest :
  follows rest ->
  parse_exp (print_exp e ++ rest) = Some (e, rest).
Proof.
  intros Hrest. pose proof (follows_not_digit _ Hrest) as Hnd.
  destruct e as [z|]; [|by destruct Hrest].
  unfold print_exp. cbn [app]. unfold parse_exp. cbv beta iota.
  pose proof (to_uint_not_Nil (Z.abs_N z)) as Hnil.
  pose proof (DecimalN.Unsigned.of_to (Z.abs_N z)) as Hof.
  destruct (Z.ltb_spec z 0); cbv beta iota; unfold parse_exp_digits;
    rewrite (parse_digits_digits _ _ Hnd);
    destruct (N.to_uint (Z.abs_N z)); try done;
    rewrite Hof, N2Z.inj_abs_N; do 3 f_equal; lia.
Qed.

Lemma digits_to_uint_head i :
  exists c r, digits (N.to_uint i) = c :: r /\ is_Some (digit_of c).
Proof.
  pose proof (to_uint_not_Nil i).
  destruct (N.to_uint i); try done; by eexists _, _.
Qed.

Lemma parse_number_print n rest :
  follows rest ->
  parse_number (print_number n ++ rest) = Some (n, rest).
Proof.
  intros Hrest. destruct n as [neg i f e]. unfold print_number.
  cbn [num_neg num_int num_frac num_exp].
  assert (Hint : parse_int_part (digits (N.to_uint i) ++ print_frac f ++ print_exp e ++ rest)
                 = Some (i, print_frac f ++ print_exp e ++ rest)).
  { apply parse_int_part_print.
    destruct f; try done.
    destruct (print_exp_head e) as [->|[t ->]]; [|done]. by apply follows_not_digit. }
  unfold parse_number.
  destruct neg; rewrite <- !app_assoc; cbn [app].
  - cbv beta iota. rewrite Hint. cbn [mbind option_bind].
    rewrite (parse_frac_print f e rest Hrest).
    cbn [mbind option_bind]. by rewrite (parse_exp_print e rest Hrest).
  - destruct (digits_to_uint_head i) as (c & r & Hcr & Hc).
    assert (Hs : match digits (N.to_uint i) ++ print_frac f ++ print_exp e ++ rest with
                 | "-" :: t => (true, t)
                 | _ => (false, digits (N.to_uint i) ++ print_frac f ++ print_exp e ++ rest)
                 end = (false, digits (N.to_uint i) ++ print_frac f ++ print_exp e ++ rest)).
    { rewrite Hcr. cbn [app].
      destruct c as [[] [] [] [] [] [] [] []]; try reflexivity.
      by destruct Hc. }
    rewrite Hs. rewrite Hint. cbn [mbind option_bind].
    rewrite (parse_frac_print f e rest Hrest).
    cbn [mbind option_bind]. by rewrite (parse_exp_print e rest Hrest).
Qed.

(** ** Strings *)

Lemma parse_chars_escape c r :
  parse_chars (escape_char c ++ r) = cons_chars [c] (parse_chars r).
Proof. destruct c as [[] [] [] [] [] [] [] []]; reflexivity. Qed.

Lemma parse_chars_escaped s rest :
  parse_chars (flat_map escape_char s ++ "034" :: rest) = Some (s, rest).
Proof.
  induction s as [|c s IH]; [done|].
  cbn [flat_map]. rewrite <- app_assoc, parse_chars_escape, IH. done.
Qed.

Lemma parse_chars_quote s rest :
  exists t, quote s ++ rest = "034" :: t
    /\ parse_chars t = Some (list_ascii_of_string s, rest).
Proof.
  exists (flat_map escape_char (list_ascii_of_string s) ++ "034" :: rest).
  split; [|apply parse_chars_escaped].
  unfold quote. cbn [app]. by rewrite <- app_assoc.
Qed.

(** ** White space *)

Lemma skip_ws_spaces n s : skip_ws (repeat " " n ++ s) = skip_ws s.
Proof. induction n as [|n IH]; [done|]. exact IH. Qed.

Lemma skip_ws_newline depth s : skip_ws (newline depth ++ s) = skip_ws s.
Proof. unfold newline. cbn [app]. apply skip_ws_spaces. Qed.

Lemma parse_value_skip fuel s t :
  skip_ws s = skip_ws t -> parse_value fuel s = parse_value fuel t.
Proof. intros H. destruct fuel; [done|]. simpl. by rewrite H. Qed.

Lemma parse_members_skip fuel s t :
  skip_ws s = skip_ws t -> parse_members fuel s = parse_members fuel t.
Proof. intros H. destruct fuel; [done|]. simpl. by rewrite H. Qed.

(** ** Values *)

Lemma digit_char c :
  is_Some (digit_of c) ->
  is_ws c = false /\ Ascii.eqb c "]" = false /\ skip_ws [c] = [c].
Proof.
  destruct c as [[] [] [] [] [] [] [] []]; intros [? H]; try discriminate H; done.
Qed.

Lemma print_number_head n rest :
  exists c t, print_number n ++ rest = c :: t
    /\ (c = "-" \/ is_Some (digit_of c)).
Proof.
  destruct n as [neg i f e]. unfold print_number. cbn [num_neg num_int].
  destruct neg.
  - eexists _, _. split; [reflexivity|by left].
  - destruct (digits_to_uint_head i) as (c & r & -> & Hc).
    eexists _, _. split; [reflexivity|by right].
Qed.

(** What a value is written with first: no white space, no closing
    bracket. *)
Lemma print_head depth v rest :
  exists c t, print depth v ++ rest = c :: t
    /\ is_ws c = false /\ Ascii.eqb c "]" = false.
Proof.
  destruct v as [| [] | n | s | items | props];
    try (eexists _, _; split; [reflexivity|done]).
  destruct (print_number_head n rest) as (c & t & Heq & [->|Hc]).
  - eexists _, _. split; [exact Heq|done].
  - destruct (digit_char c Hc) as (? & ? & _). eexists _, _. split; [exact Heq|done].
Qed.

Lemma parse_value_number fuel c t :
  c = "-" \/ is_Some (digit_of c) ->
  parse_value (S fuel) (c :: t)
  = '(n, r) ← parse_number (c :: t); Some (JNum n, r).
Proof.
  intros [->|Hc]; [done|].
  destruct c as [[] [] [] [] [] [] [] []]; destruct Hc as [? H];
    try discriminate H; reflexivity.
Qed.

Lemma parse_elements_eq fuel s :
  parse_elements (S fuel) s
  = '(v, r1) ← parse_value fuel s;
    match skip_ws r1 with
    | "," :: r2 => '(vs, r3) ← parse_elements fuel r2; Some (v :: vs, r3)
    | "]" :: r2 => Some ([v], r2)
    | _ => None
    end.
Proof. reflexivity. Qed.

Lemma parse_members_eq fuel t :
  parse_members (S fuel) ("034" :: t)
  = '(k, r1) ← parse_chars t;
    match skip_ws r1 with
    | ":" :: r2 =>
        '(v, r3) ← parse_value fuel r2;
        match skip_ws r3 with
        | "," :: r4 =>
            '(ms, r5) ← parse_members fuel r4;
            Some ((string_of_list_ascii k, v) :: ms, r5)
        | "}" :: r4 => Some ([(string_of_list_ascii k, v)], r4)
        | _ => None
        end
    | _ => None
    end.
Proof. reflexivity. Qed.

Lemma parse_value_array fuel r :
  parse_value (S fuel) ("[" :: r)
  = match skip_ws r with
    | c :: r' =>
        if Ascii.eqb c "]" then Some (JArr [], r')
        else '(items, r'') ← parse_elements fuel r; Some (JArr items, r'')
    | [] => None
    end.
Proof. reflexivity. Qed.

Lemma parse_value_object fuel r :
  parse_value (S fuel) ("{" :: r)
  = match skip_ws r with
    | c :: r' =>
        if Ascii.eqb c "}" then Some (JObj [], r')
        else '(props, r'') ← parse_members fuel r; Some (JObj props, r'')
    | [] => None
    end.
Proof. reflexivity. Qed.

Lemma follows_items {A} (item : A -> list ascii) depth (l : list A) rest close :
  follows (flat_map (fun y => "," :: newline (S depth) ++ item y) l
           ++ newline depth ++ close :: rest).
Proof. destruct l; constructor. Qed.

Lemma parse_elements_print depth l : forall x fuel rest,
  Forall reads_back (x :: l) ->
  (list_sum (map (fun y => S (cost y)) (x :: l)) <= fuel)%nat ->
  parse_elements fuel
    (newline (S depth) ++ print (S depth) x
     ++ flat_map (fun y => "," :: newline (S depth) ++ print (S depth) y) l
     ++ newline depth ++ "]" :: rest)
  = Some (x :: l, rest).
Proof.
  induction l as [|y l IH]; intros x fuel rest Hall Hfuel.
  - apply Forall_cons in Hall as [Hx _].
    destruct fuel as [|fuel]; [simpl in Hfuel; lia|].
    rewrite parse_elements_eq.
    rewrite (parse_value_skip fuel _ _ (skip_ws_newline (S depth) _)).
    rewrite Hx; [| simpl in Hfuel; lia | apply follows_items].
    cbn [flat_map app mbind option_bind]. rewrite skip_ws_newline. done.
  - apply Forall_cons in Hall as [Hx Hall].
    destruct fuel as [|fuel]; [simpl in Hfuel; lia|].
    rewrite parse_elements_eq.
    rewrite (parse_value_skip fuel _ _ (skip_ws_newline (S depth) _)).
    rewrite Hx; [| simpl in Hfuel; lia | apply follows_items].
    cbn [flat_map mbind option_bind]. rewrite <- !app_assoc.
    cbn [app skip_ws is_ws]. cbv beta iota. rewrite <- !app_assoc.
    rewrite (IH y fuel rest Hall); [done|]. simpl in *. lia.
Qed.

Lemma parse_members_print depth l : forall p fuel rest,
  Forall (fun q => reads_back (snd q)) (p :: l) ->
  (list_sum (map (fun q => S (cost (snd q))) (p :: l)) <= fuel)%nat ->
  parse_members fuel
    (newline (S depth)
     ++ (quote (fst p) ++ ":" :: " " :: print (S depth) (snd p))
     ++ flat_map (fun q => "," :: newline (S depth)
                           ++ quote (fst q) ++ ":" :: " " :: print (S depth) (snd q)) l
     ++ newline depth ++ "}" :: rest)
  = Some (p :: l, rest).
Proof.
  induction l as [|q l IH]; intros [k x] fuel rest Hall Hfuel.
  - apply Forall_cons in Hall as [Hx _]. cbn [fst snd] in *.
    destruct fuel as [|fuel]; [simpl in Hfuel; lia|].
    rewrite (parse_members_skip (S fuel) _ _ (skip_ws_newline (S depth) _)).
    cbn [flat_map app]. rewrite <- !app_assoc.
    match goal with
    | |- parse_members _ (quote k ++ ?tail) = _ =>
        destruct (parse_chars_quote k tail) as (t & Ht & Hparse)
    end.
    rewrite Ht, parse_members_eq, Hparse.
    cbn [mbind option_bind skip_ws is_ws app]. cbv beta iota.
    match goal with
    | |- context [parse_value fuel (" " :: ?s)] =>
        rewrite (parse_value_skip fuel (" " :: s) s) by reflexivity
    end.
    rewrite Hx; [| simpl in Hfuel; lia | constructor].
    cbn [mbind option_bind]. rewrite skip_ws_newline.
    cbn [skip_ws is_ws]. cbv beta iota.
    by rewrite string_of_list_ascii_of_string.
  - apply Forall_cons in Hall as [Hx Hall]. cbn [fst snd] in *.
    destruct fuel as [|fuel]; [simpl in Hfuel; lia|].
    rewrite (parse_members_skip (S fuel) _ _ (skip_ws_newline (S depth) _)).
    rewrite <- !app_assoc.
    match goal with
    | |- parse_members _ (quote k ++ ?tail) = _ =>
        destruct (parse_chars_quote k tail) as (t & Ht & Hparse)
    end.
    rewrite Ht, parse_members_eq, Hparse.
    cbn [mbind option_bind skip_ws is_ws app]. cbv beta iota.
    match goal with
    | |- context [parse_value fuel (" " :: ?s)] =>
        rewrite (parse_value_skip fuel (" " :: s) s) by reflexivity
    end.
    rewrite Hx; [| simpl in Hfuel; lia | ].
    2:{ cbn [flat_map]. rewrite <- !app_assoc. constructor. }
    cbn [flat_map mbind option_bind]. rewrite <- !app_assoc.
    cbn [app skip_ws is_ws]. cbv beta iota. rewrite <- !app_assoc.
    destruct q as [k' y].
    assert (Hrec := IH (k', y) fuel rest Hall).
    cbn [fst snd] in Hrec. rewrite <- !app_assoc in Hrec. cbn [app] in Hrec.
    cbn [fst snd app].
    rewrite Hrec; [|simpl in *; lia].
    cbn [mbind option_bind]. by rewrite string_of_list_ascii_of_string.
Qed.

Lemma parse_value_print v : reads_back v.
Proof.
  induction v as [| b | n | s | items IH | props IH] using json_nested_ind;
    intros depth fuel rest Hfuel Hrest;
    (destruct fuel as [|fuel]; [simpl in Hfuel; lia|]).
  - reflexivity.
  - by destruct b.
  - cbn [print].
    destruct (print_number_head n rest) as (c & t & Heq & Hc).
    rewrite Heq, (parse_value_number _ _ _ Hc), <- Heq.
    by rewrite (parse_number_print _ _ Hrest).
  - cbn [print].
    destruct (parse_chars_quote s rest) as (t & -> & Hparse).
    change (parse_value (S fuel) ("034" :: t))
      with ('(cs, r') ← parse_chars t; Some (JStr (string_of_list_ascii cs), r')).
    rewrite Hparse. cbn [mbind option_bind].
    by rewrite string_of_list_ascii_of_string.
  - cbn [print app]. rewrite parse_value_array.
    destruct items as [|x l].
    + reflexivity.
    + unfold print_seq. rewrite <- !app_assoc.
      destruct (print_head (S depth) x
                  (flat_map (fun y => "," :: newline (S depth) ++ print (S depth) y) l
                   ++ newline depth ++ ["]"] ++ rest))
        as (c & t & Heq & Hws & Hclose).
      match goal with
      | |- context [skip_ws ?r] =>
          assert (Hskip : skip_ws r = c :: t)
            by (rewrite skip_ws_newline, Heq; cbn [skip_ws]; by rewrite Hws)
      end.
      rewrite Hskip, Hclose. cbn [app].
      rewrite (parse_elements_print depth l x fuel rest IH); [done|].
      simpl in Hfuel. simpl. lia.
  - cbn [print app]. rewrite parse_value_object.
    destruct props as [|p l].
    + reflexivity.
    + set (item := fun q : string * json =>
                     quote q.1 ++ ":" :: " " :: print (S depth) q.2).
      assert (Htext : (print_seq item depth (p :: l) ++ ["}"]) ++ rest
                      = newline (S depth) ++ item p
                        ++ flat_map (fun q => "," :: newline (S depth) ++ item q) l
                        ++ newline depth ++ "}" :: rest).
      { unfold print_seq. by rewrite <- !app_assoc. }
      rewrite Htext.
      assert (Hskip : exists t,
                skip_ws (newline (S depth) ++ item p
                         ++ flat_map (fun q => "," :: newline (S depth) ++ item q) l
                         ++ newline depth ++ "}" :: rest) = "034" :: t).
      { rewrite skip_ws_newline. unfold item at 1, quote at 1.
        cbn [app skip_ws is_ws]. by eexists. }
      destruct Hskip as [t ->]. cbv beta iota.
      change (Ascii.eqb "034" "}") with false. cbv beta iota.
      subst item. cbv beta.
      rewrite (parse_members_print depth l p fuel rest IH); [done|].
      simpl in Hfuel. simpl. lia.
Qed.

(** ** The fuel of [parse] *)

Lemma sum_le_flat_map {A} (c : A -> nat) (f : A -> list ascii) (l : list A) :
  Forall (fun y => (S (c y) <= 2 * length (f y))%nat) l ->
  (list_sum (map (fun y => S (c y)) l) <= 2 * length (flat_map f l))%nat.
Proof.
  induction 1 as [|y l Hy _ IH]; simpl; [lia|].
  rewrite length_app. lia.
Qed.

Lemma print_number_length n : (1 <= length (print_number n))%nat.
Proof.
  destruct (print_number_head n []) as (c & t & Heq & _).
  rewrite app_nil_r in Heq. rewrite Heq. simpl. lia.
Qed.

Lemma cost_le_print v : forall depth, (cost v <= 2 * length (print depth v))%nat.
Proof.
  induction v as [| b | n | s | items IH | props IH] using json_nested_ind;
    intros depth.
  - simpl. lia.
  - destruct b; simpl; lia.
  - pose proof (print_number_length n). simpl. lia.
  - simpl. lia.
  - cbn [cost print]. destruct items as [|x l]; [simpl; lia|].
    unfold print_seq. cbn [length]. rewrite !length_app. cbn [length].
    assert (Hsum : (list_sum (map (fun y => S (cost y)) (x :: l))
                    <= 2 * length (flat_map
                                     (fun y => "," :: newline (S depth) ++ print (S depth) y)
                                     (x :: l)))%nat).
    { apply sum_le_flat_map. eapply Forall_impl; [exact IH|].
      intros y Hy. cbn beta in Hy. specialize (Hy (S depth)).
      cbn [length]. rewrite length_app. lia. }
    cbn [flat_map] in Hsum. rewrite length_app in Hsum. cbn [length] in Hsum.
    rewrite length_app in Hsum. lia.
  - cbn [cost print]. destruct props as [|p l]; [simpl; lia|].
    unfold print_seq. cbn [length]. rewrite !length_app. cbn [length].
    assert (Hsum : (list_sum (map (fun q => S (cost q.2)) (p :: l))
                    <= 2 * length
                           (flat_map
                              (fun q => "," :: newline (S depth)
                                        ++ quote q.1 ++ ":" :: " " :: print (S depth) q.2)
                              (p :: l)))%nat).
    { apply (sum_le_flat_map (fun q => cost q.2)).
      eapply Forall_impl; [exact IH|].
      intros q Hq. cbn beta in Hq. specialize (Hq (S depth)).
      cbn [length]. rewrite !length_app. cbn [length]. lia. }
    cbn [flat_map] in Hsum. rewrite length_app in Hsum. cbn [length] in Hsum.
    rewrite !length_app in Hsum. cbn [length] in Hsum. lia.
Qed.

(** [JSON.parse(JSON.stringify(v, null, 2))] is [v]. *)
Lemma parse_stringify v : parse (stringify v) = Some v.
Proof.
  unfold parse, stringify. rewrite list_ascii_of_string_of_list_ascii.
  pose proof (parse_value_print v 0%nat (2 * length (print 0 v) + 2)%nat []) as H.
  rewrite app_nil_r in H. rewrite H.
  - reflexivity.
  - pose proof (cost_le_print v 0%nat). lia.
  - constructor.
Qed.

End json_roundtrip.

(** * Properties of the handlers of App.tsx *)

Section list_helpers.
Context {A : Type}.
Implicit Types (p : A -> bool) (l : list A).

Lemma findIndex_ext p q l :
  (forall x, p x = q x) -> findIndex p l = findIndex q l.
Proof.
  intros Hpq. induction l as [|x l IH]; simpl; [done|].
  by rewrite Hpq, IH.
Qed.

Lemma findIndex_None p l :
  findIndex p l = None -> List.filter p l = [].
Proof.
  induction l as [|x l IH]; simpl; [done|].
  destruct (p x); [done|].
  destruct (findIndex p l); [done|]. auto.
Qed.

Lemma findIndex_Some p l i :
  findIndex p l = Some i ->
  exists x, l !! i = Some x /\ p x = true
    /\ List.filter p (take i l) = [].
Proof.
  revert i. induction l as [|x l IH]; simpl; intros i; [done|].
  destruct (p x) eqn:Hx.
  - intros [= <-]. by exists x.
  - destruct (findIndex p l) as [j|]; [|done].
    intros [= <-]. destruct (IH j eq_refl) as (y & ? & ? & ?).
    exists y. simpl. by rewrite Hx.
Qed.

Lemma findIndex_is_Some p l x :
  x ∈ l -> p x = true -> is_Some (findIndex p l).
Proof.
  induction 1 as [x l|x y l _ IH]; simpl; intros Hx.
  - by rewrite Hx.
  - destruct (p y); [done|]. destruct (IH Hx) as [i ->]. done.
Qed.

(** Altering the first element that passes a test which the alteration
    preserves alters the first element of the filtered list. *)
Lemma filter_alter_findIndex p (f : A -> A) l i :
  (forall x, p (f x) = p x) ->
  findIndex p l = Some i ->
  List.filter p (alter f i l)
  = match List.filter p l with [] => [] | x :: r => f x :: r end.
Proof.
  intros Hf. revert i. induction l as [|x l IH]; simpl; intros i; [done|].
  destruct (p x) eqn:Hx.
  - intros [= <-]. simpl. by rewrite Hf, Hx.
  - destruct (findIndex p l) as [j|]; [|done].
    intros [= <-]. simpl. rewrite Hx. by apply IH.
Qed.
End list_helpers.

(** ** C1: one record per external reference *)

Lemma hasRef_assign_status ref m s :
  hasRef ref (assign m (Partial.of_status s)) = hasRef ref m.
Proof. by destruct ref. Qed.

Lemma hasRef_newMovie result s env :
  hasRef (SearchResult.id result) (newMovie result s env) = true.
Proof.
  unfold hasRef, newMovie. simpl.
  destruct (SearchResult.id result); by rewrite bool_decide_eq_true.
Qed.

(** For a reference the duplicate test can see, the test of [findIndex] is
    the test "carries this reference". *)
Lemma isDuplicate_hasRef result s env m :
  truthyRef (SearchResult.id result) ->
  isDuplicate (newMovie result s env) m = hasRef (SearchResult.id result) m.
Proof.
  unfold isDuplicate, hasRef, truthyRef, newMovie. simpl.
  destruct (SearchResult.id result) as [n|r]; intros Hne;
    destruct (Movie.tmdbId m) as [k|], (Movie.openLibraryId m) as [o|]; simpl;
    repeat case_bool_decide; simplify_eq; simpl;
    rewrite ?andb_true_r, ?andb_false_r, ?orb_false_r; try done.
  all: try (apply negb_true_iff, Z.eqb_neq, Hne).
  all: try (apply negb_true_iff, String.eqb_neq, Hne).
  all: try (rewrite orb_true_r; done).
  all: try (destruct (negb _); done).
Qed.

(** One call: whatever the collection held for the reference (at most one
    record), it holds exactly one afterwards, in the status of the call. *)
Lemma addFromSearch_step ref movies c :
  truthyRef ref ->
  SearchResult.id (call_result c) = ref ->
  (length (List.filter (hasRef ref) movies) <= 1)%nat ->
  exists m, List.filter (hasRef ref) (addFromSearch movies c) = [m]
            /\ Movie.status m = call_status c.
Proof.
  intros Href <- Hlen. unfold addFromSearch, addMovie.
  set (cand := newMovie _ _ _).
  assert (Hext : forall m, isDuplicate cand m = hasRef (SearchResult.id (call_result c)) m)
    by (intros; by apply isDuplicate_hasRef).
  rewrite (findIndex_ext _ _ _ Hext).
  set (ref := SearchResult.id (call_result c)) in *.
  destruct (findIndex (hasRef ref) movies) as [i|] eqn:Hfind; simpl.
  - rewrite (filter_alter_findIndex _ _ _ _ (fun x => hasRef_assign_status ref x _) Hfind).
    destruct (findIndex_Some _ _ _ Hfind) as (x & Hx & Hpx & _).
    destruct (List.filter (hasRef ref) movies) as [|y [|z r]] eqn:Hf.
    + exfalso. assert (Hin : In x (List.filter (hasRef ref) movies)).
      { apply filter_In. split; [|done]. apply list_elem_of_In.
        by eapply list_elem_of_lookup_2. }
      by rewrite Hf in Hin.
    + by eexists.
    + simpl in Hlen. lia.
  - rewrite (findIndex_None _ _ Hfind). subst ref cand.
    rewrite hasRef_newMovie. by eexists.
Qed.

(** C1, for the references that the duplicate test can see.  After a
    non-empty sequence of [handleAddMovie] calls
    whose search results all carry the same reference, a non-zero TMDB id or
    a non-empty Open Library id, on a collection that held at most one
    record with that reference, the collection holds exactly one record
    with the reference, and it has the status of the most recent call. *)
Theorem addFromSearch_unique (ref : SearchResult.id_t) (calls : list AddCall)
    (last_call : AddCall) (movies : list Movie.t) :
  truthyRef ref ->
  Forall (fun c => SearchResult.id (call_result c) = ref) (calls ++ [last_call]) ->
  (length (List.filter (hasRef ref) movies) <= 1)%nat ->
  exists m,
    List.filter (hasRef ref) (foldl addFromSearch movies (calls ++ [last_call])) = [m]
    /\ Movie.status m = call_status last_call.
Proof.
  intros Href Hcalls Hlen. rewrite foldl_app. simpl.
  apply Forall_app in Hcalls as [Hpre Hlast].
  apply Forall_cons in Hlast as [Hlast _].
  apply addFromSearch_step; [exact Href|exact Hlast|].
  revert movies Hlen.
  induction Hpre as [|c calls Hc _ IH]; intros movies Hlen; simpl; [done|].
  apply IH.
  destruct (addFromSearch_step ref movies c Href Hc Hlen) as (m & -> & _).
  done.
Qed.

(** C1 at three calls for The Matrix (TMDB id 603) on an empty
    collection. *)
Lemma addFromSearch_unique_witness :
  exists m,
    List.filter (hasRef (SearchResult.IdNum 603))
      (foldl addFromSearch []
         ([mkCall Sample.matrix watchlist Sample.env1;
           mkCall Sample.matrix dropped Sample.env2]
          ++ [mkCall Sample.matrix watched Sample.env3])) = [m]
    /\ Movie.status m = watched.
Proof.
  apply (addFromSearch_unique (SearchResult.IdNum 603)
           [mkCall Sample.matrix watchlist Sample.env1;
            mkCall Sample.matrix dropped Sample.env2]
           (mkCall Sample.matrix watched Sample.env3) []).
  - simpl. lia.
  - repeat constructor.
  - simpl. lia.
Defined.

(** C1 does not hold of the numeric id [0]: two calls with a search result
    of that id, on an empty collection, both create a record, and the
    collection holds two records with the reference. *)
Lemma addFromSearch_zero_id_twice :
  let ref := SearchResult.IdNum 0 in
  let calls := [mkCall Sample.zero watchlist Sample.env1;
                mkCall Sample.zero watched Sample.env2] in
  Forall (fun c => SearchResult.id (call_result c) = ref) calls
  /\ length (List.filter (hasRef ref) (foldl addFromSearch [] calls)) = 2%nat
  /\ ~ exists m, List.filter (hasRef ref) (foldl addFromSearch [] calls) = [m]
                 /\ Movie.status m = watched.
Proof.
  split; [repeat constructor|]. split; [reflexivity|].
  intros (m & Hm & _). apply (f_equal length) in Hm. discriminate Hm.
Qed.

(** ** C7: the next-up pick *)

Section sort_head.
Context {A : Type} (cmp : A -> A -> Z) (P : A -> Prop).
Hypothesis cmp_refl : forall x, P x -> cmp x x <= 0.
Hypothesis cmp_total : forall x y, P x -> P y -> 0 < cmp x y -> cmp y x <= 0.
Hypothesis cmp_trans :
  forall x y z, P x -> P y -> P z -> cmp x y <= 0 -> cmp y z <= 0 -> cmp x z <= 0.

Lemma sort_insert_head x l :
  head (sort_insert cmp x l)
  = match l with
    | [] => Some x
    | y :: _ => if cmp x y <=? 0 then Some x else Some y
    end.
Proof. destruct l as [|y l]; simpl; [done|]. by destruct (cmp x y <=? 0). Qed.

Lemma sort_head_None l : head (sort cmp l) = None -> l = [].
Proof.
  destruct l as [|x l]; simpl; [done|]. rewrite sort_insert_head.
  destruct (sort cmp l); [done|]. by destruct (cmp x a <=? 0).
Qed.

(** The first element of the sorted array is an element that compares
    lower than or equal to every element, when the comparison function
    is an order on the elements of the array. *)
Lemma sort_head_min l m :
  Forall P l ->
  head (sort cmp l) = Some m ->
  m ∈ l /\ forall x, x ∈ l -> cmp m x <= 0.
Proof.
  intros Hl. revert m. induction Hl as [|x l Hx Hl IH]; simpl; intros m; [done|].
  rewrite sort_insert_head.
  destruct (sort cmp l) as [|y s] eqn:Hs.
  - intros [= Hm]. subst m. apply (f_equal head) in Hs.
    apply sort_head_None in Hs. subst l.
    split; [by left|]. intros z Hz. apply list_elem_of_singleton in Hz.
    subst z. by apply cmp_refl.
  - destruct (IH y eq_refl) as [Hy Hmin].
    assert (HPy : P y) by (rewrite Forall_forall in Hl; by apply Hl).
    destruct (cmp x y <=? 0) eqn:Hxy; intros [= Hm]; subst m.
    + apply Z.leb_le in Hxy. split; [by left|].
      intros z Hz. apply elem_of_cons in Hz as [Hz|Hz]; [subst z; by apply cmp_refl|].
      apply (cmp_trans x y z); try done.
      * rewrite Forall_forall in Hl. by apply Hl.
      * by apply Hmin.
    + apply Z.leb_gt in Hxy. split; [by right|].
      intros z Hz. apply elem_of_cons in Hz as [Hz|Hz];
        [subst z; by apply cmp_total|].
      by apply Hmin.
Qed.
End sort_head.

Lemma string_compare_refl s : String.compare s s = Eq.
Proof.
  induction s as [|c s IH]; simpl; [done|].
  unfold Ascii.compare. by rewrite N.compare_refl.
Qed.

Lemma string_leb_trans s1 s2 s3 :
  String.leb s1 s2 = true -> String.leb s2 s3 = true -> String.leb s1 s3 = true.
Proof.
  unfold String.leb. revert s2 s3.
  induction s1 as [|c1 s1 IH]; intros [|c2 s2] [|c3 s3]; simpl; try done.
  unfold Ascii.compare.
  destruct (N.compare_spec (N_of_ascii c1) (N_of_ascii c2)) as [E12|L12|G12];
    destruct (N.compare_spec (N_of_ascii c2) (N_of_ascii c3)) as [E23|L23|G23];
    try done.
  - rewrite E12, E23, N.compare_refl. apply IH.
  - rewrite E12. intros _ _.
    by rewrite (proj2 (N.compare_lt_iff _ _) L23).
  - rewrite <- E23. intros _ _.
    by rewrite (proj2 (N.compare_lt_iff _ _) L12).
  - intros _ _.
    by rewrite (proj2 (N.compare_lt_iff _ _) (N.lt_trans _ _ _ L12 L23)).
Qed.

Lemma collation_le s1 s2 :
  Sample.collation s1 s2 <= 0 <-> String.leb s1 s2 = true.
Proof.
  unfold Sample.collation, String.leb.
  destruct (String.compare s1 s2); split; (done || lia).
Qed.

(** Dates written YYYY-MM-DD compare, as strings, by year, month and day:
    clause (a) of the order puts the earlier date first. *)
Lemma IsoDate_digit_spec c y :
  IsoDate.digit c = Some y -> Z.of_N (N_of_ascii c) = y + 48 /\ 0 <= y <= 9.
Proof.
  unfold IsoDate.digit. intros H.
  destruct (48 <=? Z.of_N (N_of_ascii c)) eqn:H1; [|done].
  destruct (Z.of_N (N_of_ascii c) <=? 57) eqn:H2; [|done].
  simpl in H. injection H as <-. lia.
Qed.

Lemma IsoDate_digit_compare c1 c2 y1 y2 :
  IsoDate.digit c1 = Some y1 -> IsoDate.digit c2 = Some y2 ->
  Ascii.compare c1 c2 = (y1 ?= y2).
Proof.
  intros [E1 _]%IsoDate_digit_spec [E2 _]%IsoDate_digit_spec.
  unfold Ascii.compare. rewrite <- N2Z.inj_compare, E1, E2.
  destruct (Z.compare_spec y1 y2), (Z.compare_spec (y1 + 48) (y2 + 48)); (done || lia).
Qed.

Lemma IsoDate_hyphen_spec c : IsoDate.hyphen c = Some tt -> c = "-"%char.
Proof.
  unfold IsoDate.hyphen. destruct (Ascii.eqb c "-") eqn:E; [|done].
  intros _. by apply Ascii.eqb_eq.
Qed.

Lemma IsoDate_order s1 s2 t1 t2 :
  IsoDate.parse s1 = Some t1 -> IsoDate.parse s2 = Some t2 ->
  String.leb s1 s2 = true <-> IsoDate.le t1 t2.
Proof.
  unfold IsoDate.parse.
  destruct s1 as [|a1 [|a2 [|a3 [|a4 [|a5 [|a6 [|a7 [|a8 [|a9 [|a10 [|? ?]]]]]]]]]]];
    simpl; try done.
  destruct s2 as [|b1 [|b2 [|b3 [|b4 [|b5 [|b6 [|b7 [|b8 [|b9 [|b10 [|? ?]]]]]]]]]]];
    simpl; try (intros; done).
  destruct (IsoDate.digit a1) as [x1|] eqn:Ha1; simpl; [|done].
  destruct (IsoDate.digit a2) as [x2|] eqn:Ha2; simpl; [|done].
  destruct (IsoDate.digit a3) as [x3|] eqn:Ha3; simpl; [|done].
  destruct (IsoDate.digit a4) as [x4|] eqn:Ha4; simpl; [|done].
  destruct (IsoDate.hyphen a5) as [[]|] eqn:Ha5; simpl; [|done].
  destruct (IsoDate.digit a6) as [x6|] eqn:Ha6; simpl; [|done].
  destruct (IsoDate.digit a7) as [x7|] eqn:Ha7; simpl; [|done].
  destruct (IsoDate.hyphen a8) as [[]|] eqn:Ha8; simpl; [|done].
  destruct (IsoDate.digit a9) as [x9|] eqn:Ha9; simpl; [|done].
  destruct (IsoDate.digit a10) as [x10|] eqn:Ha10; simpl; [|done].
  intros [= <-].
  destruct (IsoDate.digit b1) as [z1|] eqn:Hb1; simpl; [|done].
  destruct (IsoDate.digit b2) as [z2|] eqn:Hb2; simpl; [|done].
  destruct (IsoDate.digit b3) as [z3|] eqn:Hb3; simpl; [|done].
  destruct (IsoDate.digit b4) as [z4|] eqn:Hb4; simpl; [|done].
  destruct (IsoDate.hyphen b5) as [[]|] eqn:Hb5; simpl; [|done].
  destruct (IsoDate.digit b6) as [z6|] eqn:Hb6; simpl; [|done].
  destruct (IsoDate.digit b7) as [z7|] eqn:Hb7; simpl; [|done].
  destruct (IsoDate.hyphen b8) as [[]|] eqn:Hb8; simpl; [|done].
  destruct (IsoDate.digit b9) as [z9|] eqn:Hb9; simpl; [|done].
  destruct (IsoDate.digit b10) as [z10|] eqn:Hb10; simpl; [|done].
  intros [= <-].
  apply IsoDate_hyphen_spec in Ha5 as ->, Ha8 as ->, Hb5 as ->, Hb8 as ->.
  unfold String.leb. cbn [String.compare].
  rewrite (IsoDate_digit_compare _ _ _ _ Ha1 Hb1), (IsoDate_digit_compare _ _ _ _ Ha2 Hb2),
    (IsoDate_digit_compare _ _ _ _ Ha3 Hb3), (IsoDate_digit_compare _ _ _ _ Ha4 Hb4),
    (IsoDate_digit_compare _ _ _ _ Ha6 Hb6), (IsoDate_digit_compare _ _ _ _ Ha7 Hb7),
    (IsoDate_digit_compare _ _ _ _ Ha9 Hb9), (IsoDate_digit_compare _ _ _ _ Ha10 Hb10).
  change (Ascii.compare "-" "-") with Eq. cbv iota.
  apply IsoDate_digit_spec in Ha1 as [_ ?], Ha2 as [_ ?], Ha3 as [_ ?], Ha4 as [_ ?],
    Ha6 as [_ ?], Ha7 as [_ ?], Ha9 as [_ ?], Ha10 as [_ ?],
    Hb1 as [_ ?], Hb2 as [_ ?], Hb3 as [_ ?], Hb4 as [_ ?],
    Hb6 as [_ ?], Hb7 as [_ ?], Hb9 as [_ ?], Hb10 as [_ ?].
  unfold IsoDate.le.
  repeat match goal with
         | |- context [?a ?= ?b] => destruct (Z.compare_spec a b)
         end;
    (split; [intros ?; try done; lia | intros ?; try done; lia]).
Qed.

(** The order of the character codes is a collation that puts the earlier
    of two dates first. *)
Lemma collation_collatesDates : collatesDates Sample.collation.
Proof.
  intros s1 s2 t1 t2 H1 H2. rewrite collation_le. by apply IsoDate_order.
Qed.

Lemma IsoDate_le_refl t : IsoDate.le t t.
Proof. destruct t as [[y m] d]. unfold IsoDate.le. lia. Qed.

Lemma IsoDate_le_total t1 t2 : ~ IsoDate.le t1 t2 -> IsoDate.le t2 t1.
Proof. destruct t1 as [[y1 m1] d1], t2 as [[y2 m2] d2]. unfold IsoDate.le. lia. Qed.

Lemma IsoDate_le_trans t1 t2 t3 :
  IsoDate.le t1 t2 -> IsoDate.le t2 t3 -> IsoDate.le t1 t3.
Proof.
  destruct t1 as [[y1 m1] d1], t2 as [[y2 m2] d2], t3 as [[y3 m3] d3].
  unfold IsoDate.le. lia.
Qed.

Section next_up.
Context (localeCompare : Collation).
Hypothesis collates : collatesDates localeCompare.

(** The comparison function of [getTop] decides the order of the
    specification, on records whose planned dates are written
    YYYY-MM-DD. *)
Lemma upNextCompare_order a b :
  isoPlanned a -> isoPlanned b ->
  upNextCompare localeCompare a b <= 0 <-> nextUpOrder a b.
Proof.
  unfold upNextCompare, nextUpOrder, isoPlanned, planned, plannedDay.
  destruct (truthy_str (Movie.plannedDate a)), (truthy_str (Movie.plannedDate b)); simpl.
  - intros [ta Ha] [tb Hb]; [done..|]. rewrite Ha, Hb. by apply collates.
  - split; [done|lia].
  - split; [lia|done].
  - lia.
Qed.

Lemma nextUpOrder_refl a : isoPlanned a -> nextUpOrder a a.
Proof.
  unfold nextUpOrder, isoPlanned. destruct (planned a); [|lia].
  intros [t Ht]; [done|]. rewrite Ht. apply IsoDate_le_refl.
Qed.

Lemma nextUpOrder_total a b :
  isoPlanned a -> isoPlanned b -> ~ nextUpOrder a b -> nextUpOrder b a.
Proof.
  unfold nextUpOrder, isoPlanned. destruct (planned a), (planned b); try done; [|lia].
  intros [ta Ha] [tb Hb]; [done..|]. rewrite Ha, Hb. apply IsoDate_le_total.
Qed.

Lemma nextUpOrder_trans a b c :
  isoPlanned a -> isoPlanned b -> isoPlanned c ->
  nextUpOrder a b -> nextUpOrder b c -> nextUpOrder a c.
Proof.
  unfold nextUpOrder, isoPlanned.
  destruct (planned a), (planned b), (planned c); try done; [|lia].
  intros [ta Ha] [tb Hb] [tc Hc]; [done..|]. rewrite Ha, Hb, Hc.
  apply IsoDate_le_trans.
Qed.

Lemma getTop_candidates movies types :
  List.filter (fun m => bool_decide (Movie.mediaType m ∈ types))
    (List.filter (fun m => bool_decide (Movie.status m = watchlist)) movies)
  = candidates movies types.
Proof.
  unfold candidates. induction movies as [|m l IH]; simpl; [done|].
  destruct (bool_decide (Movie.status m = watchlist)); simpl; [|done].
  destruct (bool_decide (Movie.mediaType m ∈ types)); simpl; by rewrite IH.
Qed.

Lemma candidates_isoPlanned movies types :
  (forall m, m ∈ movies -> Movie.status m = watchlist -> isoPlanned m) ->
  Forall isoPlanned (candidates movies types).
Proof.
  intros Hiso. apply Forall_forall. intros m Hm.
  unfold candidates in Hm. apply list_elem_of_In, filter_In in Hm as [Hm Hp].
  apply andb_true_iff in Hp as [Hs _]. apply bool_decide_eq_true in Hs.
  apply Hiso; [by apply list_elem_of_In|done].
Qed.

Lemma getTop_isNextUp movies types :
  (forall m, m ∈ movies -> Movie.status m = watchlist -> isoPlanned m) ->
  isNextUp (candidates movies types)
    (getTop localeCompare
       (List.filter (fun m => bool_decide (Movie.status m = watchlist)) movies) types).
Proof.
  intros Hiso. unfold getTop. rewrite getTop_candidates.
  pose proof (candidates_isoPlanned movies types Hiso) as Hall.
  destruct (head (sort (upNextCompare localeCompare) (candidates movies types)))
    as [m|] eqn:Hhead; simpl.
  - apply (sort_head_min _ isoPlanned) in Hhead; [|..|exact Hall].
    + destruct Hhead as [Hin Hmin]. split; [done|].
      rewrite Forall_forall in Hall.
      intros x Hx. apply upNextCompare_order; auto.
    + intros x Hx. by apply upNextCompare_order, nextUpOrder_refl.
    + intros x y Hx Hy Hxy. apply upNextCompare_order; [done..|].
      apply nextUpOrder_total; [done..|].
      rewrite <- upNextCompare_order by done. lia.
    + intros x y z Hx Hy Hz. rewrite !upNextCompare_order by done.
      by apply nextUpOrder_trans.
  - by apply sort_head_None in Hhead.
Qed.
End next_up.



(** The example of the specification: of A (planned 2024-01-05), B (planned
    2024-01-01), C (added at 100) and D (added at 50) the pick is B; without
    B it is A; without A and B it is D. *)
Example upNext_example :
  (upNext Sample.collation [Sample.A; Sample.B; Sample.C; Sample.D] LIBRARY ≫= visual)
  = Some Sample.B
  /\ (upNext Sample.collation [Sample.A; Sample.C; Sample.D] WATCHLIST ≫= visual)
     = Some Sample.A
  /\ (upNext Sample.collation [Sample.C; Sample.D] LIBRARY ≫= visual) = Some Sample.D
  /\ (upNext Sample.collation [Sample.C; Sample.D] LIBRARY ≫= book_pick) = None.
Proof. repeat split. Qed.

(** * The handlers and the store *)

Lemma initDB_ready w :
  dbPromise w = Some true -> db.initDB w = (Return tt, w).
Proof. intros H. unfold db.initDB. rewrite H. simpl. by rewrite H. Qed.

Lemma saveMovie_ready w m :
  dbPromise w = Some true ->
  movieService.saveMovie m w
  = (Return tt,
     set_store (insert (KStr (Movie.id m)) (View.of_movie m))
       (record (EvPut (KStr (Movie.id m))) w)).
Proof.
  intros Hw. unfold movieService.saveMovie, db.saveMovie, db.put.
  unfold mbind, St_bind. rewrite (initDB_ready _ Hw).
  by rewrite key_of_movie.
Qed.

Lemma assign_of_status m s :
  assign m (Partial.of_status s) = withStatus m s.
Proof. done. Qed.

Lemma alter_lookup_insert {A} (f : A -> A) (l : list A) i x :
  l !! i = Some x -> alter f i l = <[i := f x]> l.
Proof.
  revert i. induction l as [|y l IH]; intros [|i]; simpl; try done.
  - by intros [= ->].
  - intros H. f_equal. by apply IH.
Qed.

(** ** The dedup branch changes the status, and only the status *)

Lemma addMovie_existing candidate targetStatus prev existingIndex existing :
  findIndex (isDuplicate candidate) prev = Some existingIndex ->
  prev !! existingIndex = Some existing ->
  addMovie candidate targetStatus prev
  = (<[existingIndex := withStatus existing targetStatus]> prev,
     Some (withStatus existing targetStatus)).
Proof.
  intros Hfind Hex. unfold addMovie. rewrite Hfind.
  rewrite (alter_lookup_insert _ _ _ _ Hex), assign_of_status.
  f_equal. apply list_lookup_insert_eq. by eapply lookup_lt_Some.
Qed.

(** X21.  When [handleAddMovie] finds a record with the reference of the
    candidate, the record that takes its place in the collection, and that
    the updater leaves in [movieToSave], is the existing record with the
    target status: its id, references, title, year, genres, description,
    director, rating, notes, poster path and seed, time of addition, media
    type, catalogue rating, page count, planned date, provider cache and
    seasons are those of the existing record; the collection keeps its
    length.  When the updater has run at the guard, the record is stored
    under the key of the existing record; when it is queued, nothing is
    asked of the store. *)
Theorem handleAddMovie_existing (result : SearchResult.t) (targetStatus : MovieStatus)
    (env : Fresh) (timing : Timing) (app : AppState) (existingIndex : nat)
    (existing : Movie.t) :
  findIndex (isDuplicate (newMovie result targetStatus env)) (movies app)
    = Some existingIndex ->
  movies app !! existingIndex = Some existing ->
  dbPromise (world app) = Some true ->
  let saved := withStatus existing targetStatus in
  exists app',
    handleAddMovie result targetStatus env timing app = (Return tt, app')
    /\ movies app' = <[existingIndex := saved]> (movies app)
    /\ length (movies app') = length (movies app)
    /\ match timing with
       | Eager =>
           store (world app')
           = <[KStr (Movie.id existing) := View.of_movie saved]> (store (world app))
       | Queued => world app' = world app
       end.
Proof.
  intros Hfind Hex Hdb saved.
  unfold handleAddMovie, mbind, St_bind, gets, modify.
  rewrite (addMovie_existing _ _ _ _ _ Hfind Hex). fold saved.
  destruct timing.
  - unfold service. simpl. rewrite (saveMovie_ready _ _ Hdb).
    eexists. split; [reflexivity|]. simpl.
    split; [done|]. split; [apply length_insert|done].
  - eexists. split; [reflexivity|]. simpl.
    split; [done|]. split; [apply length_insert|done].
Qed.

(** X21 at The Matrix, planned on the watchlist and added again as
    'watched', with an updater that has run before the guard. *)
Lemma handleAddMovie_existing_witness :
  let app := mkApp [Sample.planned_matrix] false false [] Sample.ready in
  exists app',
    handleAddMovie Sample.matrix watched Sample.env2 Eager app = (Return tt, app')
    /\ movies app' = [withStatus Sample.planned_matrix watched]
    /\ store (world app')
       = <[KStr "uuid-1" := View.of_movie (withStatus Sample.planned_matrix watched)]> ∅.
Proof.
  intros app.
  destruct (handleAddMovie_existing Sample.matrix watched Sample.env2 Eager app 0
              Sample.planned_matrix eq_refl eq_refl eq_refl)
    as (app' & Hrun & Hmovies & _ & Hstore).
  exists app'. split; [exact Hrun|]. split; [exact Hmovies|exact Hstore].
Defined.

(** ** C3: the record found is not always persisted *)

(** C3, at The Matrix, which the collection and the store hold on the
    watchlist, added again from the search results as 'watched' while React
    queues the updater of [setMovies]: [movieToSave] is not set when the
    guard [if (movieToSave)] is evaluated, so nothing is written.  The
    record of the collection has the status 'watched'; the record of the
    store keeps the status 'watchlist', and the store is not asked
    anything. *)
Lemma handleAddMovie_queued_not_persisted :
  let w := set_store (insert (KStr "uuid-1") (View.of_movie Sample.planned_matrix))
             Sample.ready in
  let app := mkApp [Sample.planned_matrix] false false [] w in
  exists app',
    handleAddMovie Sample.matrix watched Sample.env2 Queued app = (Return tt, app')
    /\ movies app' = [withStatus Sample.planned_matrix watched]
    /\ store (world app') !! KStr "uuid-1" = Some (View.of_movie Sample.planned_matrix)
    /\ store (world app') !! KStr "uuid-1"
       <> Some (View.of_movie (withStatus Sample.planned_matrix watched))
    /\ events (world app') = events w.
Proof.
  intros w app.
  exists (snd (handleAddMovie Sample.matrix watched Sample.env2 Queued app)).
  split; [reflexivity|]. split; [reflexivity|].
  assert (Hstore : store w !! KStr "uuid-1" = Some (View.of_movie Sample.planned_matrix))
    by apply lookup_insert_eq.
  split; [exact Hstore|]. split; [|reflexivity].
  change (store (world (handleAddMovie Sample.matrix watched Sample.env2 Queued app).2))
    with (store w).
  rewrite Hstore. by intros [=].
Qed.

(** ** C2: the planned date when the status leaves the watchlist *)

(** C2, at a record of the watchlist that has a planned date and is added
    again from the search results as 'watched': the dedup branch of
    [handleAddMovie] gives it the status 'watched' and leaves its planned
    date in place, in the collection whenever the updater runs, and in the
    store when it has run at the guard.  (The quick toggle and the details
    form clear the date on that transition.) *)
Lemma handleAddMovie_keeps_plannedDate :
  let app := mkApp [Sample.planned_matrix] false false [] Sample.ready in
  forall timing,
  exists app' m,
    handleAddMovie Sample.matrix watched Sample.env2 timing app = (Return tt, app')
    /\ movies app' = [m]
    /\ (timing = Eager -> store (world app') !! KStr "uuid-1" = Some (View.of_movie m))
    /\ Movie.status m = watched
    /\ Movie.plannedDate m = Some "2024-06-01".
Proof.
  intros app timing.
  exists (snd (handleAddMovie Sample.matrix watched Sample.env2 timing app)),
         (withStatus Sample.planned_matrix watched).
  destruct timing.
  - split; [reflexivity|]. split; [reflexivity|].
    split; [intros _; apply lookup_insert_eq|]. split; reflexivity.
  - split; [reflexivity|]. split; [reflexivity|].
    split; [discriminate|]. split; reflexivity.
Qed.

(** ** C4: the references of a manual entry *)

Lemma newMovie_not_both result s env : ~ holdsBoth (newMovie result s env).
Proof.
  unfold holdsBoth, newMovie. simpl.
  destruct (SearchResult.id result); intros [[? ?] [? ?]]; done.
Qed.

Lemma addMovie_not_both candidate s prev :
  ~ holdsBoth candidate ->
  Forall (fun m => ~ holdsBoth m) prev ->
  Forall (fun m => ~ holdsBoth m) (addMovie candidate s prev).1.
Proof.
  intros Hc Hprev. unfold addMovie.
  destruct (findIndex (isDuplicate candidate) prev) as [i|]; simpl.
  - rewrite Forall_lookup in Hprev. apply Forall_lookup. intros j x.
    rewrite list_lookup_alter.
    destruct (decide (i = j)) as [->|]; [|apply Hprev].
    destruct (prev !! j) as [y|] eqn:Hy; simpl; [|done].
    intros [= <-]. apply (Hprev _ _ Hy).
  - by constructor.
Qed.

(** The record that the manual-entry path makes of a form carries the time
    of the submission ([Date.now()]) as its TMDB id, and no Open Library
    id, whatever the form holds. *)
Lemma manual_entry_reference (f : ManualEntryModal.formData) (submitted : Z)
    (env : Fresh) :
  let created := newMovie (ManualEntryModal.handleSubmit f submitted) watched env in
  Movie.tmdbId created = Some submitted
  /\ Movie.openLibraryId created = None
  /\ ~ noRef created.
Proof. intros created. split; [done|]. split; [done|]. by intros [? _]. Qed.

(** C4, at a manual entry submitted at 1700000000000 on an empty library:
    the record that is created holds a TMDB id, the time of the
    submission, whenever the updater runs. *)
Lemma manual_entry_has_tmdbId :
  forall timing,
  exists app' m,
    handleManualAdd Sample.form 1700000000000 Sample.env2 timing (mount Sample.ready)
      = (Return tt, app')
    /\ movies app' = [m]
    /\ Movie.tmdbId m = Some 1700000000000
    /\ Movie.openLibraryId m = None
    /\ ~ noRef m.
Proof.
  intros timing.
  exists (snd (handleManualAdd Sample.form 1700000000000 Sample.env2 timing
                 (mount Sample.ready))),
         (newMovie (ManualEntryModal.handleSubmit Sample.form 1700000000000) watched
            Sample.env2).
  destruct timing.
  all: split; [reflexivity|]; split; [reflexivity|].
  all: split; [reflexivity|]; split; [reflexivity|]; by intros [? _].
Qed.

(** ** C10: the quick status toggle *)

Lemma updateDetails_fst id updates prev acc :
  (updateDetails id updates prev acc).1
  = map (fun m => if bool_decide (Movie.id m = id) then assign m updates else m) prev.
Proof.
  revert acc. induction prev as [|m l IH]; intros acc; simpl; [done|].
  case_bool_decide.
  - specialize (IH (Some (assign m updates))).
    destruct (updateDetails id updates l (Some (assign m updates))). simpl in *.
    by rewrite IH.
  - specialize (IH acc). destruct (updateDetails id updates l acc). simpl in *.
    by rewrite IH.
Qed.

Lemma updateDetails_snd_absent id updates prev acc :
  id ∉ Movie.id <$> prev -> (updateDetails id updates prev acc).2 = acc.
Proof.
  revert acc. induction prev as [|m l IH]; intros acc; simpl; [done|].
  intros Hid. apply not_elem_of_cons in Hid as [Hne Hid].
  rewrite bool_decide_eq_false_2 by done.
  specialize (IH acc Hid). by destruct (updateDetails id updates l acc).
Qed.

Lemma updateDetails_snd_unique updates prev acc i m :
  NoDup (Movie.id <$> prev) -> prev !! i = Some m ->
  (updateDetails (Movie.id m) updates prev acc).2 = Some (assign m updates).
Proof.
  revert acc i. induction prev as [|x l IH]; intros acc [|i]; simpl; try done.
  - intros Hnd [= ->]. apply NoDup_cons in Hnd as [Hx _].
    rewrite bool_decide_eq_true_2 by done.
    pose proof (updateDetails_snd_absent (Movie.id m) updates l
                  (Some (assign m updates)) Hx) as Hsnd.
    by destruct (updateDetails (Movie.id m) updates l (Some (assign m updates))).
  - intros Hnd Hi. apply NoDup_cons in Hnd as [Hx Hnd].
    assert (Movie.id x <> Movie.id m).
    { intros Heq. apply Hx. rewrite Heq. apply list_elem_of_fmap.
      exists m. split; [done|]. by eapply list_elem_of_lookup_2. }
    rewrite bool_decide_eq_false_2 by done.
    specialize (IH acc i Hnd Hi).
    by destruct (updateDetails (Movie.id m) updates l acc).
Qed.

Lemma map_update_unique (f : Movie.t -> Movie.t) prev i m :
  NoDup (Movie.id <$> prev) -> prev !! i = Some m ->
  map (fun x => if bool_decide (Movie.id x = Movie.id m) then f x else x) prev
  = <[i := f m]> prev.
Proof.
  revert i. induction prev as [|x l IH]; intros [|i]; simpl; try done.
  - intros Hnd [= ->]. apply NoDup_cons in Hnd as [Hx _].
    rewrite bool_decide_eq_true_2 by done. f_equal.
    clear IH. induction l as [|y l IH]; simpl; [done|].
    apply not_elem_of_cons in Hx as [Hne Hx].
    rewrite bool_decide_eq_false_2 by done. f_equal. by apply IH.
  - intros Hnd Hi. apply NoDup_cons in Hnd as [Hx Hnd].
    assert (Movie.id x <> Movie.id m).
    { intros Heq. apply Hx. rewrite Heq. apply list_elem_of_fmap.
      exists m. split; [done|]. by eapply list_elem_of_lookup_2. }
    rewrite bool_decide_eq_false_2 by done. f_equal. by apply IH.
Qed.

Lemma assign_quickUpdates m :
  assign m (quickUpdates m)
  = withStatusAndPlan m
      (match Movie.status m with
       | watchlist => watched
       | watched | dropped => watchlist
       end)
      (match Movie.status m with
       | watchlist => None
       | watched | dropped => Movie.plannedDate m
       end).
Proof. unfold quickUpdates, quickStatus. by destruct (Movie.status m). Qed.

(** C10.  The quick status toggle of a record of the collection (whose ids
    are distinct) makes a 'watchlist' record 'watched' and clears its
    planned date, and makes a 'watched' or 'dropped' record 'watchlist' and
    keeps its planned date; no other property of the record and no other
    record changes, whenever React runs the updater.  The toggled record
    is what is stored when the updater has run at the guard; nothing is
    stored when it is queued. *)
Theorem handleQuickStatusUpdate_toggle (m : Movie.t) (timing : Timing) (app : AppState)
    (i : nat) :
  movies app !! i = Some m ->
  NoDup (Movie.id <$> movies app) ->
  dbPromise (world app) = Some true ->
  let toggled :=
    withStatusAndPlan m
      (match Movie.status m with
       | watchlist => watched
       | watched | dropped => watchlist
       end)
      (match Movie.status m with
       | watchlist => None
       | watched | dropped => Movie.plannedDate m
       end) in
  updateDetails (Movie.id m) (quickUpdates m) (movies app) None
  = (<[i := toggled]> (movies app), Some toggled)
  /\ exists app',
       handleQuickStatusUpdate m timing app = (Return tt, app')
       /\ movies app' = <[i := toggled]> (movies app)
       /\ match timing with
          | Eager =>
              store (world app')
              = <[KStr (Movie.id m) := View.of_movie toggled]> (store (world app))
          | Queued => world app' = world app
          end.
Proof.
  intros Hi Hnd Hdb toggled.
  pose proof (updateDetails_fst (Movie.id m) (quickUpdates m) (movies app) None) as Hfst.
  pose proof (updateDetails_snd_unique (quickUpdates m) (movies app) None i m Hnd Hi) as Hsnd.
  assert (Hupd : updateDetails (Movie.id m) (quickUpdates m) (movies app) None
                 = (<[i := toggled]> (movies app), Some toggled)).
  { apply injective_projections; cbn [fst snd].
    - rewrite Hfst, (map_update_unique _ _ _ _ Hnd Hi). by rewrite assign_quickUpdates.
    - rewrite Hsnd. by rewrite assign_quickUpdates. }
  split; [exact Hupd|].
  unfold handleQuickStatusUpdate, updateMovieDetails, mbind, St_bind, gets, modify.
  rewrite Hupd. destruct timing.
  - unfold service. simpl. rewrite (saveMovie_ready _ _ Hdb).
    eexists. split; [reflexivity|]. by split.
  - eexists. split; [reflexivity|]. by split.
Qed.

(** C10 at The Matrix, planned on the watchlist. *)
Lemma handleQuickStatusUpdate_toggle_witness :
  let app := mkApp [Sample.planned_matrix] false false [] Sample.ready in
  exists app',
    handleQuickStatusUpdate Sample.planned_matrix Queued app = (Return tt, app')
    /\ movies app'
       = [withStatusAndPlan Sample.planned_matrix watched None]
    /\ world app' = Sample.ready.
Proof.
  intros app.
  destruct (handleQuickStatusUpdate_toggle Sample.planned_matrix Queued app 0 eq_refl)
    as (_ & app' & Hrun & Hmovies & Hworld).
  - apply (bool_decide_unpack _). vm_compute. exact I.
  - reflexivity.
  - exists app'. split; [exact Hrun|]. split; [exact Hmovies|exact Hworld].
Defined.

(** * Initialisation and the legacy migration *)

(** ** C8: a failure of the initialisation of the store *)

Lemma initDB_Throw w e w1 :
  db.initDB w = (Throw e, w1) ->
  e = StorageUnavailable
  /\ store w1 = store w /\ localStorage w1 = localStorage w
  /\ console w1 = console w
  /\ dbPromise w1 = Some false
  /\ events w1 = events w ++ (if dbPromise w is None then [EvOpenDB] else []).
Proof.
  unfold db.initDB.
  destruct (dbPromise w) as [[|]|] eqn:Hp; simpl; rewrite ?Hp; try done.
  - intros [= <- <-]. rewrite app_nil_r. done.
  - destruct (indexedDB_available w); [done|].
    intros [= <- <-]. done.
Qed.

(** C8.  When the store cannot be initialised ([initDB] is rejected),
    [initStorage] is rejected with the same error, and nothing else is
    asked of the storage: no request for persistence, no read of the legacy
    key, no write.  The effect [init] of the App receives the error, reports
    it on the console, and does not load the library. *)
Theorem initStorage_failure (w w1 : World) (e : Error) :
  db.initDB w = (Throw e, w1) ->
  movieService.initStorage w = (Throw e, w1)
  /\ events w1 = events w ++ (if dbPromise w is None then [EvOpenDB] else [])
  /\ store w1 = store w
  /\ localStorage w1 = localStorage w
  /\ exists app',
       init (mount w) = (Return tt, app')
       /\ movies app' = []
       /\ isLoading app' = false
       /\ console (world app') = console w ++ [(LogError, "Failed to load library")]
       /\ events (world app') = events w1
       /\ store (world app') = store w
       /\ localStorage (world app') = localStorage w.
Proof.
  intros Hinit.
  destruct (initDB_Throw _ _ _ Hinit) as (-> & Hstore & Hls & Hcon & _ & Hev).
  assert (Hst : movieService.initStorage w = (Throw StorageUnavailable, w1)).
  { unfold movieService.initStorage, mbind, St_bind. by rewrite Hinit. }
  split; [done|]. split; [done|]. split; [done|]. split; [done|].
  unfold init, try_finally, try_catch, mbind, St_bind, service, mount. simpl.
  rewrite Hst. simpl. eexists. split; [reflexivity|]. simpl.
  rewrite Hcon, Hstore, Hls. done.
Qed.

(** C8 at a browser in which the database cannot be opened. *)
Lemma initStorage_failure_witness :
  movieService.initStorage Sample.broken_browser
  = (Throw StorageUnavailable,
     set_dbPromise (Some false) (record EvOpenDB Sample.broken_browser))
  /\ exists app',
       init (mount Sample.broken_browser) = (Return tt, app')
       /\ movies app' = [] /\ isLoading app' = false
       /\ events (world app') = [EvOpenDB].
Proof.
  destruct (initStorage_failure Sample.broken_browser
              (set_dbPromise (Some false) (record EvOpenDB Sample.broken_browser))
              StorageUnavailable eq_refl)
    as (H1 & _ & _ & _ & app' & Hrun & Hm & Hl & _ & Hev & _).
  split; [exact H1|]. exists app'. split; [exact Hrun|].
  split; [exact Hm|]. split; [exact Hl|exact Hev].
Defined.

(** ** Properties of objects *)

Lemma get_prop_app k l1 l2 :
  JSON.get_prop k (l1 ++ l2)
  = match JSON.get_prop k l2 with
    | Some w => Some w
    | None => JSON.get_prop k l1
    end.
Proof.
  induction l1 as [|[k' v] l1 IH]; simpl.
  - by destruct (JSON.get_prop k l2).
  - rewrite IH. by destruct (JSON.get_prop k l2).
Qed.

Lemma get_prop_has_prop k l :
  JSON.has_prop k l = false -> JSON.get_prop k l = None.
Proof.
  unfold JSON.has_prop. induction l as [|[k' v] l IH]; simpl; [done|].
  intros [Hk Hl]%orb_false_iff. by rewrite (IH Hl), Hk.
Qed.

Lemma get_prop_replace k v l :
  JSON.get_prop k (map (fun p => if String.eqb k p.1 then (p.1, v) else p) l)
  = if JSON.has_prop k l then Some v else None.
Proof.
  unfold JSON.has_prop. induction l as [|[k' v'] l IH]; simpl; [done|].
  rewrite IH. destruct (String.eqb k k') eqn:Hk; simpl; rewrite Hk.
  - by destruct (existsb _ l).
  - by destruct (existsb _ l).
Qed.

Lemma get_prop_set_prop_eq k v l :
  JSON.get_prop k (JSON.set_prop k v l) = Some v.
Proof.
  unfold JSON.set_prop. destruct (JSON.has_prop k l) eqn:Hhas.
  - by rewrite get_prop_replace, Hhas.
  - rewrite get_prop_app. simpl. by rewrite String.eqb_refl.
Qed.

Lemma get_prop_set_prop_ne k k' v l :
  k <> k' -> JSON.get_prop k (JSON.set_prop k' v l) = JSON.get_prop k l.
Proof.
  intros Hne. unfold JSON.set_prop. destruct (JSON.has_prop k' l).
  - induction l as [|[k2 v2] l IH]; simpl; [done|].
    rewrite IH. destruct (String.eqb_spec k' k2) as [->|]; simpl; [|done].
    by rewrite (proj2 (String.eqb_neq k k2) Hne).
  - rewrite get_prop_app. simpl.
    by rewrite (proj2 (String.eqb_neq k k') Hne).
Qed.

(** The object that the migration stores for a legacy object: its media
    type is the one of the legacy object when that has one (a truthy one),
    and ['movie'] otherwise; its other properties are those of the legacy
    object. *)
Lemma normalized_object_props props :
  let item := JObj props in
  JSON.get "mediaType" (db.normalized_object item) = Some (db.mediaType_or_movie item)
  /\ (JSON.truthy (JSON.get "mediaType" item) = false ->
      db.mediaType_or_movie item = JStr "movie")
  /\ (forall t, JSON.get "mediaType" item = Some t -> JSON.truthy (Some t) = true ->
      db.mediaType_or_movie item = t)
  /\ (forall name, name <> "mediaType" ->
      JSON.get name (db.normalized_object item) = JSON.get name item).
Proof.
  intros item. unfold db.normalized_object, db.mediaType_or_movie.
  cbn [JSON.get db.spread item].
  split; [apply get_prop_set_prop_eq|]. split.
  - destruct (JSON.get_prop "mediaType" props) as [t|]; [|done].
    by intros ->.
  - split.
    + intros t -> Ht. by rewrite Ht.
    + intros name Hne. by apply get_prop_set_prop_ne.
Qed.

Lemma key_of_is_object item k :
  db.key_of item = Some k -> exists props, item = JObj props.
Proof. destruct item; try done. by eexists. Qed.

Lemma key_of_normalized_object item k :
  db.key_of item = Some k -> db.key_of (db.normalized_object item) = Some k.
Proof.
  intros Hk. destruct (key_of_is_object _ _ Hk) as [props ->].
  unfold db.key_of in *. unfold db.normalized_object. simpl in *.
  by rewrite get_prop_set_prop_ne.
Qed.

(** ** The steps of the initialisation *)

Lemma initDB_available w :
  db.available w ->
  exists w1, db.initDB w = (Return tt, w1)
    /\ dbPromise w1 = Some true
    /\ store w1 = store w /\ localStorage w1 = localStorage w
    /\ console w1 = console w
    /\ persist_answers w1 = persist_answers w
    /\ indexedDB_available w1 = indexedDB_available w.
Proof.
  unfold db.available, db.initDB.
  destruct (dbPromise w) as [ok|] eqn:Hp; simpl.
  - intros ->. rewrite Hp. eexists. split; [reflexivity|]. done.
  - intros Ha. rewrite Ha. simpl. eexists. split; [reflexivity|].
    simpl. by rewrite ?Ha.
Qed.

Lemma persistStorage_answers w :
  persist_answers w = true ->
  db.persistStorage w = (Return tt, record EvPersist w).
Proof. unfold db.persistStorage. by intros ->. Qed.

(** The loop of the migration over legacy objects that carry a key. *)
Lemma migration_loop items w :
  Forall (fun item => is_Some (db.key_of item)) items ->
  exists w1,
    for_of items (fun item => db.normalized item ≫= db.put) w = (Return tt, w1)
    /\ store w1
       = foldl (fun s item =>
                  match db.key_of item with
                  | Some k => <[k := db.normalized_object item]> s
                  | None => s
                  end) (store w) items
    /\ localStorage w1 = localStorage w
    /\ console w1 = console w
    /\ dbPromise w1 = dbPromise w
    /\ persist_answers w1 = persist_answers w
    /\ indexedDB_available w1 = indexedDB_available w.
Proof.
  intros Hitems. revert w.
  induction Hitems as [|item items [k Hk] _ IH]; intros w; simpl.
  - by eexists.
  - destruct (key_of_is_object _ _ Hk) as [props ->].
    unfold mbind at 1, St_bind at 1. unfold mbind at 1, St_bind at 1. simpl.
    unfold db.put. rewrite (key_of_normalized_object _ _ Hk). simpl.
    edestruct IH as (w1 & -> & Hs & Hl & Hc & Hd & Hp & Ha).
    eexists. split; [reflexivity|]. rewrite Hs, Hl, Hc, Hd, Hp, Ha, Hk. done.
Qed.

Lemma foldl_insert_lookup (items : list json) (s : gmap Key json) :
  NoDup (omap db.key_of items) ->
  let s' := foldl (fun s item =>
                     match db.key_of item with
                     | Some k => <[k := db.normalized_object item]> s
                     | None => s
                     end) s items in
  (forall item k, item ∈ items -> db.key_of item = Some k ->
     s' !! k = Some (db.normalized_object item))
  /\ (forall k, k ∉ omap db.key_of items -> s' !! k = s !! k).
Proof.
  revert s. induction items as [|x items IH]; intros s Hnd.
  - split; [|done]. intros item k Hin. by apply elem_of_nil in Hin.
  - cbn [foldl omap list_omap] in *.
    destruct (db.key_of x) as [kx|] eqn:Hkx.
    + apply NoDup_cons in Hnd as [Hkx_notin Hnd].
      destruct (IH (<[kx := db.normalized_object x]> s) Hnd) as [Hin Hout].
      split.
      * intros item k Hitem Hk. apply elem_of_cons in Hitem as [->|Hitem].
        -- rewrite Hkx in Hk. injection Hk as <-.
           rewrite (Hout _ Hkx_notin). apply lookup_insert_eq.
        -- by apply Hin.
      * intros k Hk. apply not_elem_of_cons in Hk as [Hne Hk].
        rewrite (Hout _ Hk). by apply lookup_insert_ne.
    + destruct (IH s Hnd) as [Hin Hout]. split; [|done].
      intros item k Hitem Hk. apply elem_of_cons in Hitem as [->|Hitem].
      * congruence.
      * by apply Hin.
Qed.

Lemma parse_empty : JSON.parse "" = None.
Proof. reflexivity. Qed.

(** ** C6: a legacy payload that is not an array *)

(** C6.  When the legacy payload cannot be parsed, or is parsed to
    something else than an array, the migration returns without an error,
    and after the initialisation the legacy key holds the payload and the
    store holds what it held; the initialisation succeeds when the database
    can be opened and the request for persistence is answered. *)
Theorem migration_keeps_malformed_legacy (w : World) (payload : string) :
  localStorage w !! db.LOCAL_STORAGE_KEY = Some payload ->
  (JSON.parse payload = None
   \/ exists v, JSON.parse payload = Some v /\ JSON.isArray v = false) ->
  (exists w', db.migrateFromLocalStorage w = (Return tt, w')
     /\ localStorage w' = localStorage w
     /\ store w' = store w)
  /\ (exists r w', movieService.initStorage w = (r, w')
     /\ localStorage w' !! db.LOCAL_STORAGE_KEY = Some payload
     /\ localStorage w' = localStorage w
     /\ store w' = store w
     /\ (db.available w -> persist_answers w = true -> r = Return tt)).
Proof.
  intros Hls Hbad.
  assert (Hmig : forall w0, localStorage w0 = localStorage w ->
            exists w', db.migrateFromLocalStorage w0 = (Return tt, w')
              /\ localStorage w' = localStorage w0 /\ store w' = store w0).
  { intros w0 Hw0.
    unfold db.migrateFromLocalStorage, mbind, St_bind, gets, modify. simpl.
    rewrite Hw0, Hls.
    destruct (String.eqb payload ""); [by eexists|].
    unfold try_catch.
    destruct Hbad as [->|(v & -> & Hv)].
    - simpl. by eexists.
    - destruct v; try done; simpl; by eexists. }
  split; [by apply Hmig|].
  unfold movieService.initStorage, mbind, St_bind.
  destruct (db.initDB w) as [[[]|e] w1] eqn:Hinit.
  - assert (Hfr : store w1 = store w /\ localStorage w1 = localStorage w
                  /\ persist_answers w1 = persist_answers w).
    { revert Hinit. unfold db.initDB.
      destruct (dbPromise w) as [[|]|] eqn:Hp; simpl; rewrite ?Hp; try done.
      - by intros [= <-].
      - destruct (indexedDB_available w); [|done]. by intros [= <-]. }
    destruct Hfr as (Hs1 & Hl1 & Hp1).
    unfold db.persistStorage. rewrite Hp1.
    destruct (persist_answers w) eqn:Hpa.
    + destruct (Hmig (record EvPersist w1)) as (w' & -> & Hl & Hs); [done|].
      exists (Return tt), w'. simpl in Hl, Hs.
      rewrite Hl, Hs, Hl1, Hs1. done.
    + eexists _, _. split; [reflexivity|]. simpl. rewrite Hl1, Hs1. done.
  - destruct (initDB_Throw _ _ _ Hinit) as (-> & Hs1 & Hl1 & _).
    eexists _, _. split; [reflexivity|]. rewrite Hl1, Hs1.
    split; [done|]. split; [done|]. split; [done|].
    intros Hav _. destruct (initDB_available _ Hav) as (w2 & Hok & _).
    congruence.
Qed.

(** C6 at a payload that is not JSON. *)
Lemma migration_keeps_malformed_legacy_witness :
  let w := set_localStorage (insert db.LOCAL_STORAGE_KEY "[{not json") Sample.browser in
  exists r w', movieService.initStorage w = (r, w')
    /\ localStorage w' !! db.LOCAL_STORAGE_KEY = Some "[{not json"
    /\ store w' = ∅
    /\ r = Return tt.
Proof.
  intros w.
  destruct (migration_keeps_malformed_legacy w "[{not json")
    as (_ & r & w' & Hrun & Hkey & _ & Hstore & Hr).
  - reflexivity.
  - left. reflexivity.
  - exists r, w'. split; [exact Hrun|]. split; [exact Hkey|].
    split; [exact Hstore|]. apply Hr; reflexivity.
Defined.

(** ** C5: the migration of a legacy array *)




(** A legacy object without an ['id'] cannot be stored: [put] throws, the
    [catch] of the migration reports it, and the legacy key is kept. *)
Example migration_keyless_item :
  let payload := JSON.stringify (JArr [JObj [("title", JStr "Alien")]]) in
  let w := set_localStorage (insert db.LOCAL_STORAGE_KEY payload) Sample.browser in
  exists w',
    movieService.initStorage w = (Return tt, w')
    /\ localStorage w' !! db.LOCAL_STORAGE_KEY = Some payload
    /\ store w' = ∅
    /\ console w' = [(LogError, "Migration failed")].
Proof. eexists. split; [vm_compute; reflexivity|]. by vm_compute. Qed.

(** * Export and import *)

(** The loop of [bulkSaveMovies] over the objects of records. *)
Lemma bulk_put (l : list Movie.t) w :
  exists w',
    for_of (View.of_movie <$> l) db.put w = (Return tt, w')
    /\ store w'
       = foldl (fun s m => <[KStr (Movie.id m) := View.of_movie m]> s) (store w) l
    /\ localStorage w' = localStorage w
    /\ dbPromise w' = dbPromise w.
Proof.
  revert w. induction l as [|m l IH]; intros w.
  - by eexists.
  - cbn [fmap list_fmap for_of]. unfold mbind, St_bind. unfold db.put at 1.
    rewrite key_of_movie. unfold modify.
    edestruct IH as (w' & -> & Hs & Hl & Hd).
    eexists. split; [reflexivity|]. rewrite Hs, Hl, Hd. done.
Qed.

Lemma foldl_insert_movies (l : list Movie.t) :
  NoDup (Movie.id <$> l) ->
  foldl (fun s m => <[KStr (Movie.id m) := View.of_movie m]> s) (∅ : gmap Key json) l
  = list_to_map ((fun m => (KStr (Movie.id m), View.of_movie m)) <$> l).
Proof.
  induction l as [|m l IH] using rev_ind; [done|].
  rewrite fmap_app. intros [Hnd [Hm _]]%NoDup_app.
  rewrite foldl_app, fmap_app. cbn [foldl fmap list_fmap].
  rewrite (IH Hnd), list_to_map_snoc; [done|].
  rewrite <- list_fmap_compose. intros Hin.
  apply list_elem_of_fmap in Hin as (x & Hx & Hin). simpl in Hx.
  injection Hx as Hx. apply (Hm (Movie.id x)).
  - apply list_elem_of_fmap. by exists x.
  - rewrite <- Hx. by left.
Qed.

(** C9.  The snapshot that the export writes for a collection with distinct
    ids is an array, and importing it with overwrite, into any state of
    the App whose database is open, makes the collection of the App the
    exported one (the same records with the same properties), and the
    store hold exactly the exported records under their ids: reading the
    library back gives the exported records, in some order. *)
Theorem export_import_roundtrip (original : list Movie.t) (app : AppState) :
  NoDup (Movie.id <$> original) ->
  dbPromise (world app) = Some true ->
  let snapshot := movieService.exportData original in
  movieService.importData snapshot = Return (View.of_movie <$> original)
  /\ exists app',
       handleFileChange snapshot true app = (Return tt, app')
       /\ movies app' = original
       /\ store (world app')
          = list_to_map ((fun m => (KStr (Movie.id m), View.of_movie m)) <$> original)
       /\ exists loaded w',
            movieService.getLibrary (world app') = (Return loaded, w')
            /\ loaded ≡ₚ View.of_movie <$> original
            /\ omap View.as_movie loaded ≡ₚ original.
Proof.
  intros Hnd Hdb snapshot.
  assert (Himport : movieService.importData snapshot = Return (View.of_movie <$> original)).
  { unfold movieService.importData, snapshot, movieService.exportData.
    by rewrite parse_stringify. }
  split; [exact Himport|].
  unfold handleFileChange, try_catch. rewrite Himport.
  unfold mbind, St_bind, modify, service. cbn [world set_movies movies].
  unfold movieService.overwriteLibrary, db.bulkSaveMovies, mbind, St_bind.
  rewrite (initDB_ready _ Hdb). unfold db.clear, modify.
  destruct (bulk_put original (set_store (fun _ => ∅) (record EvClear (world app))))
    as (w1 & -> & Hs1 & Hl1 & Hd1).
  cbn [store set_store] in Hs1. rewrite (foldl_insert_movies _ Hnd) in Hs1.
  eexists. split; [reflexivity|]. cbn [movies set_isSettingsOpen set_world world].
  split; [apply omap_as_movie_of_movies|]. split; [exact Hs1|].
  unfold movieService.getLibrary, db.getAllMovies, mbind, St_bind.
  rewrite (initDB_ready w1) by (rewrite Hd1; exact Hdb).
  unfold modify, gets. eexists _, _. split; [reflexivity|].
  cbn [store record].
  assert (Hperm : (map_to_list (store w1)).*2 ≡ₚ View.of_movie <$> original).
  { rewrite Hs1, map_to_list_to_map.
    - rewrite <- list_fmap_compose. done.
    - rewrite <- list_fmap_compose.
      assert (Hinj : Inj eq eq KStr) by (by intros ?? [= ->]).
      apply (NoDup_fmap_2 KStr) in Hnd.
      by rewrite <- list_fmap_compose in Hnd. }
  split; [exact Hperm|].
  rewrite Hperm. by rewrite omap_as_movie_of_movies.
Qed.

(** C9 at a library of a planned film and a book. *)
Lemma export_import_roundtrip_witness :
  movieService.importData (movieService.exportData Sample.library)
  = Return (View.of_movie <$> Sample.library)
  /\ exists app',
       handleFileChange (movieService.exportData Sample.library) true
         (mount Sample.ready) = (Return tt, app')
       /\ movies app' = Sample.library.
Proof.
  destruct (export_import_roundtrip Sample.library (mount Sample.ready))
    as (Himport & app' & Hrun & Hmovies & _).
  - apply (bool_decide_unpack _). vm_compute. exact I.
  - reflexivity.
  - split; [exact Himport|]. exists app'. split; [exact Hrun|exact Hmovies].
Defined.

(** * Further properties of the store *)

(** ** [initDB]: the database is opened once *)

(** X1.  [initDB] opens the database at the first call only: a second call
    gives the outcome of the first (a rejection as well) and asks nothing
    of the browser; the call returns when the database can be opened, and
    never touches the store. *)
Theorem initDB_opens_once (w : World) :
  let r := (db.initDB w).1 in
  let w1 := (db.initDB w).2 in
  db.initDB w1 = (r, w1)
  /\ is_Some (dbPromise w1)
  /\ events w1 = events w ++ (if dbPromise w is None then [EvOpenDB] else [])
  /\ store w1 = store w
  /\ (r = Return tt <-> db.available w).
Proof.
  unfold db.initDB, db.available.
  destruct (dbPromise w) as [[|]|] eqn:Hp; simpl; rewrite ?Hp; simpl.
  all: rewrite ?Hp, ?app_nil_r.
  all: try destruct (indexedDB_available w); simpl.
  all: split_and!; eauto; by split.
Qed.

(** ** [saveMovie], [getAllMovies] *)

(** X2.  When the database can be opened, a record that [saveMovie] has
    stored is read back by [getAllMovies], which returns it with the
    objects that the store held under the other keys; the record takes the
    place of what the store held under its id. *)
Theorem saveMovie_then_getAllMovies (m : Movie.t) (w : World) :
  db.available w ->
  exists w1 loaded w2,
    db.saveMovie m w = (Return tt, w1)
    /\ store w1 = <[KStr (Movie.id m) := View.of_movie m]> (store w)
    /\ db.getAllMovies w1 = (Return loaded, w2)
    /\ loaded ≡ₚ View.of_movie m :: (map_to_list (delete (KStr (Movie.id m)) (store w))).*2
    /\ m ∈ omap View.as_movie loaded
    /\ store w2 = store w1.
Proof.
  intros Hav. destruct (initDB_available _ Hav) as (w0 & Hinit & Hd0 & Hs0 & _).
  unfold db.saveMovie, db.getAllMovies, mbind, St_bind. rewrite Hinit.
  unfold db.put. rewrite key_of_movie. unfold modify.
  eexists _, _, _. split; [reflexivity|]. cbn [store set_store record].
  rewrite Hs0. split; [done|].
  rewrite initDB_ready by done. unfold gets. split; [reflexivity|].
  cbn [store set_store record]. rewrite Hs0.
  assert (Hperm : (map_to_list (<[KStr (Movie.id m) := View.of_movie m]> (store w))).*2
            ≡ₚ View.of_movie m
                 :: (map_to_list (delete (KStr (Movie.id m)) (store w))).*2).
  { rewrite <- insert_delete_eq.
    rewrite map_to_list_insert by apply lookup_delete_eq. done. }
  split; [exact Hperm|]. split; [|done].
  apply list_elem_of_omap. exists (View.of_movie m).
  split; [|apply as_movie_of_movie]. rewrite Hperm. by left.
Qed.

(** X2 at The Matrix and an empty database that has not been opened. *)
Lemma saveMovie_then_getAllMovies_witness :
  exists w1 loaded w2,
    db.saveMovie Sample.planned_matrix Sample.browser = (Return tt, w1)
    /\ db.getAllMovies w1 = (Return loaded, w2)
    /\ Sample.planned_matrix ∈ omap View.as_movie loaded.
Proof.
  destruct (saveMovie_then_getAllMovies Sample.planned_matrix Sample.browser)
    as (w1 & loaded & w2 & Hsave & _ & Hget & _ & Hin & _).
  - reflexivity.
  - exists w1, loaded, w2. split; [exact Hsave|]. split; [exact Hget|exact Hin].
Defined.

(** ** [bulkSaveMovies] *)

Lemma for_of_app {S A} (l1 l2 : list A) (body : A -> St S unit) s :
  for_of (l1 ++ l2) body s
  = match for_of l1 body s with
    | (Return _, s1) => for_of l2 body s1
    | (Throw e, s1) => (Throw e, s1)
    end.
Proof.
  revert s. induction l1 as [|x l1 IH]; intros s; simpl; [done|].
  unfold mbind, St_bind. destruct (body x s) as [[[]|e] s']; [apply IH|done].
Qed.

Lemma lastWithKey_cons k x items :
  lastWithKey k (x :: items)
  = match lastWithKey k items with
    | Some v => Some v
    | None => if bool_decide (db.key_of x = Some k) then Some x else None
    end.
Proof.
  unfold lastWithKey. simpl. case_bool_decide; [|by destruct (last _)].
  rewrite last_cons. by destruct (last _).
Qed.

Lemma lastWithKey_None k items :
  k ∉ omap db.key_of items -> lastWithKey k items = None.
Proof.
  intros Hk. unfold lastWithKey.
  destruct (last _) as [v|] eqn:Hlast; [|done].
  exfalso. apply Hk. apply last_Some in Hlast as [l' Hl'].
  assert (Hin : v ∈ List.filter (fun x => bool_decide (db.key_of x = Some k)) items).
  { rewrite Hl'. apply elem_of_app. right. by left. }
  apply list_elem_of_In, filter_In in Hin as [Hin Hkey].
  apply bool_decide_eq_true in Hkey.
  apply list_elem_of_omap. exists v. split; [by apply list_elem_of_In|done].
Qed.

(** The loop of [bulkSaveMovies] over objects that carry a key. *)
Lemma put_loop (items : list json) w :
  Forall (fun x => is_Some (db.key_of x)) items ->
  exists w1,
    for_of items db.put w = (Return tt, w1)
    /\ (forall k, store w1 !! k
                  = match lastWithKey k items with
                    | Some v => Some v
                    | None => store w !! k
                    end)
    /\ localStorage w1 = localStorage w
    /\ dbPromise w1 = dbPromise w
    /\ console w1 = console w.
Proof.
  intros Hitems. revert w.
  induction Hitems as [|x items [kx Hkx] _ IH]; intros w.
  - by eexists.
  - cbn [for_of]. unfold mbind, St_bind. unfold db.put at 1. rewrite Hkx.
    unfold modify.
    edestruct IH as (w1 & -> & Hs & Hl & Hd & Hc).
    eexists. split; [reflexivity|]. rewrite Hl, Hd, Hc. split; [|done].
    intros k. rewrite Hs, lastWithKey_cons.
    destruct (lastWithKey k items); [done|]. cbn [store set_store record].
    rewrite Hkx. case_bool_decide as Hk.
    + injection Hk as ->. apply lookup_insert_eq.
    + apply lookup_insert_ne. congruence.
Qed.

Lemma keyless_key_of value : keyless value = true -> db.key_of value = None.
Proof.
  unfold keyless, db.key_of. by destruct (JSON.get "id" value) as [[]|].
Qed.

(** X3.  When the database can be opened, [bulkSaveMovies] of objects that
    carry a key replaces the content of the store: afterwards the store
    holds, under each key, the last of the objects with that key, and
    nothing under a key that no object carries, whatever it held before.
    The legacy storage is not touched. *)
Theorem bulkSaveMovies_replaces (items : list json) (w : World) :
  db.available w ->
  Forall (fun x => is_Some (db.key_of x)) items ->
  exists w1,
    db.bulkSaveMovies items w = (Return tt, w1)
    /\ (forall k, store w1 !! k = lastWithKey k items)
    /\ (forall k, k ∉ omap db.key_of items -> store w1 !! k = None)
    /\ localStorage w1 = localStorage w.
Proof.
  intros Hav Hitems.
  destruct (initDB_available _ Hav) as (w0 & Hinit & _ & _ & Hl0 & _).
  unfold db.bulkSaveMovies, mbind, St_bind. rewrite Hinit.
  unfold db.clear, modify.
  destruct (put_loop items (set_store (fun _ => ∅) (record EvClear w0)) Hitems)
    as (w1 & -> & Hs & Hl & _).
  exists w1. split; [done|].
  assert (Hstore : forall k, store w1 !! k = lastWithKey k items).
  { intros k. rewrite Hs. destruct (lastWithKey k items); [done|].
    apply lookup_empty. }
  split; [exact Hstore|]. split; [|by rewrite Hl].
  intros k Hk. rewrite Hstore. by apply lastWithKey_None.
Qed.

(** X3 at two versions of an object and another object, over a store
    that holds a film. *)
Lemma bulkSaveMovies_replaces_witness :
  let w := set_store (insert (KStr "uuid-1") (View.of_movie Sample.planned_matrix))
             Sample.browser in
  let items := [Sample.legacy_alien; Sample.legacy_dune;
                JObj [("id", JStr "m1"); ("title", JStr "Aliens")]] in
  exists w1,
    db.bulkSaveMovies items w = (Return tt, w1)
    /\ store w1 !! KStr "m1" = Some (JObj [("id", JStr "m1"); ("title", JStr "Aliens")])
    /\ store w1 !! KStr "b1" = Some Sample.legacy_dune
    /\ store w1 !! KStr "uuid-1" = None.
Proof.
  intros w items.
  destruct (bulkSaveMovies_replaces items w) as (w1 & Hrun & Hin & Hout & _).
  - reflexivity.
  - repeat constructor; by eexists.
  - exists w1. split; [exact Hrun|].
    split; [exact (Hin (KStr "m1"))|]. split; [exact (Hin (KStr "b1"))|].
    apply Hout. apply (bool_decide_unpack _). vm_compute. exact I.
Defined.

(** ** [migrateFromLocalStorage] *)

Lemma index_name_not_id i : db.index_name i <> "id".
Proof.
  unfold db.index_name.
  assert (Hnil : Nat.to_uint i <> Nil).
  { rewrite <- (DecimalNat.Unsigned.of_to i) at 1.
    rewrite DecimalNat.Unsigned.to_of. apply unorm_nonnil. }
  by destruct (Nat.to_uint i).
Qed.

Lemma get_prop_imap_no_id {A} (f : A -> json) (l : list A) n :
  JSON.get_prop "id" (imap (fun i x => (db.index_name (n + i), f x)) l) = None.
Proof.
  revert n. induction l as [|x l IH]; intros n; [done|].
  cbn [imap JSON.get_prop].
  rewrite (imap_ext _ (fun i x => (db.index_name (S n + i), f x))).
  2: { intros i y _. simpl. do 2 f_equal. lia. }
  rewrite IH.
  destruct (String.eqb_spec "id" (db.index_name (n + 0))) as [Heq|]; [|done].
  symmetry in Heq. by apply index_name_not_id in Heq.
Qed.

(** The object that the migration makes of a value without a key has no
    key either. *)
Lemma key_of_normalized_keyless item :
  keyless item = true -> db.key_of (db.normalized_object item) = None.
Proof.
  intros Hk.
  assert (Hid : JSON.get_prop "id" (db.spread item) = JSON.get "id" item).
  { destruct item as [| | | s|l|props]; try done.
    - apply (get_prop_imap_no_id (fun c => JStr (String c EmptyString)) _ 0).
    - apply (get_prop_imap_no_id id _ 0). }
  apply keyless_key_of. unfold keyless, db.normalized_object in *.
  cbn [JSON.get]. by rewrite get_prop_set_prop_ne, Hid.
Qed.

(** The loop of the migration over legacy objects that carry a key. *)
Lemma migration_loop_last items w :
  Forall (fun item => is_Some (db.key_of item)) items ->
  exists w1,
    for_of items (fun item => db.normalized item ≫= db.put) w = (Return tt, w1)
    /\ (forall k, store w1 !! k
                  = match lastWithKey k items with
                    | Some v => Some (db.normalized_object v)
                    | None => store w !! k
                    end)
    /\ localStorage w1 = localStorage w
    /\ console w1 = console w.
Proof.
  intros Hitems. revert w.
  induction Hitems as [|item items [kx Hkx] _ IH]; intros w.
  - by eexists.
  - destruct (key_of_is_object _ _ Hkx) as [props ->].
    cbn [for_of]. unfold mbind at 1, St_bind at 1. unfold mbind at 1, St_bind at 1.
    cbn [db.normalized]. unfold mret at 1, St_ret at 1. unfold db.put at 1.
    rewrite (key_of_normalized_object _ _ Hkx). unfold modify.
    edestruct IH as (w1 & -> & Hs & Hl & Hc).
    eexists. split; [reflexivity|]. rewrite Hl, Hc. split; [|done].
    intros k. rewrite Hs, lastWithKey_cons.
    destruct (lastWithKey k items); [done|]. cbn [store set_store record].
    rewrite Hkx. case_bool_decide as Hk.
    + injection Hk as ->. apply lookup_insert_eq.
    + apply lookup_insert_ne. congruence.
Qed.

(** X4.  The migration has nothing to do when the legacy key is absent,
    or holds the empty string or a text that is read as the empty array:
    it returns at once, the database is not opened for it, and the store,
    the legacy storage (an empty array is not cleaned up) and the console
    are left as they are. *)
Theorem migration_nothing_to_do (w : World) :
  (localStorage w !! db.LOCAL_STORAGE_KEY = None
   \/ exists payload, localStorage w !! db.LOCAL_STORAGE_KEY = Some payload
        /\ (payload = "" \/ JSON.parse payload = Some (JArr []))) ->
  db.migrateFromLocalStorage w
  = (Return tt, record (EvGetItem db.LOCAL_STORAGE_KEY) w).
Proof.
  unfold db.migrateFromLocalStorage, mbind, St_bind, gets, modify.
  intros [->|(payload & -> & [->|Hparse])]; [done|done|].
  destruct (String.eqb payload ""); [done|].
  unfold try_catch. by rewrite Hparse.
Qed.

(** X4 at a legacy key that holds an empty array. *)
Lemma migration_nothing_to_do_witness :
  let w := set_localStorage (insert db.LOCAL_STORAGE_KEY "[]") Sample.browser in
  db.migrateFromLocalStorage w = (Return tt, record (EvGetItem db.LOCAL_STORAGE_KEY) w)
  /\ localStorage w !! db.LOCAL_STORAGE_KEY = Some "[]".
Proof.
  intros w. split; [|reflexivity].
  apply (migration_nothing_to_do w). right. exists "[]". split; [reflexivity|].
  right. reflexivity.
Defined.

(** X5.  A legacy array with an item that cannot be stored (a value
    without a key, [null] among them) is migrated up to that item: the migration
    returns without an error and reports the failure on the console, the
    objects before the faulty item are in the store (under each key the
    last of them, with its media type), and the legacy key keeps its
    payload, so nothing of the legacy data is lost. *)
Theorem migration_stops_at_faulty_item (w : World) (payload : string)
    (pre post : list json) (bad : json) :
  localStorage w !! db.LOCAL_STORAGE_KEY = Some payload ->
  JSON.parse payload = Some (JArr (pre ++ bad :: post)) ->
  Forall (fun item => is_Some (db.key_of item)) pre ->
  keyless bad = true ->
  db.available w ->
  exists w1,
    db.migrateFromLocalStorage w = (Return tt, w1)
    /\ localStorage w1 = localStorage w
    /\ console w1 = console w ++ [(LogError, "Migration failed")]
    /\ forall k, store w1 !! k
                 = match lastWithKey k pre with
                   | Some v => Some (db.normalized_object v)
                   | None => store w !! k
                   end.
Proof.
  intros Hls Hparse Hpre Hbad Hav.
  assert (Hpayload : String.eqb payload "" = false).
  { apply String.eqb_neq. intros ->. by rewrite parse_empty in Hparse. }
  set (wg := record (EvGetItem db.LOCAL_STORAGE_KEY) w).
  destruct (initDB_available wg Hav) as (w0 & Hinit & _ & Hs0 & Hl0 & Hc0 & _).
  destruct (migration_loop_last pre w0 Hpre) as (wl & Hloop & Hsl & Hll & Hcl).
  unfold db.migrateFromLocalStorage, mbind at 1, St_bind at 1, gets.
  unfold mbind at 1, St_bind at 1, modify at 1.
  rewrite Hls, Hpayload. unfold try_catch. rewrite Hparse.
  assert (Hlen : (0 <? length (pre ++ bad :: post))%nat = true).
  { apply Nat.ltb_lt. rewrite length_app. simpl. lia. }
  rewrite Hlen. unfold mbind at 1, St_bind at 1. fold wg. rewrite Hinit.
  unfold mbind at 1, St_bind at 1. rewrite for_of_app, Hloop.
  cbn [for_of]. unfold mbind at 1, St_bind at 1.
  assert (Hthrow : exists e, (db.normalized bad ≫= db.put) wl = (Throw e, wl)).
  { assert (bad = JNull \/ bad <> JNull) as [->|Hnull]
      by (destruct bad; auto); [by eexists|].
    exists DataError. unfold mbind, St_bind.
    assert (Hn : db.normalized bad wl = (Return (db.normalized_object bad), wl)).
    { by destruct bad. }
    rewrite Hn. unfold db.put. by rewrite (key_of_normalized_keyless _ Hbad). }
  destruct Hthrow as [e ->]. unfold modify.
  eexists. split; [reflexivity|]. cbn [localStorage console store log].
  rewrite Hll, Hl0, Hcl, Hc0. split; [done|]. split; [done|].
  intros k. rewrite Hsl, Hs0. done.
Qed.

(** X5 at a legacy array whose second item has no ['id']. *)
Lemma migration_stops_at_faulty_item_witness :
  let payload := JSON.stringify (JArr [Sample.legacy_alien; JObj [("title", JStr "Dune")];
                                       Sample.legacy_dune]) in
  let w := set_localStorage (insert db.LOCAL_STORAGE_KEY payload) Sample.browser in
  exists w1,
    db.migrateFromLocalStorage w = (Return tt, w1)
    /\ localStorage w1 !! db.LOCAL_STORAGE_KEY = Some payload
    /\ store w1 !! KStr "m1" = Some (db.normalized_object Sample.legacy_alien)
    /\ store w1 !! KStr "b1" = None.
Proof.
  intros payload w.
  destruct (migration_stops_at_faulty_item w payload [Sample.legacy_alien]
              [Sample.legacy_dune] (JObj [("title", JStr "Dune")]))
    as (w1 & Hrun & Hls & _ & Hstore).
  - reflexivity.
  - vm_compute. reflexivity.
  - repeat constructor; by eexists.
  - reflexivity.
  - reflexivity.
  - exists w1. split; [exact Hrun|]. split; [by rewrite Hls|].
    split; [exact (Hstore (KStr "m1"))|exact (Hstore (KStr "b1"))].
Defined.

(** * Further properties of the handlers *)

(** ** The collection and the store *)

Lemma entry_fst l : (entry <$> l).*1 = KStr <$> (Movie.id <$> l).
Proof. rewrite <- !list_fmap_compose. done. Qed.

Lemma KStr_inj : Inj eq eq KStr.
Proof. by intros ?? [= ->]. Qed.

Lemma entry_lookup_None l id :
  id ∉ Movie.id <$> l ->
  (list_to_map (entry <$> l) : gmap Key json) !! KStr id = None.
Proof.
  intros Hid. apply not_elem_of_list_to_map_1. rewrite entry_fst.
  intros Hin. apply Hid. apply list_elem_of_fmap in Hin as (y & [= ->] & Hy). done.
Qed.

Lemma list_to_map_entry_insert l i m m' :
  NoDup (Movie.id <$> l) -> l !! i = Some m -> Movie.id m' = Movie.id m ->
  (list_to_map (entry <$> <[i := m']> l) : gmap Key json)
  = <[KStr (Movie.id m) := View.of_movie m']> (list_to_map (entry <$> l)).
Proof.
  revert i. induction l as [|x l IH]; intros [|i] Hnd Hi Hid; try done.
  - injection Hi as ->.
    change (list_to_map (entry <$> <[0%nat:=m']> (m :: l)) : gmap Key json)
      with (<[KStr (Movie.id m') := View.of_movie m']>
              (list_to_map (entry <$> l) : gmap Key json)).
    change (list_to_map (entry <$> m :: l) : gmap Key json)
      with (<[KStr (Movie.id m) := View.of_movie m]>
              (list_to_map (entry <$> l) : gmap Key json)).
    by rewrite Hid, insert_insert_eq.
  - cbn [fmap list_fmap] in Hnd. apply NoDup_cons in Hnd as [Hx Hnd].
    simpl in Hi.
    change (list_to_map (entry <$> <[S i:=m']> (x :: l)) : gmap Key json)
      with (<[KStr (Movie.id x) := View.of_movie x]>
              (list_to_map (entry <$> <[i:=m']> l) : gmap Key json)).
    rewrite (IH i Hnd Hi Hid).
    change (list_to_map (entry <$> x :: l) : gmap Key json)
      with (<[KStr (Movie.id x) := View.of_movie x]>
              (list_to_map (entry <$> l) : gmap Key json)).
    apply insert_insert_ne. intros [= Heq]. apply Hx. rewrite Heq.
    apply list_elem_of_fmap. exists m. split; [done|].
    by eapply list_elem_of_lookup_2.
Qed.

Lemma ids_insert (l : list Movie.t) i m m' :
  l !! i = Some m -> Movie.id m' = Movie.id m ->
  Movie.id <$> <[i := m']> l = Movie.id <$> l.
Proof.
  intros Hi Hid. rewrite list_fmap_insert, Hid. apply list_insert_id.
  by rewrite list_lookup_fmap, Hi.
Qed.

Lemma list_to_map_entry_filter id l :
  (list_to_map (entry <$> List.filter (fun m => negb (bool_decide (Movie.id m = id))) l)
     : gmap Key json)
  = delete (KStr id) (list_to_map (entry <$> l)).
Proof.
  induction l as [|x l IH]; [symmetry; apply delete_empty|].
  cbn [List.filter fmap list_fmap].
  change (list_to_map (entry x :: (entry <$> l)) : gmap Key json)
    with (<[KStr (Movie.id x) := View.of_movie x]>
            (list_to_map (entry <$> l) : gmap Key json)).
  case_bool_decide as Hx; cbn [negb].
  - rewrite IH, Hx. by rewrite delete_insert_eq.
  - cbn [fmap list_fmap].
    change (list_to_map (entry x :: (entry <$> List.filter
              (fun m => negb (bool_decide (Movie.id m = id))) l)) : gmap Key json)
      with (<[KStr (Movie.id x) := View.of_movie x]>
              (list_to_map (entry <$> List.filter
                 (fun m => negb (bool_decide (Movie.id m = id))) l) : gmap Key json)).
    rewrite IH. rewrite delete_insert_ne; [done|]. intros [= Heq]. by apply Hx.
Qed.

Lemma elem_of_List_filter {A} (p : A -> bool) (l : list A) x :
  x ∈ List.filter p l <-> x ∈ l /\ p x = true.
Proof. rewrite !list_elem_of_In. apply filter_In. Qed.

Lemma NoDup_ids_filter (p : Movie.t -> bool) l :
  NoDup (Movie.id <$> l) -> NoDup (Movie.id <$> List.filter p l).
Proof.
  induction l as [|x l IH]; [done|]. cbn [List.filter fmap list_fmap].
  intros [Hx Hnd]%NoDup_cons. destruct (p x); [|by apply IH].
  cbn [fmap list_fmap]. apply NoDup_cons. split; [|by apply IH].
  intros Hin. apply Hx. apply list_elem_of_fmap in Hin as (y & -> & Hy).
  apply list_elem_of_fmap. exists y. split; [done|].
  by apply elem_of_List_filter in Hy as [Hy _].
Qed.

Lemma filter_absent id (l : list Movie.t) :
  id ∉ Movie.id <$> l ->
  List.filter (fun m => negb (bool_decide (Movie.id m = id))) l = l.
Proof.
  induction l as [|x l IH]; [done|]. cbn [List.filter fmap list_fmap].
  intros [Hne Hid]%not_elem_of_cons.
  rewrite bool_decide_eq_false_2 by done. cbn [negb]. by rewrite IH.
Qed.

(** ** The updaters *)

Lemma updateDetails_absent id updates prev acc :
  id ∉ Movie.id <$> prev -> updateDetails id updates prev acc = (prev, acc).
Proof.
  intros Hid. apply injective_projections.
  - rewrite updateDetails_fst. cbn [fst]. clear acc.
    induction prev as [|x l IH]; [done|]. cbn [map fmap list_fmap] in *.
    apply not_elem_of_cons in Hid as [Hne Hid].
    rewrite bool_decide_eq_false_2 by done. by rewrite IH.
  - by apply updateDetails_snd_absent.
Qed.

Lemma updateDetails_unique updates prev i m :
  NoDup (Movie.id <$> prev) -> prev !! i = Some m ->
  updateDetails (Movie.id m) updates prev None
  = (<[i := assign m updates]> prev, Some (assign m updates)).
Proof.
  intros Hnd Hi. apply injective_projections; cbn [fst snd].
  - rewrite updateDetails_fst. by apply map_update_unique.
  - by eapply updateDetails_snd_unique.
Qed.

Lemma findIndex_Forall {A} (p : A -> bool) (l : list A) :
  Forall (fun x => p x = false) l -> findIndex p l = None.
Proof.
  induction 1 as [|x l Hx _ IH]; [done|]. simpl. by rewrite Hx, IH.
Qed.

(** The updater of [handleAddMovie] always leaves a record to save. *)
Lemma addMovie_saves candidate s prev :
  exists m, (addMovie candidate s prev).2 = Some m
            /\ m ∈ (addMovie candidate s prev).1
            /\ (Movie.id m = Movie.id candidate \/ Movie.id m ∈ Movie.id <$> prev).
Proof.
  unfold addMovie. destruct (findIndex _ prev) as [i|] eqn:Hfind; cbn [fst snd].
  - destruct (findIndex_Some _ _ _ Hfind) as (x & Hx & _).
    rewrite (alter_lookup_insert _ _ _ _ Hx).
    assert (Hi : (i < length prev)%nat) by (by eapply lookup_lt_Some).
    exists (assign x (Partial.of_status s)).
    split; [by apply list_lookup_insert_eq|].
    split; [eapply list_elem_of_lookup_2; by apply list_lookup_insert_eq|].
    right. apply list_elem_of_fmap. exists x. split; [done|].
    by eapply list_elem_of_lookup_2.
  - exists candidate. split; [done|]. split; [by left|by left].
Qed.

Lemma set_movies_same app : set_movies (fun _ => movies app) app = app.
Proof. by destruct app. Qed.

(** ** The handlers, with an open database *)

Lemma service_saveMovie m app :
  dbPromise (world app) = Some true ->
  service (movieService.saveMovie m) app
  = (Return tt,
     set_world (set_store (insert (KStr (Movie.id m)) (View.of_movie m))
                  (record (EvPut (KStr (Movie.id m))) (world app))) app).
Proof. intros Hdb. unfold service. by rewrite (saveMovie_ready _ _ Hdb). Qed.

Lemma service_deleteMovie id app :
  dbPromise (world app) = Some true ->
  service (movieService.deleteMovie id) app
  = (Return tt,
     set_world (set_store (delete (KStr id)) (record (EvDelete (KStr id)) (world app))) app).
Proof.
  intros Hdb. unfold service, movieService.deleteMovie, db.deleteMovie, mbind, St_bind.
  by rewrite (initDB_ready _ Hdb).
Qed.

(** A call of the service when the database cannot be opened. *)
Lemma initDB_unavailable w :
  ~ db.available w ->
  exists w1, db.initDB w = (Throw StorageUnavailable, w1)
    /\ store w1 = store w /\ localStorage w1 = localStorage w.
Proof.
  unfold db.available, db.initDB. intros Hav.
  destruct (dbPromise w) as [[|]|] eqn:Hp; [done| |].
  - rewrite Hp. by eexists.
  - destruct (indexedDB_available w); [done|]. by eexists.
Qed.

(** X6.  With an open database, and when React runs the updaters of
    [setMovies] during the call, the handlers keep the store and the
    collection in step.  When the ids of the collection are distinct and
    the store holds exactly the records of the collection, each under its
    id, this is so again after [handleAddMovie] (with a fresh id from
    [crypto.randomUUID]), after [updateMovieDetails] (with updates that
    leave the id alone), after [handleQuickStatusUpdate] and after
    [deleteMovie]; each of them returns normally. *)
Theorem handlers_keep_store_in_sync (app : AppState) :
  inSync app ->
  dbPromise (world app) = Some true ->
  (forall result targetStatus env,
     randomUUID env ∉ Movie.id <$> movies app ->
     exists app', handleAddMovie result targetStatus env Eager app = (Return tt, app')
       /\ inSync app' /\ dbPromise (world app') = Some true)
  /\ (forall id updates,
     Partial.id updates = None ->
     exists app', updateMovieDetails id updates Eager app = (Return tt, app')
       /\ inSync app' /\ dbPromise (world app') = Some true)
  /\ (forall m,
     exists app', handleQuickStatusUpdate m Eager app = (Return tt, app')
       /\ inSync app' /\ dbPromise (world app') = Some true)
  /\ (forall id,
     exists app', deleteMovie id app = (Return tt, app')
       /\ inSync app' /\ dbPromise (world app') = Some true).
Proof.
  intros [Hnd Hstore] Hdb.
  assert (Hupdate : forall id updates, Partial.id updates = None ->
            exists app', updateMovieDetails id updates Eager app = (Return tt, app')
              /\ inSync app' /\ dbPromise (world app') = Some true).
  { intros id updates Hid.
    unfold updateMovieDetails, mbind, St_bind, gets, modify.
    destruct (decide (id ∈ Movie.id <$> movies app)) as [Hin|Hout].
    - apply list_elem_of_fmap in Hin as (m & -> & Hm).
      apply list_elem_of_lookup_1 in Hm as [i Hi].
      rewrite (updateDetails_unique _ _ _ _ Hnd Hi).
      rewrite service_saveMovie by done.
      assert (Hsame : Movie.id (assign m updates) = Movie.id m).
      { unfold assign. cbn [Movie.id]. by rewrite Hid. }
      eexists. split; [reflexivity|]. split; [|done]. split.
      + cbn [movies set_world set_movies]. by rewrite (ids_insert _ _ _ _ Hi Hsame).
      + cbn [movies set_world set_movies world store set_store record].
        rewrite (list_to_map_entry_insert _ _ _ _ Hnd Hi Hsame), Hsame.
        by rewrite Hstore.
    - rewrite (updateDetails_absent _ _ _ _ Hout). rewrite set_movies_same.
      by eexists. }
  split; [|split; [exact Hupdate|split]].
  - intros result targetStatus env Hfresh.
    unfold handleAddMovie, mbind, St_bind, gets, modify, addMovie.
    set (candidate := newMovie result targetStatus env).
    destruct (findIndex (isDuplicate candidate) (movies app)) as [i|] eqn:Hfind.
    + destruct (findIndex_Some _ _ _ Hfind) as (x & Hx & _).
      rewrite (alter_lookup_insert _ _ _ _ Hx).
      rewrite list_lookup_insert_eq by (by eapply lookup_lt_Some).
      rewrite service_saveMovie by done.
      eexists. split; [reflexivity|]. split; [|done]. split.
      * cbn [movies set_world set_movies].
        by rewrite (ids_insert _ i x (assign x (Partial.of_status targetStatus)) Hx eq_refl).
      * cbn [movies set_world set_movies world store set_store record].
        rewrite (list_to_map_entry_insert _ i x (assign x (Partial.of_status targetStatus))
                   Hnd Hx eq_refl).
        by rewrite Hstore.
    + rewrite service_saveMovie by done.
      eexists. split; [reflexivity|]. split; [|done]. split.
      * cbn [movies set_world set_movies fmap list_fmap]. by apply NoDup_cons.
      * cbn [movies set_world set_movies world store set_store record].
        by rewrite Hstore.
  - intros m. unfold handleQuickStatusUpdate. apply Hupdate.
    unfold quickUpdates. by case_bool_decide.
  - intros id. unfold deleteMovie, mbind, St_bind, modify.
    rewrite service_deleteMovie by done.
    eexists. split; [reflexivity|]. split; [|done]. split.
    + cbn [movies set_world set_movies]. by apply NoDup_ids_filter.
    + cbn [movies set_world set_movies world store set_store record].
      by rewrite list_to_map_entry_filter, Hstore.
Qed.

(** X6 at the small library: a film is added and another is deleted. *)
Lemma handlers_keep_store_in_sync_witness :
  exists app1 app2,
    handleAddMovie Sample.zero watchlist Sample.env3 Eager SampleApp.app = (Return tt, app1)
    /\ inSync app1
    /\ deleteMovie "uuid-1" app1 = (Return tt, app2)
    /\ inSync app2.
Proof.
  assert (Hsync : inSync SampleApp.app).
  { split; [nodup_names|reflexivity]. }
  destruct (handlers_keep_store_in_sync SampleApp.app Hsync eq_refl) as (Hadd & _).
  destruct (Hadd Sample.zero watchlist Sample.env3) as (app1 & Hrun1 & Hsync1 & Hdb1).
  { apply (bool_decide_unpack _). vm_compute. exact I. }
  destruct (handlers_keep_store_in_sync app1 Hsync1 Hdb1) as (_ & _ & _ & Hdel).
  destruct (Hdel "uuid-1") as (app2 & Hrun2 & Hsync2 & _).
  exists app1, app2. split; [exact Hrun1|]. split; [exact Hsync1|].
  split; [exact Hrun2|exact Hsync2].
Defined.

(** X7.  Adding and deleting are inverse: when no record of the
    collection passes the duplicate test for the search result and the id
    drawn is fresh, [handleAddMovie] puts the new record in front of the
    collection (and stores it under its id, when the updater has run
    before the guard), and [deleteMovie] of that id gives back the
    collection and the content of the store. *)
Theorem handleAddMovie_then_deleteMovie (result : SearchResult.t)
    (targetStatus : MovieStatus) (env : Fresh) (timing : Timing) (app : AppState) :
  inSync app ->
  dbPromise (world app) = Some true ->
  Forall (fun m => isDuplicate (newMovie result targetStatus env) m = false) (movies app) ->
  randomUUID env ∉ Movie.id <$> movies app ->
  exists app1 app2,
    handleAddMovie result targetStatus env timing app = (Return tt, app1)
    /\ movies app1 = newMovie result targetStatus env :: movies app
    /\ store (world app1)
       = match timing with
         | Eager =>
             <[KStr (randomUUID env) := View.of_movie (newMovie result targetStatus env)]>
               (store (world app))
         | Queued => store (world app)
         end
    /\ deleteMovie (randomUUID env) app1 = (Return tt, app2)
    /\ movies app2 = movies app
    /\ store (world app2) = store (world app).
Proof.
  intros [Hnd Hstore] Hdb Hdup Hfresh.
  unfold handleAddMovie, mbind, St_bind, gets, modify, addMovie.
  rewrite (findIndex_Forall _ _ Hdup).
  assert (Hnone : store (world app) !! KStr (randomUUID env) = None).
  { rewrite Hstore. by apply entry_lookup_None. }
  destruct timing.
  - rewrite service_saveMovie by done.
    eexists _, _. split; [reflexivity|].
    cbn [movies set_world set_movies world store set_store record].
    split; [done|]. split; [done|].
    unfold deleteMovie, mbind, St_bind, modify.
    rewrite service_deleteMovie by done.
    split; [reflexivity|].
    cbn [movies set_world set_movies world store set_store record List.filter newMovie
         Movie.id].
    rewrite bool_decide_eq_true_2 by done. cbn [negb].
    split; [by apply filter_absent|].
    by apply delete_insert_id.
  - eexists _, _. split; [reflexivity|].
    cbn [movies set_world set_movies world store set_store record].
    split; [done|]. split; [done|].
    unfold deleteMovie, mbind, St_bind, modify.
    rewrite service_deleteMovie by done.
    split; [reflexivity|].
    cbn [movies set_world set_movies world store set_store record List.filter newMovie
         Movie.id].
    rewrite bool_decide_eq_true_2 by done. cbn [negb].
    split; [by apply filter_absent|].
    by apply delete_id.
Qed.

(** X7 at the small library and a search result without a reference. *)
Lemma handleAddMovie_then_deleteMovie_witness :
  exists app1 app2,
    handleAddMovie Sample.zero watchlist Sample.env3 Eager SampleApp.app = (Return tt, app1)
    /\ movies app1 = newMovie Sample.zero watchlist Sample.env3 :: Sample.library
    /\ deleteMovie "uuid-3" app1 = (Return tt, app2)
    /\ movies app2 = Sample.library
    /\ store (world app2) = store SampleApp.stocked.
Proof.
  destruct (handleAddMovie_then_deleteMovie Sample.zero watchlist Sample.env3 Eager
              SampleApp.app)
    as (app1 & app2 & Hrun1 & Hm1 & _ & Hrun2 & Hm2 & Hs2).
  - split; [nodup_names|reflexivity].
  - reflexivity.
  - repeat constructor.
  - apply (bool_decide_unpack _). vm_compute. exact I.
  - exists app1, app2. split; [exact Hrun1|]. split; [exact Hm1|].
    split; [exact Hrun2|]. split; [exact Hm2|exact Hs2].
Defined.

(** X8.  [updateMovieDetails] with an id that no record of the collection
    has does nothing at all: the state of the App and the browser are
    left as they are, and the store is not asked anything, whether the
    database can be opened or not.  So does the quick toggle of a record
    that is not in the collection. *)
Theorem updateMovieDetails_unknown_id (id : string) (app : AppState) :
  id ∉ Movie.id <$> movies app ->
  (forall updates timing, updateMovieDetails id updates timing app = (Return tt, app))
  /\ (forall m timing,
       Movie.id m = id -> handleQuickStatusUpdate m timing app = (Return tt, app)).
Proof.
  intros Hid.
  assert (Hupd : forall updates timing,
            updateMovieDetails id updates timing app = (Return tt, app)).
  { intros updates timing. unfold updateMovieDetails, mbind, St_bind, gets, modify.
    rewrite (updateDetails_absent _ _ _ _ Hid). rewrite set_movies_same.
    by destruct timing. }
  split; [exact Hupd|]. intros m timing <-. apply Hupd.
Qed.

(** X8 at the small library, in a browser whose database is broken. *)
Lemma updateMovieDetails_unknown_id_witness :
  let app := set_world SampleApp.failed SampleApp.app in
  updateMovieDetails "uuid-9" (Partial.of_status dropped) Eager app = (Return tt, app).
Proof.
  intros app.
  refine (proj1 (updateMovieDetails_unknown_id "uuid-9" app _) _ _).
  apply (bool_decide_unpack _). vm_compute. exact I.
Defined.

Lemma updateDetails_snd_Some id updates prev acc :
  is_Some acc -> is_Some (updateDetails id updates prev acc).2.
Proof.
  revert acc. induction prev as [|m l IH]; intros acc Hacc; simpl; [done|].
  case_bool_decide.
  - specialize (IH (Some (assign m updates)) (ltac:(by eexists))).
    by destruct (updateDetails id updates l (Some (assign m updates))).
  - specialize (IH acc Hacc). by destruct (updateDetails id updates l acc).
Qed.

Lemma updateDetails_snd_present id updates prev acc :
  id ∈ Movie.id <$> prev -> is_Some (updateDetails id updates prev acc).2.
Proof.
  revert acc. induction prev as [|m l IH]; intros acc Hid; simpl.
  - by apply elem_of_nil in Hid.
  - case_bool_decide as Hm.
    + pose proof (updateDetails_snd_Some id updates l (Some (assign m updates))
                    (ltac:(by eexists))) as Hs.
      by destruct (updateDetails id updates l (Some (assign m updates))).
    + cbn [fmap list_fmap] in Hid. apply elem_of_cons in Hid as [Hid|Hid]; [done|].
      specialize (IH acc Hid). by destruct (updateDetails id updates l acc).
Qed.

Lemma service_unavailable {A} (k : db.M A) app :
  ~ db.available (world app) ->
  exists w1, service (_ ← db.initDB; k) app = (Throw StorageUnavailable, set_world w1 app)
    /\ store w1 = store (world app).
Proof.
  intros Hav. destruct (initDB_unavailable _ Hav) as (w1 & Hinit & Hs & _).
  exists w1. unfold service, mbind, St_bind. by rewrite Hinit.
Qed.

(** X9.  The handlers change the collection before they write to the
    store, and do not take the change back: when the database cannot be
    opened, [handleAddMovie], [updateMovieDetails] (of an id of the
    collection), with an updater that has run before the guard, and
    [deleteMovie] are rejected with the error of the store, the store is
    as it was, and the collection of the App has the record added, updated
    or removed all the same. *)
Theorem handlers_do_not_roll_back (app : AppState) :
  ~ db.available (world app) ->
  (forall result targetStatus env,
     exists app', handleAddMovie result targetStatus env Eager app
                  = (Throw StorageUnavailable, app')
       /\ movies app' = addFromSearch (movies app) (mkCall result targetStatus env)
       /\ store (world app') = store (world app))
  /\ (forall id updates,
     id ∈ Movie.id <$> movies app ->
     exists app', updateMovieDetails id updates Eager app
                  = (Throw StorageUnavailable, app')
       /\ movies app'
          = map (fun m => if bool_decide (Movie.id m = id) then assign m updates else m)
              (movies app)
       /\ store (world app') = store (world app))
  /\ (forall id,
     exists app', deleteMovie id app = (Throw StorageUnavailable, app')
       /\ movies app'
          = List.filter (fun m => negb (bool_decide (Movie.id m = id))) (movies app)
       /\ store (world app') = store (world app)).
Proof.
  intros Hav. split; [|split].
  - intros result targetStatus env.
    unfold handleAddMovie, addFromSearch, mbind, St_bind, gets, modify.
    cbn [call_result call_status call_env].
    destruct (addMovie_saves (newMovie result targetStatus env) targetStatus (movies app))
      as (m & Hm & _).
    destruct (addMovie _ _ _) as [next saved]. cbn [snd] in Hm. subst saved.
    destruct (service_unavailable (db.put (View.of_movie m))
                (set_movies (fun _ => next) app) Hav) as (w1 & Hrun & Hs).
    unfold movieService.saveMovie, db.saveMovie. rewrite Hrun.
    eexists. split; [reflexivity|]. by split.
  - intros id updates Hid.
    unfold updateMovieDetails, mbind, St_bind, gets, modify.
    pose proof (updateDetails_fst id updates (movies app) None) as Hfst.
    destruct (updateDetails_snd_present id updates (movies app) None Hid) as [m Hm].
    destruct (updateDetails _ _ _ _) as [next saved]. cbn [fst snd] in Hfst, Hm.
    subst saved.
    destruct (service_unavailable (db.put (View.of_movie m))
                (set_movies (fun _ => next) app) Hav) as (w1 & Hrun & Hs).
    unfold movieService.saveMovie, db.saveMovie. rewrite Hrun.
    eexists. split; [reflexivity|]. by split.
  - intros id.
    set (app0 := set_movies
                   (List.filter (fun m => negb (bool_decide (Movie.id m = id)))) app).
    change (deleteMovie id app) with (service (movieService.deleteMovie id) app0).
    destruct (service_unavailable
                (modify (fun w => set_store (delete (KStr id))
                                    (record (EvDelete (KStr id)) w)))
                app0 Hav) as (w1 & Hrun & Hs).
    exists (set_world w1 app0). split; [exact Hrun|]. by split.
Qed.

(** X9 at the small library, in a browser whose database is broken. *)
Lemma handlers_do_not_roll_back_witness :
  let app := set_world SampleApp.failed SampleApp.app in
  exists app',
    deleteMovie "uuid-1" app = (Throw StorageUnavailable, app')
    /\ movies app' = [newMovie Sample.dune watched Sample.env2].
Proof.
  intros app.
  destruct (handlers_do_not_roll_back app) as (_ & _ & Hdel).
  - intros Hav. discriminate Hav.
  - destruct (Hdel "uuid-1") as (app' & Hrun & Hm & _).
    exists app'. split; [exact Hrun|exact Hm].
Defined.

(** ** [init] *)

Lemma getAllMovies_ready w :
  dbPromise w = Some true ->
  db.getAllMovies w = (Return (map_to_list (store w)).*2, record EvGetAll w).
Proof.
  intros Hdb. unfold db.getAllMovies, mbind, St_bind. by rewrite (initDB_ready _ Hdb).
Qed.

(** X10.  The effect [init] never fails and never leaves the App loading:
    whatever the state of the browser, and whether the initialisation of
    the store or the reading of the library is rejected or not, it returns
    normally with [isLoading] turned off, and it raises no alert. *)
Theorem init_finishes (w : World) :
  exists app',
    init (mount w) = (Return tt, app')
    /\ isLoading app' = false
    /\ alerts app' = []
    /\ store (world app') = (movieService.initStorage w).2.(store).
Proof.
  unfold init, try_finally, try_catch, mbind, St_bind, service, mount, modify.
  cbn [world].
  destruct (movieService.initStorage w) as [[[]|e] w1]; cbn [world set_world snd].
  - unfold movieService.getLibrary, db.getAllMovies, mbind, St_bind.
    pose proof (initDB_Throw w1) as Hthrow.
    destruct (db.initDB w1) as [[[]|e] w2] eqn:Hinit.
    + eexists. split; [reflexivity|]. cbn. split; [done|]. split; [done|].
      revert Hinit. unfold db.initDB.
      destruct (dbPromise w1) as [[|]|] eqn:Hp; simpl; rewrite ?Hp; try done.
      * by intros [= <-].
      * destruct (indexedDB_available w1); [|done]. by intros [= <-].
    + destruct (Hthrow _ _ eq_refl) as (_ & Hs & _).
      eexists. split; [reflexivity|]. cbn. by rewrite Hs.
  - eexists. split; [reflexivity|]. done.
Qed.

(** X11.  [init] loads the store: when the database can be opened, the
    request for persistent storage is answered and there is no legacy
    data, the collection of the App after [init] holds the records of the
    store (in some order), the store is unchanged, and the store and the
    collection are in step, with the database open, as the handlers
    expect them. *)
Theorem init_loads_the_store (l : list Movie.t) (w : World) :
  NoDup (Movie.id <$> l) ->
  store w = list_to_map (entry <$> l) ->
  db.available w ->
  persist_answers w = true ->
  localStorage w !! db.LOCAL_STORAGE_KEY = None ->
  exists app',
    init (mount w) = (Return tt, app')
    /\ movies app' ≡ₚ l
    /\ isLoading app' = false
    /\ store (world app') = store w
    /\ inSync app'
    /\ dbPromise (world app') = Some true.
Proof.
  intros Hnd Hstore Hav Hpa Hls.
  destruct (initDB_available _ Hav) as (w0 & Hinit & Hd0 & Hs0 & Hl0 & Hc0 & Hp0 & _).
  set (w2 := record (EvGetItem db.LOCAL_STORAGE_KEY) (record EvPersist w0)).
  assert (Hst : movieService.initStorage w = (Return tt, w2)).
  { unfold movieService.initStorage, mbind at 1, St_bind at 1. rewrite Hinit.
    unfold mbind at 1, St_bind at 1.
    rewrite persistStorage_answers by congruence.
    unfold db.migrateFromLocalStorage, mbind, St_bind, gets, modify.
    cbn [localStorage record]. by rewrite Hl0, Hls. }
  assert (Hd2 : dbPromise w2 = Some true) by done.
  assert (Hs2 : store w2 = store w) by done.
  clearbody w2.
  assert (Hkeys : NoDup (entry <$> l).*1).
  { rewrite entry_fst. pose proof KStr_inj. by apply (NoDup_fmap_2 KStr). }
  assert (Hperm : omap View.as_movie (map_to_list (store w2)).*2 ≡ₚ l).
  { rewrite Hs2, Hstore, map_to_list_to_map by done.
    rewrite <- list_fmap_compose.
    change (snd ∘ entry) with View.of_movie. by rewrite omap_as_movie_of_movies. }
  unfold init, try_finally, try_catch, mbind, St_bind, service, mount, modify.
  cbn [world]. rewrite Hst. cbn [world set_world].
  unfold movieService.getLibrary. rewrite (getAllMovies_ready _ Hd2).
  eexists. split; [reflexivity|].
  cbn [movies isLoading world set_world set_movies set_isLoading store record
       dbPromise].
  split; [exact Hperm|]. split; [done|]. split; [done|]. split; [|done].
  split; cbn [movies world store set_isLoading set_movies set_world record].
  - by rewrite Hperm.
  - etrans; [exact (eq_trans Hs2 Hstore)|].
    apply list_to_map_proper; [done|]. by rewrite Hperm.
Qed.

(** X11 at a browser whose store holds the small library. *)
Lemma init_loads_the_store_witness :
  exists app',
    init (mount SampleApp.stocked) = (Return tt, app')
    /\ movies app' ≡ₚ Sample.library
    /\ inSync app'.
Proof.
  destruct (init_loads_the_store Sample.library SampleApp.stocked)
    as (app' & Hrun & Hperm & _ & _ & Hsync & _).
  - nodup_names.
  - reflexivity.
  - reflexivity.
  - reflexivity.
  - reflexivity.
  - exists app'. split; [exact Hrun|]. split; [exact Hperm|exact Hsync].
Defined.

(** ** [handleFileChange] *)

(** X12.  An import stops at the first item that cannot be stored, and
    what was in the store is lost: when the chosen file is read as an
    array with an item without a key, the user confirms and the database
    can be opened, the import ends with the alert of a failed import and
    the settings stay open; the store has been cleared and holds only the
    objects that come before the faulty item, while the collection of the
    App shows every record of the file. *)
Theorem handleFileChange_faulty_item (file_text : string) (pre post : list json)
    (bad : json) (app : AppState) :
  movieService.importData file_text = Return (pre ++ bad :: post) ->
  Forall (fun x => is_Some (db.key_of x)) pre ->
  keyless bad = true ->
  db.available (world app) ->
  exists app',
    handleFileChange file_text true app = (Return tt, app')
    /\ alerts app' = alerts app ++ ["Failed to import file."]
    /\ isSettingsOpen app' = isSettingsOpen app
    /\ (forall k, store (world app') !! k = lastWithKey k pre)
    /\ (forall m, View.of_movie m ∈ pre ++ bad :: post -> m ∈ movies app').
Proof.
  intros Himport Hpre Hbad Hav.
  destruct (initDB_available _ Hav) as (w0 & Hinit & _).
  destruct (put_loop pre (set_store (fun _ => ∅) (record EvClear w0)) Hpre)
    as (w1 & Hloop & Hs1 & _).
  unfold handleFileChange, try_catch. rewrite Himport.
  unfold mbind at 1, St_bind at 1, modify at 1.
  unfold mbind at 1, St_bind at 1, service.
  cbn [world set_movies].
  unfold movieService.overwriteLibrary, db.bulkSaveMovies, mbind, St_bind.
  rewrite Hinit. unfold db.clear, modify at 1.
  rewrite for_of_app, Hloop. cbn [for_of]. unfold mbind, St_bind, db.put.
  rewrite (keyless_key_of _ Hbad). unfold throw, modify.
  eexists. split; [reflexivity|].
  cbn [alerts alert isSettingsOpen world set_world movies].
  split; [done|]. split; [done|]. split.
  - intros k. rewrite Hs1. destruct (lastWithKey k pre); [done|]. apply lookup_empty.
  - intros m Hm. apply list_elem_of_omap. exists (View.of_movie m).
    split; [done|apply as_movie_of_movie].
Qed.

(** X12 at a file of the small library with an object without an id
    between its two records, imported over the small library. *)
Lemma handleFileChange_faulty_item_witness :
  let items := [View.of_movie Sample.planned_matrix; JObj [("title", JStr "Dune")];
                View.of_movie (newMovie Sample.dune watched Sample.env2)] in
  let app := set_movies (fun _ => []) SampleApp.app in
  exists app',
    handleFileChange (JSON.stringify (JArr items)) true app = (Return tt, app')
    /\ alerts app' = ["Failed to import file."]
    /\ store (world app') !! KStr "uuid-1" = Some (View.of_movie Sample.planned_matrix)
    /\ store (world app') !! KStr "uuid-2" = None
    /\ newMovie Sample.dune watched Sample.env2 ∈ movies app'.
Proof.
  intros items app.
  destruct (handleFileChange_faulty_item (JSON.stringify (JArr items))
              [View.of_movie Sample.planned_matrix]
              [View.of_movie (newMovie Sample.dune watched Sample.env2)]
              (JObj [("title", JStr "Dune")]) app)
    as (app' & Hrun & Halert & _ & Hstore & Hmovies).
  - unfold movieService.importData. by rewrite parse_stringify.
  - repeat constructor; by eexists.
  - reflexivity.
  - reflexivity.
  - exists app'. split; [exact Hrun|]. split; [exact Halert|].
    split; [exact (Hstore (KStr "uuid-1"))|]. split; [exact (Hstore (KStr "uuid-2"))|].
    apply Hmovies. right. right. by left.
Defined.

(** X13.  An import that is not confirmed, or whose file is not the text
    of a JSON array, changes nothing of the library: [handleFileChange]
    returns normally, the collection, the store and the settings are as
    they were, and the alert of a failed import is raised exactly when the
    file could not be read as an array. *)
Theorem handleFileChange_refused (file_text : string) (confirmed : bool)
    (app : AppState) :
  confirmed = false \/ (forall items, movieService.importData file_text <> Return items) ->
  exists app',
    handleFileChange file_text confirmed app = (Return tt, app')
    /\ movies app' = movies app
    /\ world app' = world app
    /\ isSettingsOpen app' = isSettingsOpen app
    /\ alerts app'
       = alerts app ++ match movieService.importData file_text with
                       | Return _ => []
                       | Throw _ => ["Failed to import file."]
                       end.
Proof.
  intros Hwhy. unfold handleFileChange, try_catch.
  destruct (movieService.importData file_text) as [items|e] eqn:Himport.
  - destruct Hwhy as [->|Hno]; [|by destruct (Hno items)].
    eexists. split; [reflexivity|]. by rewrite app_nil_r.
  - eexists. split; [reflexivity|]. done.
Qed.

(** X13 at a file that holds an object, not an array. *)
Lemma handleFileChange_refused_witness :
  exists app',
    handleFileChange "{}" true SampleApp.app = (Return tt, app')
    /\ movies app' = Sample.library
    /\ world app' = SampleApp.stocked
    /\ alerts app' = ["Failed to import file."].
Proof.
  destruct (handleFileChange_refused "{}" true SampleApp.app)
    as (app' & Hrun & Hm & Hw & _ & Ha).
  - right. intros items. discriminate.
  - exists app'. split; [exact Hrun|]. split; [exact Hm|]. split; [exact Hw|exact Ha].
Defined.

(** * The data derived from the collection *)

(** ** [Array.prototype.sort] *)

Section sort_sorted.
Context {A : Type} (cmp : A -> A -> Z).
Hypothesis cmp_total : forall x y, 0 < cmp x y -> cmp y x <= 0.
Hypothesis cmp_trans : forall x y z, cmp x y <= 0 -> cmp y z <= 0 -> cmp x z <= 0.

Lemma sort_insert_perm x l : sort_insert cmp x l ≡ₚ x :: l.
Proof.
  induction l as [|y l IH]; simpl; [done|].
  destruct (cmp x y <=? 0); [done|]. rewrite IH. apply Permutation_swap.
Qed.

Lemma sort_perm l : sort cmp l ≡ₚ l.
Proof.
  induction l as [|x l IH]; simpl; [done|]. by rewrite sort_insert_perm, IH.
Qed.

Lemma sort_insert_sorted x l :
  StronglySorted (fun a b => cmp a b <= 0) l ->
  StronglySorted (fun a b => cmp a b <= 0) (sort_insert cmp x l).
Proof.
  induction 1 as [|y l Hl IH Hy]; simpl; [by repeat constructor|].
  destruct (cmp x y <=? 0) eqn:Hxy.
  - apply Z.leb_le in Hxy. constructor; [by constructor|].
    constructor; [done|]. eapply Forall_impl; [exact Hy|].
    intros z Hz. by eapply cmp_trans.
  - apply Z.leb_gt in Hxy. constructor; [done|].
    rewrite sort_insert_perm. constructor; [by apply cmp_total|done].
Qed.

Lemma sort_sorted l : StronglySorted (fun a b => cmp a b <= 0) (sort cmp l).
Proof.
  induction l as [|x l IH]; simpl; [constructor|]. by apply sort_insert_sorted.
Qed.
End sort_sorted.

Lemma StronglySorted_app_elem {A} (R : A -> A -> Prop) (l1 l2 : list A) a b :
  StronglySorted R (l1 ++ l2) -> a ∈ l1 -> b ∈ l2 -> R a b.
Proof.
  induction l1 as [|x l1 IH]; simpl; intros Hs Ha Hb.
  - by apply elem_of_nil in Ha.
  - apply StronglySorted_inv in Hs as [Hs Hx].
    apply elem_of_cons in Ha as [->|Ha]; [|by apply IH].
    rewrite Forall_forall in Hx. apply Hx. apply elem_of_app. by right.
Qed.

Lemma List_filter_filter {A} (p q : A -> bool) (l : list A) :
  List.filter q (List.filter p l) = List.filter (fun x => p x && q x) l.
Proof.
  induction l as [|x l IH]; simpl; [done|].
  destruct (p x); simpl; [|done]. destruct (q x); by rewrite IH.
Qed.

Lemma List_filter_true {A} (l : list A) : List.filter (fun _ => true) l = l.
Proof. induction l as [|x l IH]; simpl; by rewrite ?IH. Qed.

Lemma List_filter_none {A} (p : A -> bool) (l : list A) :
  (forall x, p x = false) -> List.filter p l = [].
Proof. intros Hp. induction l as [|x l IH]; simpl; [done|]. by rewrite Hp. Qed.

Lemma StronglySorted_weaken {A} (R1 R2 : A -> A -> Prop) (l : list A) :
  (forall a b, R1 a b -> R2 a b) -> StronglySorted R1 l -> StronglySorted R2 l.
Proof.
  intros HR. induction 1 as [|x l Hl IH Hx]; constructor; [done|].
  eapply Forall_impl; [exact Hx|]. intros y. apply HR.
Qed.

Lemma byAddedAtDesc_sorted l :
  StronglySorted (fun a b => Movie.addedAt b <= Movie.addedAt a) (sort byAddedAtDesc l).
Proof.
  apply (StronglySorted_weaken (fun a b => byAddedAtDesc a b <= 0)).
  - unfold byAddedAtDesc. intros a b. lia.
  - apply sort_sorted; unfold byAddedAtDesc; intros; lia.
Qed.

(** ** [displayedMovies] *)

(** The array that [displayedMovies] sorts. *)
Lemma displayedMovies_filtered movies view statusFilter mediaFilter genreFilter :
  displayed (displayedMovies movies view statusFilter mediaFilter genreFilter)
  = sort byAddedAtDesc
      (List.filter (passesFilters view statusFilter mediaFilter genreFilter) movies).
Proof.
  unfold displayedMovies, passesFilters.
  destruct view; try (by rewrite List_filter_none).
  all: destruct statusFilter as [s|], mediaFilter as [t|];
    destruct (String.eqb genreFilter "All"); cbn [displayed];
    rewrite ?List_filter_filter; f_equal;
    try (by rewrite List_filter_true);
    apply List.filter_ext; intros m; cbn [orb andb];
    rewrite ?andb_true_r, ?andb_true_l, ?andb_assoc; done.
Qed.

(** X14.  The grid of the library shows exactly the records that pass the
    filters of the view (every record as often as the collection holds
    it, and none in another view than the library and the watchlist),
    newest first.  The array [movies] of the state keeps its records, but
    not always their order: in the library view without any filter,
    [sort] works on the array of the state itself, which is then in the
    order of the grid. *)
Theorem displayedMovies_filters_newest_first (movies : list Movie.t) (view : ViewState)
    (statusFilter : option MovieStatus) (mediaFilter : option MediaType)
    (genreFilter : string) :
  let d := displayedMovies movies view statusFilter mediaFilter genreFilter in
  displayed d ≡ₚ List.filter (passesFilters view statusFilter mediaFilter genreFilter) movies
  /\ StronglySorted (fun a b => Movie.addedAt b <= Movie.addedAt a) (displayed d)
  /\ (view <> LIBRARY -> view <> WATCHLIST -> displayed d = [])
  /\ movies_after d ≡ₚ movies
  /\ movies_after d
     = match view, statusFilter, mediaFilter with
       | LIBRARY, None, None =>
           if String.eqb genreFilter "All" then displayed d else movies
       | _, _, _ => movies
       end.
Proof.
  intros d. subst d. rewrite displayedMovies_filtered.
  split; [apply sort_perm|]. split; [apply byAddedAtDesc_sorted|].
  split.
  { intros H1 H2. rewrite List_filter_none; [done|].
    intros m. unfold passesFilters. by destruct view. }
  unfold displayedMovies.
  destruct view, statusFilter as [s|], mediaFilter as [t|];
    destruct (String.eqb genreFilter "All") eqn:Hg;
    cbn [movies_after displayed]; try done.
  split; [apply sort_perm|].
  unfold passesFilters. rewrite Hg. cbn [andb orb]. by rewrite List_filter_true.
Qed.

(** ** [visibleMovies] *)

(** X15.  The page of the grid holds the newest records: [visibleMovies]
    is the beginning of [displayedMovies], of [displayLimit] records or
    all of them when there are fewer, and no record left out is newer
    than a record shown. *)
Theorem visibleMovies_newest (movies : list Movie.t) (view : ViewState)
    (statusFilter : option MovieStatus) (mediaFilter : option MediaType)
    (genreFilter : string) (displayLimit : nat) :
  let all := displayed (displayedMovies movies view statusFilter mediaFilter genreFilter) in
  let shown := visibleMovies all displayLimit view in
  exists rest,
    all = shown ++ rest
    /\ length shown = (displayLimit `min` length all)%nat
    /\ forall a b, a ∈ shown -> b ∈ rest -> Movie.addedAt b <= Movie.addedAt a.
Proof.
  intros all shown.
  pose proof (displayedMovies_filtered movies view statusFilter mediaFilter genreFilter)
    as Hall. fold all in Hall.
  assert (Hsorted : StronglySorted (fun a b => Movie.addedAt b <= Movie.addedAt a) all).
  { rewrite Hall. apply byAddedAtDesc_sorted. }
  assert (Hview : shown = take displayLimit all).
  { subst shown. unfold visibleMovies. destruct view; try done.
    all: assert (all = []) as -> by (by rewrite Hall, List_filter_none).
    all: by rewrite take_nil. }
  exists (drop displayLimit all). rewrite Hview.
  split; [by rewrite take_drop|]. split; [apply length_take|].
  intros a b Ha Hb. rewrite <- (take_drop displayLimit all) in Hsorted.
  by apply (StronglySorted_app_elem _ _ _ a b Hsorted).
Qed.

(** ** [availableGenres] *)

Lemma set_add_spec set gs :
  NoDup set ->
  NoDup (foldl set_add set gs)
  /\ forall g, g ∈ foldl set_add set gs <-> g ∈ set \/ g ∈ gs.
Proof.
  revert set. induction gs as [|x gs IH]; intros set Hnd; simpl.
  - split; [done|]. intros g. rewrite elem_of_nil. tauto.
  - assert (Hnd' : NoDup (set_add set x)).
    { unfold set_add. case_bool_decide; [done|].
      apply NoDup_app. split; [done|]. split; [|apply NoDup_singleton].
      intros y Hy ->%list_elem_of_singleton. done. }
    destruct (IH _ Hnd') as [Hnd'' Hin]. split; [done|].
    intros g. rewrite Hin, elem_of_cons. unfold set_add.
    case_bool_decide as Hx.
    + split; [tauto|]. intros [?|[->|?]]; auto.
    + rewrite elem_of_app, list_elem_of_singleton. tauto.
Qed.

Lemma genreSet_spec (items : list Movie.t) set :
  NoDup set ->
  let genreSet := foldl (fun set item => foldl set_add set (Movie.genre item)) set items in
  NoDup genreSet
  /\ forall g, g ∈ genreSet <-> g ∈ set \/ exists m, m ∈ items /\ g ∈ Movie.genre m.
Proof.
  revert set. induction items as [|x items IH]; intros set Hnd; simpl.
  - split; [done|]. intros g. split; [auto|]. intros [?|(m & Hm & _)]; [done|].
    by apply elem_of_nil in Hm.
  - destruct (set_add_spec set (Movie.genre x) Hnd) as [Hnd' Hin'].
    destruct (IH _ Hnd') as [Hnd'' Hin]. split; [done|].
    intros g. rewrite Hin, Hin'. split.
    + intros [[?|?]|(m & Hm & Hg)]; [by left| |].
      * right. exists x. split; [by left|done].
      * right. exists m. split; [by right|done].
    + intros [?|(m & Hm & Hg)]; [by left; left|].
      apply elem_of_cons in Hm as [->|Hm]; [by left; right|].
      right. by exists m.
Qed.

Lemma defaultCompare_total x y : 0 < defaultCompare x y -> defaultCompare y x <= 0.
Proof.
  unfold defaultCompare. rewrite (String.compare_antisym x y).
  by destruct (String.compare y x).
Qed.

Lemma defaultCompare_trans x y z :
  defaultCompare x y <= 0 -> defaultCompare y z <= 0 -> defaultCompare x z <= 0.
Proof.
  assert (Hle : forall s1 s2, defaultCompare s1 s2 <= 0 <-> String.leb s1 s2 = true).
  { intros s1 s2. unfold defaultCompare, String.leb.
    destruct (String.compare s1 s2); split; (done || lia). }
  rewrite !Hle. apply string_leb_trans.
Qed.

Lemma StronglySorted_strict (l : list string) :
  NoDup l ->
  StronglySorted (fun a b => defaultCompare a b <= 0) l ->
  StronglySorted (fun a b => String.compare a b = Lt) l.
Proof.
  induction 2 as [|x l Hl IH Hx]; [constructor|].
  apply NoDup_cons in H as [Hx_notin Hnd].
  constructor; [by apply IH|].
  rewrite Forall_forall in Hx |- *. intros y Hy. specialize (Hx y Hy).
  unfold defaultCompare in Hx.
  destruct (String.compare x y) eqn:Hc; [|done|lia].
  apply String.compare_eq_iff in Hc. by subst y.
Qed.


(** * The planned date, the form of the details page and the episodes *)

(** ** The collection after a handler, whatever the store answers *)

Lemma service_movies {A} (m : db.M A) app : movies (service m app).2 = movies app.
Proof. unfold service. by destruct (m (world app)). Qed.

Lemma updateMovieDetails_movies id updates timing app :
  movies (updateMovieDetails id updates timing app).2
  = map (fun m => if bool_decide (Movie.id m = id) then assign m updates else m)
      (movies app).
Proof.
  unfold updateMovieDetails, mbind, St_bind, gets, modify.
  pose proof (updateDetails_fst id updates (movies app) None) as Hfst.
  destruct (updateDetails id updates (movies app) None) as [next [m|]];
    cbn [fst] in Hfst; subst next; [|by destruct timing].
  destruct timing; [|done]. by rewrite service_movies.
Qed.

Lemma handleAddMovie_movies result targetStatus env timing app :
  movies (handleAddMovie result targetStatus env timing app).2
  = (addMovie (newMovie result targetStatus env) targetStatus (movies app)).1.
Proof.
  unfold handleAddMovie, mbind, St_bind, gets, modify.
  destruct (addMovie _ _ _) as [next [m|]]; [|by destruct timing].
  destruct timing; [|done]. by rewrite service_movies.
Qed.

Lemma deleteMovie_movies id app :
  movies (deleteMovie id app).2
  = List.filter (fun m => negb (bool_decide (Movie.id m = id))) (movies app).
Proof.
  unfold deleteMovie, mbind, St_bind, modify. by rewrite service_movies.
Qed.

Lemma Forall_map_update (P : Movie.t -> Prop) id (f : Movie.t -> Movie.t) l :
  Forall P l ->
  (forall m, m ∈ l -> Movie.id m = id -> P (f m)) ->
  Forall P (map (fun m => if bool_decide (Movie.id m = id) then f m else m) l).
Proof.
  intros Hl Hf. induction Hl as [|x l Hx Hl IH]; simpl; constructor.
  - case_bool_decide; [|done]. apply Hf; [by left|done].
  - apply IH. intros m Hm. apply Hf. by right.
Qed.

Lemma Forall_List_filter {A} (P : A -> Prop) (p : A -> bool) (l : list A) :
  Forall P l -> Forall P (List.filter p l).
Proof.
  induction 1 as [|x l Hx Hl IH]; simpl; [done|].
  destruct (p x); [by constructor|done].
Qed.

(** ** The references of the records *)

(** X22.  [handleAddMovie] never makes a record that holds a reference of
    both kinds: the record it creates has a TMDB id or an Open Library id,
    by the type of the id of the search result, never both; and when no
    record of the collection holds both, none does after the call,
    whatever the store answers and whenever React runs the updater. *)
Theorem handleAddMovie_not_both (result : SearchResult.t) (targetStatus : MovieStatus)
    (env : Fresh) (timing : Timing) (app : AppState) :
  Forall (fun m => ~ holdsBoth m) (movies app) ->
  ~ holdsBoth (newMovie result targetStatus env)
  /\ Forall (fun m => ~ holdsBoth m)
       (movies (handleAddMovie result targetStatus env timing app).2).
Proof.
  intros Hall. split; [apply newMovie_not_both|].
  rewrite handleAddMovie_movies. apply addMovie_not_both; [apply newMovie_not_both|done].
Qed.

(** X22 at the small library and a book found again in the search. *)
Lemma handleAddMovie_not_both_witness :
  Forall (fun m => ~ holdsBoth m)
    (movies (handleAddMovie Sample.dune watchlist Sample.env3 Eager SampleApp.app).2).
Proof.
  refine (proj2 (handleAddMovie_not_both Sample.dune watchlist Sample.env3 Eager
                   SampleApp.app _)).
  repeat constructor; intros [[? ?] [? ?]]; done.
Defined.

(** ** The form of the details page *)

(** X17.  The form of the details page never saves a planned date for a
    record that is not on the watchlist.  When the record of the page has
    no planned date unless it is on the watchlist, then whatever the user
    does with the form (status buttons, stars, date, notes, episodes),
    the record that [handleSave] leaves has the status of the form, and
    is on the watchlist or has no planned date at all. *)
Theorem details_form_keeps_plan (movie current : Movie.t)
    (events : list MovieDetails.event) :
  planInvariant movie ->
  let f := foldl (fun f e => MovieDetails.step e f) (MovieDetails.open movie) events in
  let saved := assign current (MovieDetails.handleSave f) in
  Movie.status saved = MovieDetails.status f
  /\ planInvariant saved
  /\ (Movie.status saved <> watchlist -> Movie.plannedDate saved = None)
  /\ Movie.id saved = Movie.id current.
Proof.
  intros Hmovie f saved.
  assert (Hform : MovieDetails.status f <> watchlist -> MovieDetails.plannedDate f = "").
  { subst f.
    assert (Hopen : MovieDetails.status (MovieDetails.open movie) <> watchlist ->
              MovieDetails.plannedDate (MovieDetails.open movie) = "").
    { cbn [MovieDetails.open MovieDetails.status MovieDetails.plannedDate].
      intros Hs. specialize (Hmovie Hs). unfold truthy_str in Hmovie.
      destruct (Movie.plannedDate movie) as [s|]; [|done]. cbn [default].
      apply negb_false_iff in Hmovie. by apply String.eqb_eq. }
    revert Hopen. generalize (MovieDetails.open movie).
    induction events as [|e events IH]; intros f0 Hf0; [done|].
    cbn [foldl]. apply IH.
    destruct e; cbn [MovieDetails.step]; try done.
    - cbn [MovieDetails.status MovieDetails.plannedDate].
      intros Hs. by rewrite bool_decide_eq_false_2.
    - case_bool_decide as Hw; [|done].
      cbn [MovieDetails.status MovieDetails.plannedDate]. done. }
  assert (Hstatus : Movie.status saved = MovieDetails.status f) by done.
  assert (Hdate : Movie.status saved <> watchlist -> Movie.plannedDate saved = None).
  { rewrite Hstatus. intros Hs. subst saved.
    cbn [assign Movie.plannedDate MovieDetails.handleSave Partial.plannedDate default].
    by rewrite (Hform Hs). }
  split; [done|]. split; [|split; [done|done]].
  intros Hs. by rewrite (Hdate Hs).
Qed.

(** X17 at The Matrix, planned on the watchlist: the user moves the date
    and then marks the film as watched. *)
Lemma details_form_keeps_plan_witness :
  let f := foldl (fun f e => MovieDetails.step e f)
             (MovieDetails.open Sample.planned_matrix)
             [MovieDetails.ChangeDate "2024-07-01"; MovieDetails.ClickStatus watched;
              MovieDetails.SetRating 8] in
  let saved := assign Sample.planned_matrix (MovieDetails.handleSave f) in
  Movie.status saved = watched /\ Movie.plannedDate saved = None.
Proof.
  intros f saved.
  destruct (details_form_keeps_plan Sample.planned_matrix Sample.planned_matrix
              [MovieDetails.ChangeDate "2024-07-01"; MovieDetails.ClickStatus watched;
               MovieDetails.SetRating 8])
    as (Hs & _ & Hd & _).
  - intros Hne. by destruct Hne.
  - split; [exact Hs|]. apply Hd. discriminate.
Defined.

(** ** The planned date in the collection *)

(** X18.  A record that is not on the watchlist has no planned date, and
    the handlers keep it so, whatever the store answers and whenever React
    runs the updaters: when this holds
    for every record of the collection, it holds after the quick status
    toggle (of any record), after [removeDate] and [handleDateChange] of
    the planner (the planner lists records of the watchlist), after
    [deleteMovie], and after [handleAddMovie] to the watchlist or of a
    search result that is not a duplicate. *)
Theorem handlers_keep_plan_invariant (app : AppState) :
  Forall planInvariant (movies app) ->
  (forall m timing, Forall planInvariant (movies (handleQuickStatusUpdate m timing app).2))
  /\ (forall id timing,
        Forall planInvariant (movies (updateMovieDetails id Planner.removeDate timing app).2))
  /\ (forall id date timing,
        (forall m, m ∈ movies app -> Movie.id m = id -> Movie.status m = watchlist) ->
        Forall planInvariant
          (movies (updateMovieDetails id (Planner.handleDateChange date) timing app).2))
  /\ (forall id, Forall planInvariant (movies (deleteMovie id app).2))
  /\ (forall result targetStatus env timing,
        targetStatus = watchlist
        \/ Forall (fun m => isDuplicate (newMovie result targetStatus env) m = false)
             (movies app) ->
        Forall planInvariant
          (movies (handleAddMovie result targetStatus env timing app).2)).
Proof.
  intros Hall. split; [|split; [|split; [|split]]].
  - intros m timing. unfold handleQuickStatusUpdate. rewrite updateMovieDetails_movies.
    apply Forall_map_update; [done|]. intros x Hx _.
    unfold planInvariant, quickUpdates, quickStatus.
    destruct (bool_decide (Movie.status m = watchlist)); cbn; [done|].
    intros Hne. by destruct Hne.
  - intros id timing. rewrite updateMovieDetails_movies.
    apply Forall_map_update; [done|]. intros x Hx _. by intros _.
  - intros id date timing Hw. rewrite updateMovieDetails_movies.
    apply Forall_map_update; [done|]. intros x Hx Hid Hne.
    by destruct Hne; apply (Hw x).
  - intros id. rewrite deleteMovie_movies. by apply Forall_List_filter.
  - intros result targetStatus env timing Hwhy. rewrite handleAddMovie_movies.
    unfold addMovie.
    destruct (findIndex _ (movies app)) as [i|] eqn:Hfind; cbn [fst].
    + destruct Hwhy as [->|Hdup].
      * destruct (findIndex_Some _ _ _ Hfind) as (x & Hx & _).
        rewrite (alter_lookup_insert _ _ _ _ Hx).
        apply Forall_insert; [done|]. intros Hne. by destruct Hne.
      * by rewrite (findIndex_Forall _ _ Hdup) in Hfind.
    + constructor; [|done]. by intros _.
Qed.

(** X18 at the small library: the quick toggle of the planned film. *)
Lemma handlers_keep_plan_invariant_witness :
  Forall planInvariant
    (movies (handleQuickStatusUpdate Sample.planned_matrix Eager SampleApp.app).2)
  /\ movies (handleQuickStatusUpdate Sample.planned_matrix Eager SampleApp.app).2
     = [withStatusAndPlan Sample.planned_matrix watched None;
        newMovie Sample.dune watched Sample.env2].
Proof.
  split; [|reflexivity].
  refine (proj1 (handlers_keep_plan_invariant SampleApp.app _) Sample.planned_matrix Eager).
  repeat constructor. intros Hne. by destruct Hne.
Defined.

(** ** The episodes *)

Lemma with_isWatched_same ep : MovieDetails.with_isWatched ep (Episode.isWatched ep) = ep.
Proof. by destruct ep. Qed.

Lemma with_isWatched_twice ep w1 w2 :
  MovieDetails.with_isWatched (MovieDetails.with_isWatched ep w1) w2
  = MovieDetails.with_isWatched ep w2.
Proof. done. Qed.

Lemma with_episodes_same season episodes :
  Season.episodes season = Some episodes ->
  MovieDetails.with_episodes season episodes = season.
Proof. destruct season. simpl. by intros ->. Qed.

(** X19.  Ticking an episode twice gives back the seasons as they were:
    [toggleEpisodeWatched] is its own inverse.  It keeps the number of
    seasons, and the seasons with another number and those whose episodes
    are not loaded as they are. *)
Theorem toggleEpisodeWatched_twice (seasonNum episodeId : Z) (seasons : list Season.t) :
  let once := MovieDetails.toggleEpisodeWatched seasonNum episodeId seasons in
  MovieDetails.toggleEpisodeWatched seasonNum episodeId once = seasons
  /\ length once = length seasons
  /\ forall i season, seasons !! i = Some season ->
       Season.season_number season <> seasonNum \/ Season.episodes season = None ->
       once !! i = Some season.
Proof.
  intros once. subst once. unfold MovieDetails.toggleEpisodeWatched.
  split; [|split].
  - rewrite <- list_fmap_compose. rewrite <- (list_fmap_id seasons) at 2.
    apply list_fmap_ext. intros i season _. cbn [compose id].
    destruct (Season.episodes season) as [episodes|] eqn:Hep; [|by rewrite Hep].
    case_bool_decide as Hn; [|by rewrite Hep, bool_decide_eq_false_2 by done].
    cbn [MovieDetails.with_episodes Season.episodes Season.season_number].
    rewrite bool_decide_eq_true_2 by done.
    set (f := fun ep : Episode.t =>
                if bool_decide (Episode.id ep = episodeId)
                then MovieDetails.with_isWatched ep (negb (Episode.isWatched ep))
                else ep).
    assert (Hf : f <$> (f <$> episodes) = episodes).
    { rewrite <- list_fmap_compose. rewrite <- (list_fmap_id episodes) at 2.
      apply list_fmap_ext. intros j ep _. subst f. cbn [compose id].
      destruct (decide (Episode.id ep = episodeId)) as [He|He].
      - rewrite (bool_decide_eq_true_2 _ He).
        cbn [MovieDetails.with_isWatched Episode.id Episode.isWatched].
        rewrite (bool_decide_eq_true_2 _ He), negb_involutive. by destruct ep.
      - by rewrite !(bool_decide_eq_false_2 _ He). }
    rewrite Hf. etrans; [|by apply with_episodes_same]. done.
  - apply length_fmap.
  - intros i season Hi Hwhy. rewrite list_lookup_fmap, Hi. cbn [fmap option_fmap option_map].
    f_equal. destruct Hwhy as [Hn| ->]; [|done].
    destruct (Season.episodes season); [|done]. by rewrite bool_decide_eq_false_2 by done.
Qed.

Lemma filter_isWatched_all (episodes : list Episode.t) w :
  length (List.filter Episode.isWatched
            ((fun ep => MovieDetails.with_isWatched ep w) <$> episodes))
  = if w then length episodes else 0%nat.
Proof.
  induction episodes as [|ep l IH]; [by destruct w|].
  cbn [fmap list_fmap List.filter MovieDetails.with_isWatched Episode.isWatched].
  destruct w; simpl; by rewrite IH.
Qed.

(** X20.  [markSeasonWatched] marks the whole season: every season with
    the given number whose episodes are loaded has afterwards all its
    episodes watched or none, as asked; it is then fully watched exactly
    when it is marked watched and has an episode.  The number of episodes
    of every season is kept, and the other seasons are left as they
    are. *)
Theorem markSeasonWatched_counts (seasonNum : Z) (isWatched : bool)
    (seasons : list Season.t) (i : nat) (season : Season.t) :
  seasons !! i = Some season ->
  exists season',
    MovieDetails.markSeasonWatched seasonNum isWatched seasons !! i = Some season'
    /\ Season.season_number season' = Season.season_number season
    /\ MovieDetails.totalCount season' = MovieDetails.totalCount season
    /\ (Season.season_number season = seasonNum -> is_Some (Season.episodes season) ->
        Z.of_nat (MovieDetails.watchedCount season')
        = (if isWatched then MovieDetails.totalCount season else 0)
        /\ MovieDetails.isFullyWatched season'
           = isWatched && (0 <? MovieDetails.totalCount season))
    /\ (Season.season_number season <> seasonNum \/ Season.episodes season = None ->
        season' = season).
Proof.
  intros Hi. unfold MovieDetails.markSeasonWatched.
  rewrite list_lookup_fmap, Hi. cbn [fmap option_fmap option_map].
  eexists. split; [reflexivity|].
  destruct (Season.episodes season) as [episodes|] eqn:Hep.
  - case_bool_decide as Hn.
    + unfold MovieDetails.totalCount, MovieDetails.watchedCount, MovieDetails.isFullyWatched,
        MovieDetails.totalCount, MovieDetails.watchedCount.
      cbn [MovieDetails.with_episodes Season.episodes Season.season_number].
      rewrite Hep, length_fmap, filter_isWatched_all.
      split; [done|]. split; [done|]. split.
      * intros _ _. destruct isWatched; cbn [andb]; [|split; [done|]].
        -- split; [done|]. destruct (0 <? Z.of_nat (length episodes)); [|done].
           cbn [andb]. apply Z.eqb_refl.
        -- destruct (Z.ltb_spec 0 (Z.of_nat (length episodes))); [|done].
           cbn [andb]. apply Z.eqb_neq. lia.
      * intros [Hne|Hnone]; [done|discriminate].
    + split; [done|]. split; [done|]. split; [done|done].
  - split; [done|]. split; [done|]. split; [|done].
    intros _ [? ?]. discriminate.
Qed.

(** X20 at a season of two episodes, one of them watched. *)
Lemma markSeasonWatched_counts_witness :
  let ep (n : Z) (w : bool) := Episode.mk n "Episode" n None "" None w None in
  let season := Season.mk 10 "Season 1" 1 None 2 None (Some [ep 1 true; ep 2 false]) in
  exists season',
    MovieDetails.markSeasonWatched 1 true [season] !! 0%nat = Some season'
    /\ MovieDetails.watchedCount season' = 2%nat
    /\ MovieDetails.isFullyWatched season' = true.
Proof.
  intros ep season.
  destruct (markSeasonWatched_counts 1 true [season] 0 season eq_refl)
    as (season' & Hrun & _ & _ & Hmark & _).
  destruct (Hmark eq_refl (ltac:(by eexists))) as [Hcount Hfull].
  exists season'. split; [exact Hrun|]. split; [|exact Hfull].
  apply Nat2Z.inj. exact Hcount.
Defined.
